(** * Rules engine and move search of the chess program

    A shallow embedding of [src/game.cpp] (class [ChessGame]) and
    [src/players.cpp] (the computer players), with the properties of the
    specification stated and proved over it.

    The classes [Board] and [Piece] and the record [Move] are declared in
    headers that are not part of the sources at hand.  [Board] and the
    per-piece shape predicate are therefore interfaces here (type classes),
    and every result holds for each of their implementations. *)

From Stdlib Require Import ZArith Lia Ascii Sorted.
From stdpp Require Import base list option.

Local Open Scope Z_scope.

(** ** Data model *)

Inductive PieceColor := White | Black.

Inductive PieceType := Pawn | Knight | Bishop | Rook | Queen | King.

(** Modelled from the spec: the class [Piece] and its subclasses, declared
    in a header that is not among the sources.  A piece has a colour
    ([getColor]), a type tag (the subclass that [dynamic_pointer_cast]
    tests) and a move count ([getMoveCount]) that starts at 0 and goes up
    with every move of the piece.  Its position is the board cell that
    holds it: [getCol] of the piece fetched at a cell is the column of that
    cell. *)
Record Piece := mkPiece {
  pcolor : PieceColor;
  ptype : PieceType;
  moveCount : nat
}.

(** [Move{oldRow, oldCol, newRow, newCol, color}], with the field names
    the sources use. *)
Record Move := mkMove {
  oldRow : Z;
  oldCol : Z;
  newRow : Z;
  newCol : Z;
  color : PieceColor
}.

Inductive GameState :=
  | Ongoing
  | CheckForWhite
  | CheckForBlack
  | CheckmateForWhite
  | CheckmateForBlack
  | Stalemate
  | ResignedWhite
  | ResignedBlack.

#[global] Instance PieceColor_eq_dec : EqDecision PieceColor.
Proof. solve_decision. Defined.

#[global] Instance PieceType_eq_dec : EqDecision PieceType.
Proof. solve_decision. Defined.

#[global] Instance GameState_eq_dec : EqDecision GameState.
Proof. solve_decision. Defined.

#[global] Instance Piece_eq_dec : EqDecision Piece.
Proof. solve_decision. Defined.

#[global] Instance Move_eq_dec : EqDecision Move.
Proof. solve_decision. Defined.

Definition color_eqb (a b : PieceColor) : bool :=
  match a, b with
  | White, White | Black, Black => true
  | _, _ => false
  end.

Definition state_eqb (a b : GameState) : bool := bool_decide (a = b).

(** [c == White ? Black : White] *)
Definition other (c : PieceColor) : PieceColor :=
  match c with White => Black | Black => White end.

Definition isType (t : PieceType) (p : Piece) : bool :=
  bool_decide (ptype p = t).

(** [dynamic_pointer_cast<T>(p)] on a pointer that may be null. *)
Definition castTo (t : PieceType) (p : option Piece) : bool :=
  match p with
  | Some q => isType t q
  | None => false
  end.

(** ** The external interfaces *)

(** Modelled from the spec: the copy constructor of [Board], which like
    the rest of the class is not among the sources, makes a deep clone.
    A [Board] is therefore a value, and a copy of a board is that value.

    The member functions of [Board] that the game calls are the fields of
    the class: the theorems hold for every implementation of them. *)
Class BoardOps := {
  Board : Type;
  (** [Board::getPieceAt(row, col)], [None] for a null pointer; only read
      at cells inside the board *)
  getPieceAt : Board → Z → Z → option Piece;
  (** [Board::move(move)] *)
  Board_move : Board → Move → Board;
  (** [Board::enPassantMove(move)] *)
  enPassantMove : Board → Move → Board;
  (** [Board::promotionMove(move, promotedPiece)] *)
  promotionMove : Board → Move → option Piece → Board
}.

(** What is taken from the missing headers besides: the shape predicate
    [Piece::isMoveValid], the letter [Piece::getLetter] that the evaluation
    looks up, and the enumerator of [PieceColor] with value 0, which is the
    colour of a [Move] built from four coordinates only. *)
Class PieceOps := {
  isMoveValid : Piece → Move → bool;
  getLetter : Piece → ascii;
  zeroColor : PieceColor
}.

(** [Move{a, b, c, d}] *)
Definition mkMove4 `{PieceOps} (a b c d : Z) : Move := mkMove a b c d zeroColor.

(** ** game.cpp: free function *)

Definition withinBoard (row col : Z) : bool :=
  (0 <=? row) && (0 <=? col) && (row <? 8) && (col <? 8).

(** A block of a function body either returns a value or falls through to
    the next statement. *)
Inductive Flow :=
  | Return (b : bool)
  | Continue.

(** A loop [for (const auto &x : xs) if (test(x)) out.push_back(x);]
    whose test may be undefined. *)
Fixpoint filterLoop {A} (test : A → option bool) (xs : list A) : option (list A) :=
  match xs with
  | [] => Some []
  | x :: rest =>
    match test x with
    | None => None
    | Some keep =>
      match filterLoop test rest with
      | None => None
      | Some out => Some (if keep then x :: out else out)
      end
    end
  end.

Section Validation.
Context `{BoardOps} `{PieceOps}.

(** [dy == 0 ? 0 : (newRow - oldRow) / dy], and the same for columns;
    the division of [int] truncates. *)
Definition unitStep (delta dist : Z) : Z :=
  if dist =? 0 then 0 else Z.quot delta dist.

Definition stepRow (move : Move) : Z :=
  unitStep (newRow move - oldRow move) (Z.abs (newRow move - oldRow move)).

Definition stepCol (move : Move) : Z :=
  unitStep (newCol move - oldCol move) (Z.abs (newCol move - oldCol move)).

(** What the scan of the intermediate cells has done when it stops:
    whether it left the loop ([true]) or returned false at an occupied
    cell, the cells it has read in order, and how many times the loop
    body ran. *)
Record ScanResult := mkScan {
  scanClear : bool;
  scanRead : list (Z * Z);
  scanSteps : nat
}.

(** The [while (i != move.newRow || j != move.newCol)] loop of
    [isValidMove].  [fuel] bounds the number of tests of the loop
    condition.  [None]: the loop is about to read a cell outside the
    board (no defined behaviour), or the fuel is used up. *)
Fixpoint scanLoop (fuel : nat) (board : Board) (move : Move) (i j : Z)
    (read : list (Z * Z)) (steps : nat) : option ScanResult :=
  match fuel with
  | O => None
  | S fuel' =>
    if negb (i =? newRow move) || negb (j =? newCol move) then
      if (i =? oldRow move) && (j =? oldCol move) then
        scanLoop fuel' board move (i + stepRow move) (j + stepCol move)
                 read (S steps)
      else if withinBoard i j then
        match getPieceAt board i j with
        | Some _ => Some (mkScan false (read ++ [(i, j)]) (S steps))
        | None =>
          scanLoop fuel' board move (i + stepRow move) (j + stepCol move)
                   (read ++ [(i, j)]) (S steps)
        end
      else None
    else Some (mkScan true read steps)
  end.

(** Nine tests are enough on an 8x8 board: with more fuel the result is
    the same ([scanLoop_fuel]). *)
Definition scanFuel : nat := 9.

Definition scan (board : Board) (move : Move) : option ScanResult :=
  scanLoop scanFuel board move (oldRow move) (oldCol move) [] 0.

Definition isSliding (p : Piece) : bool :=
  isType Bishop p || isType Queen p || isType Rook p || isType Pawn p.

(** Lines 111-137: bishops, queens, rooks and pawns may not pass over a
    piece; a pawn may not advance straight onto one. *)
Definition slidingBlock (board : Board) (move : Move) (piece : Piece)
    (dx : Z) : option Flow :=
  if isSliding piece then
    match scan board move with
    | None => None
    | Some r =>
      if negb (scanClear r) then Some (Return false)
      else if isType Pawn piece && (dx =? 0)
                && bool_decide (is_Some (getPieceAt board (newRow move) (newCol move)))
      then Some (Return false)
      else Some Continue
    end
  else Some Continue.

(** Lines 139-169: the pawn rules. *)
Definition pawnBlock (moveList : list Move) (board : Board) (move : Move)
    (piece : Piece) (nextPiece : option Piece) (dy dx : Z) : Flow :=
  if isType Pawn piece then
    if (dy >? 1) && (0 <? moveCount piece)%nat then Return false
    else if (dy >? 0) && (dx >? 0) && bool_decide (nextPiece = None) then
      let neighborCol := oldCol move + Z.quot (newCol move - oldCol move) dx in
      if withinBoard (oldRow move) neighborCol then
        let neighborPiece := getPieceAt board (oldRow move) neighborCol in
        if castTo Pawn neighborPiece then
          match list.last moveList with
          | Some lastMove =>
            if (newRow lastMove =? oldRow move)
               && (newCol lastMove =? neighborCol)
               && (Z.abs (newRow lastMove - oldRow lastMove) =? 2)
            then Return true
            else Return false
          | None => Return false
          end
        else Return false
      else Return false
    else Continue
  else Continue.

(** The corner the castling rook is looked up in. *)
Definition rookCorner (turn : PieceColor) (direction : bool) : Z * Z :=
  match turn with
  | White => if direction then (7, 0) else (7, 7)
  | Black => if direction then (0, 0) else (0, 7)
  end.

(** The [for (j = move.oldCol; j != nextPiece->getCol(); j += ...)] loop
    of the castling rule; [rookCol] is [nextPiece->getCol()].  The cell
    is read only when [j] differs from both ends. *)
Fixpoint betweenLoop (fuel : nat) (board : Board) (move : Move)
    (rookCol dx j : Z) : option bool :=
  match fuel with
  | O => None
  | S fuel' =>
    if negb (j =? rookCol) then
      if negb (j =? oldCol move) && negb (j =? rookCol) then
        if withinBoard (oldRow move) j then
          match getPieceAt board (oldRow move) j with
          | Some _ => Some false
          | None =>
            betweenLoop fuel' board move rookCol dx
                        (j + Z.quot (newCol move - oldCol move) dx)
          end
        else None
      else
        betweenLoop fuel' board move rookCol dx
                    (j + Z.quot (newCol move - oldCol move) dx)
    else Some true
  end.

(** Lines 171-197: a king moving two columns castles.  The column of the
    piece in the corner, [nextPiece->getCol()], is the column of the
    corner. *)
Definition kingBlock (turn : PieceColor) (board : Board) (move : Move)
    (piece : Piece) (dx : Z) : option Flow :=
  if isType King piece && (dx =? 2) then
    let direction := (newCol move - oldCol move) <? 0 in
    let corner := rookCorner turn direction in
    let nextPiece := getPieceAt board (fst corner) (snd corner) in
    match nextPiece with
    | None => Some (Return false)
    | Some rook =>
      if negb (isType Rook rook) then Some (Return false)
      else if (0 <? moveCount piece)%nat || (0 <? moveCount rook)%nat
      then Some (Return false)
      else
        match betweenLoop scanFuel board move (snd corner) dx (oldCol move) with
        | Some true => Some Continue
        | Some false => Some (Return false)
        | None => None
        end
    end
  else Some Continue.

(** [ChessGame::isValidMove(turn, move, board)].  It reads the member
    [moveList], which is the first argument here. *)
Definition isValidMove (moveList : list Move) (turn : PieceColor)
    (move : Move) (board : Board) : option bool :=
  if negb (withinBoard (oldRow move) (oldCol move))
     || negb (withinBoard (newRow move) (newCol move))
  then Some false
  else
    match getPieceAt board (oldRow move) (oldCol move) with
    | None => Some false
    | Some piece =>
      if negb (isMoveValid piece move) || negb (color_eqb (pcolor piece) turn)
      then Some false
      else
        let nextPiece := getPieceAt board (newRow move) (newCol move) in
        if match nextPiece with
           | Some np => color_eqb (pcolor piece) (pcolor np)
           | None => false
           end
        then Some false
        else
          let dy := Z.abs (newRow move - oldRow move) in
          let dx := Z.abs (newCol move - oldCol move) in
          match slidingBlock board move piece dx with
          | None => None
          | Some (Return b) => Some b
          | Some Continue =>
            match pawnBlock moveList board move piece nextPiece dy dx with
            | Return b => Some b
            | Continue =>
              match kingBlock turn board move piece dx with
              | None => None
              | Some (Return b) => Some b
              | Some Continue => Some true
              end
            end
          end
    end.

End Validation.

(** ** Move generation and check detection *)

Section Generation.
Context `{BoardOps} `{PieceOps}.

(** The values of a loop [for (int i = 0; i < 8; ++i)]. *)
Definition coords : list Z := [0; 1; 2; 3; 4; 5; 6; 7].

(** The moves the four nested loops of [generateLegalMovesInternal]
    build, in the order they build them. *)
Definition candidateMoves (color : PieceColor) : list Move :=
  flat_map (fun i =>
    flat_map (fun j =>
      flat_map (fun k =>
        map (fun l => mkMove i j k l color) coords)
      coords)
    coords)
  coords.

(** [ChessGame::generateLegalMovesInternal(color, board)]: the
    pseudo-legal moves. *)
Definition generateLegalMovesInternal (moveList : list Move)
    (color : PieceColor) (board : Board) : option (list Move) :=
  filterLoop (fun move => isValidMove moveList color move board)
             (candidateMoves color).

(** The cells in the order of the two nested loops of [findKing]. *)
Definition cells : list (Z * Z) :=
  flat_map (fun i => map (fun j => (i, j)) coords) coords.

(** [ChessGame::findKing(color, board)] *)
Definition findKing (color : PieceColor) (board : Board) : Z * Z :=
  match
    find (fun c =>
            match getPieceAt board (fst c) (snd c) with
            | Some piece => isType King piece && color_eqb (pcolor piece) color
            | None => false
            end) cells
  with
  | Some c => c
  | None => (-1, -1)
  end.

(** [ChessGame::isCheckInternal(move, king)] *)
Definition isCheckInternal (move : Move) (king : Z * Z) : bool :=
  (newRow move =? fst king) && (newCol move =? snd king).

(** [ChessGame::isCaptureTargetInternal(move, target)] *)
Definition isCaptureTargetInternal (move : Move) (target : Z * Z) : bool :=
  (newRow move =? fst target) && (newCol move =? snd target).

(** [ChessGame::isCaptureInternal(move, board)] *)
Definition isCaptureInternal (move : Move) (board : Board) : bool :=
  bool_decide (is_Some (getPieceAt board (newRow move) (newCol move))).

(** [ChessGame::isKingInCheckInternal(kingColor, board)]; the loop
    returns true at the first move that lands on the king. *)
Definition isKingInCheckInternal (moveList : list Move)
    (kingColor : PieceColor) (board : Board) : option bool :=
  match generateLegalMovesInternal moveList (other kingColor) board with
  | None => None
  | Some opponentMoves =>
    let king := findKing kingColor board in
    Some (existsb (fun m => isCheckInternal m king) opponentMoves)
  end.

End Generation.

(** ** The game object *)

(** [gameState == (turn == White ? CheckForBlack : CheckForWhite)]: the
    state in which the king of [c] is the checked one. *)
Definition checkAgainst (c : PieceColor) : GameState :=
  match c with White => CheckForBlack | Black => CheckForWhite end.

Definition checkmateAgainst (c : PieceColor) : GameState :=
  match c with White => CheckmateForBlack | Black => CheckmateForWhite end.

Definition resignedBy (c : PieceColor) : GameState :=
  match c with White => ResignedWhite | Black => ResignedBlack end.

Section Game.
Context `{BoardOps} `{PieceOps}.

(** The members of [ChessGame] that the rules read and write.  The two
    player pointers take no part in them. *)
Record ChessGame := mkGame {
  board : Board;
  turn : PieceColor;
  gameState : GameState;
  moveList : list Move
}.

Definition setBoard (b : Board) (g : ChessGame) : ChessGame :=
  mkGame b (turn g) (gameState g) (moveList g).

Definition setState (s : GameState) (g : ChessGame) : ChessGame :=
  mkGame (board g) (turn g) s (moveList g).

(** [moveList.push_back(move)] *)
Definition pushMove (m : Move) (g : ChessGame) : ChessGame :=
  mkGame (board g) (turn g) (gameState g) (moveList g ++ [m]).

(** [ChessGame::setTurn] *)
Definition setTurn (t : PieceColor) (g : ChessGame) : ChessGame :=
  mkGame (board g) t (gameState g) (moveList g).

(** [ChessGame::changeTurn] *)
Definition changeTurn (g : ChessGame) : ChessGame := setTurn (other (turn g)) g.

(** [ChessGame::startGame] *)
Definition startGame (g : ChessGame) : ChessGame :=
  mkGame (board g) (turn g) Ongoing [].

(** [ChessGame::resign] *)
Definition resign (g : ChessGame) : ChessGame := setState (resignedBy (turn g)) g.

(** [ChessGame::kingIsInCheck(kingColor)] *)
Definition kingIsInCheck (kingColor : PieceColor) (g : ChessGame) : option bool :=
  isKingInCheckInternal (moveList g) kingColor (board g).

(** The loop of [computeState] over the moves of the checked side:
    [true] when one of them, played on a copy of the board, leaves the
    king out of check. *)
Fixpoint anyEscape (ml : list Move) (color : PieceColor) (b : Board)
    (opponentMoves : list Move) : option bool :=
  match opponentMoves with
  | [] => Some false
  | m :: rest =>
    match isKingInCheckInternal ml color (Board_move b m) with
    | None => None
    | Some false => Some true
    | Some true => anyEscape ml color b rest
    end
  end.

(** [ChessGame::computeState(color)] *)
Definition computeState (color : PieceColor) (g : ChessGame) : option ChessGame :=
  match isKingInCheckInternal (moveList g) color (board g) with
  | None => None
  | Some false => Some g
  | Some true =>
    let g1 := setState (checkAgainst color) g in
    match generateLegalMovesInternal (moveList g1) color (board g1) with
    | None => None
    | Some opponentMoves =>
      match anyEscape (moveList g1) color (board g1) opponentMoves with
      | None => None
      | Some outOfCheck =>
        Some (if negb outOfCheck then setState (checkmateAgainst color) g1 else g1)
      end
    end
  end.

(** One column towards the destination: [(newCol - oldCol) / dx]. *)
Definition colStep (m : Move) : Z :=
  Z.quot (newCol m - oldCol m) (Z.abs (newCol m - oldCol m)).

(** The first king step of a castling move. *)
Definition intermediateOf (m : Move) : Move :=
  mkMove4 (oldRow m) (oldCol m) (newRow m) (oldCol m + colStep m).

(** The second king step of a castling move. *)
Definition finalOf (m : Move) : Move :=
  let intermediate := intermediateOf m in
  mkMove4 (newRow intermediate) (newCol intermediate) (newRow intermediate)
          (newCol intermediate + colStep m).

(** The rook move of a castling move. *)
Definition rookMoveOf (t : PieceColor) (m : Move) : Move :=
  let direction := (newCol m - oldCol m) <? 0 in
  let rook := rookCorner t direction in
  mkMove4 (fst rook) (snd rook) (fst rook) (oldCol m + colStep m).

(** The three tests of the castling branch, on a copy of the board: the
    king where it stands, after its first step, after its second step.
    [true] when one of them finds the king of [t] in check. *)
Definition castlingInCheck (ml : list Move) (t : PieceColor)
    (preliminaryBoard : Board) (m : Move) : option bool :=
  match isKingInCheckInternal ml t preliminaryBoard with
  | None => None
  | Some true => Some true
  | Some false =>
    let preliminaryBoard1 := Board_move preliminaryBoard (intermediateOf m) in
    match isKingInCheckInternal ml t preliminaryBoard1 with
    | None => None
    | Some true => Some true
    | Some false =>
      let preliminaryBoard2 := Board_move preliminaryBoard1 (finalOf m) in
      isKingInCheckInternal ml t preliminaryBoard2
    end
  end.

(** [ChessGame::moveInternal(move)]: the value returned and the game
    after the call. *)
Definition moveInternal (move : Move) (g : ChessGame) : option (bool * ChessGame) :=
  match isValidMove (moveList g) (turn g) move (board g) with
  | None => None
  | Some false => Some (false, g)
  | Some true =>
    let piece := getPieceAt (board g) (oldRow move) (oldCol move) in
    let nextPiece := getPieceAt (board g) (newRow move) (newCol move) in
    let dy := Z.abs (newRow move - oldRow move) in
    let dx := Z.abs (newCol move - oldCol move) in
    let preliminaryBoard := board g in
    let committed : option (option ChessGame) :=
      if castTo Pawn piece && (dy >? 0) && (dx >? 0) && bool_decide (nextPiece = None)
      then
        (* en passant *)
        match isKingInCheckInternal (moveList g) (turn g)
                (Board_move preliminaryBoard move) with
        | None => None
        | Some true => Some None
        | Some false =>
          Some (Some (pushMove move (setBoard (enPassantMove (board g) move) g)))
        end
      else if castTo King piece && (dx =? 2) then
        (* castling *)
        match castlingInCheck (moveList g) (turn g) preliminaryBoard move with
        | None => None
        | Some true => Some None
        | Some false =>
          Some (Some (pushMove move
                        (setBoard (Board_move (Board_move (board g) move)
                                              (rookMoveOf (turn g) move)) g)))
        end
      else
        match isKingInCheckInternal (moveList g) (turn g)
                (Board_move preliminaryBoard move) with
        | None => None
        | Some true => Some None
        | Some false =>
          Some (Some (pushMove move (setBoard (Board_move (board g) move) g)))
        end
    in
    match committed with
    | None => None
    | Some None => Some (false, g)
    | Some (Some g1) =>
      (* reset game state to ongoing if escaped check *)
      Some (true,
            if state_eqb (gameState g1) (checkAgainst (turn g1))
            then setState Ongoing g1 else g1)
    end
  end.

(** [ChessGame::move(move)] *)
Definition move (m : Move) (g : ChessGame) : option (bool * ChessGame) :=
  match moveInternal m g with
  | None => None
  | Some (true, g1) =>
    match computeState (other (turn g1)) g1 with
    | None => None
    | Some g2 => Some (true, g2)
    end
  | Some (false, g1) => Some (false, g1)
  end.

(** [ChessGame::movePromotion(move, promotedPiece)] *)
Definition movePromotion (m : Move) (promotedPiece : option Piece)
    (g : ChessGame) : option (bool * ChessGame) :=
  match moveInternal m g with
  | None => None
  | Some (true, g1) =>
    let g2 := setBoard (promotionMove (board g1) m promotedPiece) g1 in
    match computeState (other (turn g2)) g2 with
    | None => None
    | Some g3 => Some (true, g3)
    end
  | Some (false, g1) => Some (false, g1)
  end.

(** The body of the loop of [generateLegalMoves]: [true] when the move
    reaches [nonCheckLegalMoves.push_back(m)]. *)
Definition keepsKingSafe (g : ChessGame) (m : Move) : option bool :=
  let piece := getPieceAt (board g) (oldRow m) (oldCol m) in
  let dx := Z.abs (newCol m - oldCol m) in
  let preliminaryBoard := board g in
  if castTo King piece && (dx =? 2) then
    match castlingInCheck (moveList g) (turn g) preliminaryBoard m with
    | None => None
    | Some inCheck => Some (negb inCheck)
    end
  else
    match isKingInCheckInternal (moveList g) (turn g)
            (Board_move preliminaryBoard m) with
    | None => None
    | Some inCheck => Some (negb inCheck)
    end.

(** [ChessGame::generateLegalMoves()] *)
Definition generateLegalMoves (g : ChessGame) : option (list Move) :=
  match generateLegalMovesInternal (moveList g) (turn g) (board g) with
  | None => None
  | Some legalMoves => filterLoop (keepsKingSafe g) legalMoves
  end.

(** [ChessGame::computeStalemate()]; the third conjunct is evaluated
    only when the first two hold. *)
Definition computeStalemate (g : ChessGame) : option ChessGame :=
  if negb (state_eqb (gameState g) (checkAgainst (turn g)))
     && negb (state_eqb (gameState g) (checkmateAgainst (turn g)))
  then
    match generateLegalMoves g with
    | None => None
    | Some [] => Some (setState Stalemate g)
    | Some (_ :: _) => Some g
    end
  else Some g.

(** [ChessGame::isCapture(move)] *)
Definition isCapture (m : Move) (g : ChessGame) : bool :=
  isCaptureInternal m (board g).

(** [ChessGame::isCheck(move)] *)
Definition isCheck (m : Move) (g : ChessGame) : option bool :=
  isKingInCheckInternal (moveList g) (other (color m)) (Board_move (board g) m).

(** [ChessGame::isMoveSafe(move)] *)
Definition isMoveSafe (m : Move) (g : ChessGame) : option bool :=
  match generateLegalMovesInternal (moveList g) (other (color m))
          (Board_move (board g) m) with
  | None => None
  | Some opponentMoves =>
    Some (negb (existsb
                  (fun o => isCaptureTargetInternal o (newRow m, newCol m))
                  opponentMoves))
  end.

(** [ChessGame::isPromotion(move)] *)
Definition isPromotion (m : Move) (g : ChessGame) : bool :=
  if negb (withinBoard (oldRow m) (oldCol m))
     || negb (withinBoard (newRow m) (newCol m))
  then false
  else
    match getPieceAt (board g) (oldRow m) (oldCol m) with
    | None => false
    | Some piece =>
      if negb (isMoveValid piece m) || negb (color_eqb (pcolor piece) (turn g))
      then false
      else
        if match getPieceAt (board g) (newRow m) (newCol m) with
           | Some np => color_eqb (pcolor piece) (pcolor np)
           | None => false
           end
        then false
        else isType Pawn piece && ((newRow m =? 7) || (newRow m =? 0))
    end.

(** The table [pieceValues]; a letter that is not a key reads as 0. *)
Definition pieceValues (letter : ascii) : Z :=
  if Ascii.eqb letter "k"%char then 10000
  else if Ascii.eqb letter "q"%char then 900
  else if Ascii.eqb letter "r"%char then 500
  else if Ascii.eqb letter "b"%char then 330
  else if Ascii.eqb letter "n"%char then 320
  else if Ascii.eqb letter "p"%char then 100
  else 0.

(** [ChessGame::evaluateBoard(color)]; the sum stays far inside the
    range of [int]. *)
Definition evaluateBoard (c : PieceColor) (g : ChessGame) : Z :=
  fold_left
    (fun materialScore cell =>
       match getPieceAt (board g) (fst cell) (snd cell) with
       | Some piece =>
         let pieceValue := pieceValues (getLetter piece) in
         if color_eqb (pcolor piece) c
         then materialScore + pieceValue
         else materialScore - pieceValue
       | None => materialScore
       end)
    cells 0.

End Game.

(** ** players.cpp: the random, greedy and heuristic levels *)

Section Levels.
Context `{BoardOps} `{PieceOps}.

(** [v[rand() % v.size()]], with [r] the value of [rand()].  On an empty
    vector neither the remainder nor the element is defined. *)
Definition pickRandom (r : nat) (v : list Move) : option Move :=
  match v with
  | [] => None
  | _ :: _ => v !! (r mod length v)%nat
  end.

(** [Level1::getMove()] *)
Definition Level1_getMove (r : nat) (g : ChessGame) : option Move :=
  match generateLegalMoves g with
  | None => None
  | Some legalMoves => pickRandom r legalMoves
  end.

(** [Level2::getMove()]; [isCheck] is evaluated only for a move that is
    not a capture. *)
Definition Level2_getMove (r : nat) (g : ChessGame) : option Move :=
  match generateLegalMoves g with
  | None => None
  | Some legalMoves =>
    match filterLoop (fun m => if isCapture m g then Some true else isCheck m g)
                     legalMoves with
    | None => None
    | Some [] => pickRandom r legalMoves
    | Some (p :: ps) => pickRandom r (p :: ps)
    end
  end.

(** [Level3::getMove()]: checks, then captures, then safe moves. *)
Definition Level3_getMove (r : nat) (g : ChessGame) : option Move :=
  match generateLegalMoves g with
  | None => None
  | Some legalMoves =>
    match filterLoop (fun m => isCheck m g) legalMoves with
    | None => None
    | Some (p :: ps) => pickRandom r (p :: ps)
    | Some [] =>
      match filter (fun m => isCapture m g = true) legalMoves with
      | p :: ps => pickRandom r (p :: ps)
      | [] =>
        match filterLoop (fun m => isMoveSafe m g) legalMoves with
        | None => None
        | Some (p :: ps) => pickRandom r (p :: ps)
        | Some [] => pickRandom r legalMoves
        end
      end
    end
  end.

End Levels.

(** ** players.cpp: minimax over game objects

    [Level4::minimax] takes the game by reference and copies it for every
    move it tries.  A [ChessGame] holds its board through a shared pointer,
    so the objects live in a store: game objects that point to boards. *)

Section Objects.
Context `{BoardOps} `{PieceOps}.

(** A [ChessGame] object: the address of its board and its other
    members. *)
Record GameObj := mkObj {
  boardPtr : nat;
  objTurn : PieceColor;
  objState : GameState;
  objMoves : list Move
}.

Record Store := mkStore {
  boards : list Board;
  games : list GameObj
}.

(** The game at address [a], read through its board pointer. *)
Definition load (a : nat) (s : Store) : option ChessGame :=
  match games s !! a with
  | None => None
  | Some o =>
    match boards s !! boardPtr o with
    | None => None
    | Some b => Some (mkGame b (objTurn o) (objState o) (objMoves o))
    end
  end.

(** Writing the members of the game at address [a]; the board is
    written where the pointer of the object points. *)
Definition save (a : nat) (g : ChessGame) (s : Store) : option Store :=
  match games s !! a with
  | None => None
  | Some o =>
    Some (mkStore (<[boardPtr o := board g]> (boards s))
                  (<[a := mkObj (boardPtr o) (turn g) (gameState g) (moveList g)]>
                     (games s)))
  end.

(** The copy constructor [ChessGame(const ChessGame &other)]:
    [make_shared<Board>] of a copy of the board of [other], the other
    members copied.  Returns the address of the new object. *)
Definition copyGame (other : nat) (s : Store) : option (nat * Store) :=
  match games s !! other with
  | None => None
  | Some o =>
    match boards s !! boardPtr o with
    | None => None
    | Some b =>
      Some (length (games s),
            mkStore (boards s ++ [b])
                    (games s ++ [mkObj (length (boards s)) (objTurn o)
                                       (objState o) (objMoves o)]))
    end
  end.

(** [game.move(m)] on the object at address [a]. *)
Definition moveAt (a : nat) (m : Move) (s : Store) : option (bool * Store) :=
  match load a s with
  | None => None
  | Some g =>
    match move m g with
    | None => None
    | Some (ok, g') =>
      match save a g' s with
      | None => None
      | Some s' => Some (ok, s')
      end
    end
  end.

(** What [minimax] works on: the store and the member [bestMove] of the
    player. *)
Definition SearchState : Type := Store * Move.

Section Minimax.
(** The constant [MAX_DEPTH] and the member [color] of the player. *)
Variable MAX_DEPTH : nat.
Variable myColor : PieceColor.

(** The loop of the maximizing branch; [rec] is the call
    [minimax(tempGame, depth - 1, alpha, beta, false)]. *)
Fixpoint maxLoop (rec : nat → Z → Z → SearchState → option (Z * SearchState))
    (atRoot : bool) (game : nat) (legalMoves : list Move)
    (alpha beta maxEval : Z) (st : SearchState) : option (Z * SearchState) :=
  match legalMoves with
  | [] => Some (maxEval, st)
  | m :: rest =>
    match copyGame game (fst st) with
    | None => None
    | Some (tempGame, s1) =>
      match moveAt tempGame m s1 with
      | None => None
      | Some (_, s2) =>
        match rec tempGame alpha beta (s2, snd st) with
        | None => None
        | Some (eval, st3) =>
          let maxEval' := if eval >? maxEval then eval else maxEval in
          let best' :=
            if (eval >? maxEval) && atRoot then m else snd st3 in
          let alpha' := Z.max alpha eval in
          if beta <=? alpha' then Some (maxEval', (fst st3, best'))
          else maxLoop rec atRoot game rest alpha' beta maxEval'
                       (fst st3, best')
        end
      end
    end
  end.

(** The loop of the minimizing branch; [rec] is the call
    [minimax(newGame, depth - 1, alpha, beta, true)]. *)
Fixpoint minLoop (rec : nat → Z → Z → SearchState → option (Z * SearchState))
    (game : nat) (legalMoves : list Move)
    (alpha beta minEval : Z) (st : SearchState) : option (Z * SearchState) :=
  match legalMoves with
  | [] => Some (minEval, st)
  | m :: rest =>
    match copyGame game (fst st) with
    | None => None
    | Some (newGame, s1) =>
      match moveAt newGame m s1 with
      | None => None
      | Some (_, s2) =>
        match rec newGame alpha beta (s2, snd st) with
        | None => None
        | Some (eval, st3) =>
          let minEval' := Z.min minEval eval in
          let beta' := Z.min beta eval in
          if beta' <=? alpha then Some (minEval', st3)
          else minLoop rec game rest alpha beta' minEval' st3
        end
      end
    end
  end.

(** [Level4::minimax(game, depth, alpha, beta, maximizingPlayer)]; the
    depth counts down to 0. *)
Fixpoint minimax (depth : nat) (game : nat) (alpha beta : Z)
    (maximizingPlayer : bool) (st : SearchState) : option (Z * SearchState) :=
  match load game (fst st) with
  | None => None
  | Some g =>
    match depth with
    | O => Some (evaluateBoard myColor g, st)
    | S depth' =>
      if negb (state_eqb (gameState g) Ongoing)
      then Some (evaluateBoard myColor g, st)
      else
        match generateLegalMoves g with
        | None => None
        | Some legalMoves =>
          if maximizingPlayer then
            maxLoop (fun a al be => minimax depth' a al be false)
                    (bool_decide (depth = MAX_DEPTH))
                    game legalMoves alpha beta (-1000000) st
          else
            minLoop (fun a al be => minimax depth' a al be true)
                    game legalMoves alpha beta 1000000 st
        end
    end
  end.

(** [Level4::getMove()] on the game at address [game]: the move
    returned and the store after the search. *)
Definition Level4_getMove (game : nat) (s : Store) : option (Move * Store) :=
  match minimax MAX_DEPTH game (-1000000) 1000000 true
                (s, mkMove4 0 0 0 0) with
  | None => None
  | Some (_, st) => Some (snd st, fst st)
  end.

End Minimax.

End Objects.

(** ** An implementation of the interfaces

    The theorems below hold for every implementation of [BoardOps] and
    [PieceOps].  This one is used to run the definitions on positions: a
    grid of cells with the board operations as the specification describes
    them, and the usual shapes of the pieces. *)

Module Std.

(** Eight rows of eight cells. *)
Definition Grid : Type := list (list (option Piece)).

Definition cellAt (b : Grid) (row col : Z) : option Piece :=
  if withinBoard row col then
    match b !! Z.to_nat row with
    | Some r => match r !! Z.to_nat col with Some c => c | None => None end
    | None => None
    end
  else None.

Definition setCell (b : Grid) (row col : Z) (c : option Piece) : Grid :=
  if withinBoard row col then
    match b !! Z.to_nat row with
    | Some r => <[Z.to_nat row := <[Z.to_nat col := c]> r]> b
    | None => b
    end
  else b.

Definition moved (p : Piece) : Piece :=
  mkPiece (pcolor p) (ptype p) (S (moveCount p)).

(** Modelled from the spec: [Board::move] is not among the sources.  An
    ordinary move relocates the piece and discards a captured piece; the
    move counter goes up on every application. *)
Definition applyPlain (b : Grid) (m : Move) : Grid :=
  match cellAt b (oldRow m) (oldCol m) with
  | Some p =>
    setCell (setCell b (oldRow m) (oldCol m) None)
            (newRow m) (newCol m) (Some (moved p))
  | None => b
  end.

(** Modelled from the spec: [Board::enPassantMove] is not among the
    sources.  It relocates the pawn and discards the passed pawn, which
    stands beside the origin in the column of the destination. *)
Definition applyEnPassant (b : Grid) (m : Move) : Grid :=
  setCell (applyPlain b m) (oldRow m) (newCol m) None.

(** Modelled from the spec: [Board::promotionMove] is not among the
    sources.  The piece that arrived on the destination cell is replaced
    by the requested one. *)
Definition applyPromotion (b : Grid) (m : Move) (promoted : option Piece) : Grid :=
  setCell b (newRow m) (newCol m) promoted.

#[export] Instance board_ops : BoardOps := {|
  Board := Grid;
  getPieceAt := cellAt;
  Board_move := applyPlain;
  enPassantMove := applyEnPassant;
  promotionMove := applyPromotion
|}.

(** [Piece::isMoveValid] is not among the sources, and the spec leaves the
    shapes to the pieces.  These are the usual shapes of chess, with White
    moving towards row 0 (its rooks start on row 7). *)
Definition shape (p : Piece) (m : Move) : bool :=
  let dr := newRow m - oldRow m in
  let dc := newCol m - oldCol m in
  let ady := Z.abs dr in
  let adx := Z.abs dc in
  match ptype p with
  | Pawn =>
    let fwd := match pcolor p with White => -1 | Black => 1 end in
    ((dc =? 0) && ((dr =? fwd) || (dr =? 2 * fwd)))
    || ((adx =? 1) && (dr =? fwd))
  | Knight => ((ady =? 1) && (adx =? 2)) || ((ady =? 2) && (adx =? 1))
  | Bishop => (ady =? adx) && negb (ady =? 0)
  | Rook => ((ady =? 0) && negb (adx =? 0)) || ((adx =? 0) && negb (ady =? 0))
  | Queen =>
    ((ady =? adx) && negb (ady =? 0))
    || ((ady =? 0) && negb (adx =? 0)) || ((adx =? 0) && negb (ady =? 0))
  | King =>
    ((ady <=? 1) && (adx <=? 1) && negb ((ady =? 0) && (adx =? 0)))
    || ((ady =? 0) && (adx =? 2))
  end.

Definition letter (p : Piece) : ascii :=
  match ptype p with
  | Pawn => "p" | Knight => "n" | Bishop => "b"
  | Rook => "r" | Queen => "q" | King => "k"
  end%char.

#[export] Instance piece_ops : PieceOps := {|
  isMoveValid := shape;
  getLetter := letter;
  zeroColor := White
|}.

Definition emptyRow : list (option Piece) := replicate 8 None.
Definition emptyGrid : Grid := replicate 8 emptyRow.

(** A board from a list of placed pieces. *)
Definition place (ps : list (Z * Z * Piece)) : Grid :=
  fold_left (fun b x => setCell b (fst (fst x)) (snd (fst x)) (Some (snd x)))
            ps emptyGrid.

Definition pc (c : PieceColor) (t : PieceType) : Piece := mkPiece c t 0%nat.

End Std.

Import Std.

(** ** Vocabulary of the properties *)

Section Vocabulary.
Context `{BoardOps} `{PieceOps}.

(** Both ends of the move are cells of the board. *)
Definition inBoard (m : Move) : Prop :=
  withinBoard (oldRow m) (oldCol m) = true
  ∧ withinBoard (newRow m) (newCol m) = true.

(** The displacement lies on a straight line or on an exact diagonal. *)
Definition aligned (m : Move) : Prop :=
  newRow m - oldRow m = 0
  ∨ newCol m - oldCol m = 0
  ∨ Z.abs (newRow m - oldRow m) = Z.abs (newCol m - oldCol m).

(** The number of unit steps from the origin to the destination of an
    aligned move. *)
Definition distance (m : Move) : Z :=
  Z.max (Z.abs (newRow m - oldRow m)) (Z.abs (newCol m - oldCol m)).

(** The cell [k] unit steps from the origin towards the destination. *)
Definition cellOn (m : Move) (k : Z) : Z * Z :=
  (oldRow m + k * Z.sgn (newRow m - oldRow m),
   oldCol m + k * Z.sgn (newCol m - oldCol m)).

(** The cells strictly between origin and destination, from the origin
    outwards. *)
Definition betweenCells (m : Move) : list (Z * Z) :=
  map (fun t => cellOn m (Z.of_nat t)) (seq 1 (Z.to_nat (distance m) - 1)).

(** No piece stands on the cell. *)
Definition emptyAt (b : Board) (c : Z * Z) : Prop :=
  getPieceAt b (fst c) (snd c) = None.

(** The shape predicate accepts only aligned moves for the pieces whose
    path is scanned. *)
Class AlignedShapes : Prop :=
  shape_aligned :
    ∀ p m, isMoveValid p m = true → isSliding p = true → aligned m.

(** A pseudo-legal move of colour [c]: a move of that colour that
    [isValidMove] accepts. *)
Definition pseudoLegal (ml : list Move) (c : PieceColor) (b : Board)
    (m : Move) : Prop :=
  color m = c ∧ isValidMove ml c m b = Some true.

(** What the loop does on a list of cells that are all inside the board
    and all different from both ends. *)
Fixpoint scanModel (b : Board) (cs : list (Z * Z)) (read : list (Z * Z))
    (steps : nat) : ScanResult :=
  match cs with
  | [] => mkScan true read steps
  | c :: rest =>
    match getPieceAt b (fst c) (snd c) with
    | Some _ => mkScan false (read ++ [c]) (S steps)
    | None => scanModel b rest (read ++ [c]) (S steps)
    end
  end.

(** The columns strictly between the king and the corner of the side it
    moves to. *)
Definition castlingPathEmpty (t : PieceColor) (b : Board) (m : Move) : Prop :=
  let rookCol := snd (rookCorner t ((newCol m - oldCol m) <? 0)) in
  ∀ c, Z.min (oldCol m) rookCol < c < Z.max (oldCol m) rookCol →
       getPieceAt b (oldRow m) c = None.

(** The cell holds a king of colour [c]. *)
Definition kingAt (c : PieceColor) (b : Board) (cell : Z * Z) : Prop :=
  ∃ piece, getPieceAt b (fst cell) (snd cell) = Some piece
           ∧ ptype piece = King ∧ pcolor piece = c.

(** The destination holds a piece of the other colour. *)
Definition capturesOpponent (t : PieceColor) (b : Board) (m : Move) : Prop :=
  ∃ np, getPieceAt b (newRow m) (newCol m) = Some np ∧ pcolor np ≠ t.

(** The cell beside the origin, one column towards the destination,
    holds a pawn that satisfies [P], and the last entry of the history is
    a two-row advance that lands on that cell. *)
Definition passedPawnBeside (P : Piece → Prop) (ml : list Move) (b : Board)
    (m : Move) : Prop :=
  let neighborCol := oldCol m + Z.sgn (newCol m - oldCol m) in
  withinBoard (oldRow m) neighborCol = true
  ∧ (∃ np, getPieceAt b (oldRow m) neighborCol = Some np
           ∧ ptype np = Pawn ∧ P np)
  ∧ ∃ lastMove, list.last ml = Some lastMove
                ∧ newRow lastMove = oldRow m
                ∧ newCol lastMove = neighborCol
                ∧ Z.abs (newRow lastMove - oldRow lastMove) = 2.

(** The property as the specification words it: the pawn beside the
    origin is an opponent pawn. *)
Definition diagonalRuleOpponentPawn (ml : list Move) (t : PieceColor)
    (b : Board) (m : Move) : Prop :=
  isValidMove ml t m b = Some true →
  capturesOpponent t b m ∨ passedPawnBeside (fun np => pcolor np ≠ t) ml b m.

(** The board a successful [moveInternal] commits. *)
Definition committedBoard (g : ChessGame) (m : Move) : Board :=
  let piece := getPieceAt (board g) (oldRow m) (oldCol m) in
  let nextPiece := getPieceAt (board g) (newRow m) (newCol m) in
  if castTo Pawn piece && (Z.abs (newRow m - oldRow m) >? 0)
     && (Z.abs (newCol m - oldCol m) >? 0) && bool_decide (nextPiece = None)
  then enPassantMove (board g) m
  else if castTo King piece && (Z.abs (newCol m - oldCol m) =? 2)
  then Board_move (Board_move (board g) m) (rookMoveOf (turn g) m)
  else Board_move (board g) m.

(** The piece at the origin is a king and the move is two columns wide. *)
Definition isCastling (b : Board) (m : Move) : bool :=
  castTo King (getPieceAt b (oldRow m) (oldCol m))
  && (Z.abs (newCol m - oldCol m) =? 2).

(** The king of [c] is in check on board [b]: some pseudo-legal move of
    the other colour lands on the cell of that king, the one [findKing]
    gives. *)
Definition attacked (ml : list Move) (c : PieceColor) (b : Board) : Prop :=
  ∃ o, pseudoLegal ml (other c) b o ∧ (newRow o, newCol o) = findKing c b.

(** The king of [t] is not in check on board [b]. *)
Definition outOfCheck (ml : list Move) (t : PieceColor) (b : Board) : Prop :=
  ¬ attacked ml t b.



(** A pseudo-legal move of [c] that leaves the king of [c] out of check
    when it is played with [Board::move] on a copy of the board. *)
Definition escapes (ml : list Move) (c : PieceColor) (b : Board) (e : Move) : Prop :=
  pseudoLegal ml c b e ∧ outOfCheck ml c (Board_move b e).

(** A move of [c] that, if it is pseudo-legal, leaves the king of [c] in
    check when it is played with [Board::move] on a copy of the board. *)
Definition staysInCheck (ml : list Move) (c : PieceColor) (b : Board)
    (e : Move) : Prop :=
  pseudoLegal ml c b e → attacked ml c (Board_move b e).

(** What the code's own test, [isKingInCheckInternal], answers: false on
    board [b] for the king of [t]. *)
Definition passesCheckTest (ml : list Move) (t : PieceColor) (b : Board) : Prop :=
  isKingInCheckInternal ml t b = Some false.

(** The test answers false on the three positions of a castling move. *)
Definition castlingPassesCheckTests (ml : list Move) (t : PieceColor) (b : Board)
    (m : Move) : Prop :=
  passesCheckTest ml t b
  ∧ passesCheckTest ml t (Board_move b (intermediateOf m))
  ∧ passesCheckTest ml t (Board_move (Board_move b (intermediateOf m)) (finalOf m)).

(** The test of [generateLegalMoves] on a pseudo-legal move. *)
Definition passesKingTest (g : ChessGame) (m : Move) : Prop :=
  if isCastling (board g) m
  then castlingPassesCheckTests (moveList g) (turn g) (board g) m
  else passesCheckTest (moveList g) (turn g) (Board_move (board g) m).

(** The test of the loop of [computeState] answers false for the move. *)
Definition passesEscapeTest (ml : list Move) (c : PieceColor) (b : Board) (e : Move) : Prop :=
  pseudoLegal ml c b e ∧ isKingInCheckInternal ml c (Board_move b e) = Some false.

(** The test of the loop of [computeState] answers true for the move if
    it is pseudo-legal. *)
Definition failsEscapeTest (ml : list Move) (c : PieceColor) (b : Board)
    (e : Move) : Prop :=
  pseudoLegal ml c b e → isKingInCheckInternal ml c (Board_move b e) = Some true.


(** The property as the specification words it: on a validated move that
    is not a promotion, [movePromotion] leaves the board that [move]
    leaves. *)
Definition promotionIgnoredOnPlainMove (m : Move) (p : option Piece)
    (g : ChessGame) : Prop :=
  isValidMove (moveList g) (turn g) m (board g) = Some true →
  isPromotion m g = false →
  ∀ gm gp, move m g = Some (true, gm) → movePromotion m p g = Some (true, gp) →
           board gp = board gm.

(** Every board and every game object of [s] is in [s'], at the same
    address and with the same contents; [s'] may hold more. *)
Definition extends (s s' : Store) : Prop :=
  (∃ kb, boards s' = boards s ++ kb) ∧ (∃ kg, games s' = games s ++ kg).

(** A recursive call keeps what its store held. *)
Definition framed
    (rec : nat → Z → Z → SearchState → option (Z * SearchState)) : Prop :=
  ∀ a alpha beta st v st',
    rec a alpha beta st = Some (v, st') → extends (fst st) (fst st').

(** A recursive call returns on every game object of its store. *)
Definition returning
    (rec : nat → Z → Z → SearchState → option (Z * SearchState)) : Prop :=
  ∀ a alpha beta st, is_Some (load a (fst st)) → is_Some (rec a alpha beta st).

(** The property as the specification words it, for [minimax]: with no
    legal move, the value is the static evaluation of the board. *)
Definition emptyIsLeaf (MAX_DEPTH : nat) (myColor : PieceColor) (depth : nat)
    (game : nat) (alpha beta : Z) (maximizingPlayer : bool)
    (st : SearchState) : Prop :=
  ∀ g, load game (fst st) = Some g →
       generateLegalMoves g = Some [] →
       fst <$> minimax MAX_DEPTH myColor depth game alpha beta
                       maximizingPlayer st
       = Some (evaluateBoard myColor g).

End Vocabulary.

(** ** Positions *)

(** The back rank: the black king behind its pawns, the white rook comes
    to the open rank. *)
Definition backRank : ChessGame :=
  mkGame (place [(0, 6, pc Black King); (1, 5, pc Black Pawn);
                 (1, 6, pc Black Pawn); (1, 7, pc Black Pawn);
                 (7, 0, pc White Rook); (7, 6, pc White King)])
         White Ongoing [].

(** The game after the rook has come to the back rank. *)
Definition backRankMated : ChessGame :=
  Eval vm_compute in
    match move (mkMove 7 0 0 0 White) backRank with
    | Some (_, g') => g'
    | None => backRank
    end.

(** White may castle on either side. *)
Definition castlingReady : ChessGame :=
  mkGame (place [(7, 4, pc White King); (7, 7, pc White Rook);
                 (7, 0, pc White Rook); (0, 4, pc Black King)])
         White Ongoing [].

(** A pawn that advances one row from its home square, with a queen
    requested. *)
Definition pawnAtHome : ChessGame :=
  mkGame (place [(6, 4, pc White Pawn); (7, 4, pc White King);
                 (0, 4, pc Black King)])
         White Ongoing [].

(** White to move has no legal move and is not in check; the game state is
    still [Ongoing], as [move] never computes a stalemate. *)
Definition cornered : ChessGame :=
  mkGame (place [(0, 0, pc White King); (2, 1, pc Black Queen);
                 (7, 7, pc Black King)])
         White Ongoing [].

(** A store with one game object, the game [cornered], and its board. *)
Definition corneredStore : Store :=
  mkStore [board cornered] [mkObj 0 White Ongoing []].

(** A store with one game object, the game [castlingReady], and its
    board. *)
Definition liveStore : Store :=
  mkStore [board castlingReady] [mkObj 0 White Ongoing []].

(** White has one legal move, the advance of its pawn, and none after it. *)
Definition lastPawn : ChessGame :=
  mkGame (place [(0, 0, pc White King); (2, 1, pc Black Queen);
                 (3, 7, pc White Pawn); (1, 7, pc Black Pawn);
                 (7, 5, pc Black King)])
         White Ongoing [].

(** A white pawn one row before the last. *)
Definition pawnBeforeLastRow : ChessGame :=
  mkGame (place [(1, 4, pc White Pawn); (7, 4, pc White King);
                 (7, 0, pc Black King)])
         White Ongoing [].

(** ** More vocabulary: what [isValidMove] has checked on an accepted move *)

Section MoreVocabulary.
Context `{BoardOps} `{PieceOps}.

(** Origin and destination are the same cell. *)
Definition nullMove (m : Move) : Prop :=
  oldRow m = newRow m ∧ oldCol m = newCol m.

(** The destination is empty or holds a piece of the other colour. *)
Definition destinationFree (t : PieceColor) (b : Board) (m : Move) : Prop :=
  ∀ np, getPieceAt b (newRow m) (newCol m) = Some np → pcolor np ≠ t.

(** The conditions of lines 86-104: both cells on the board, a piece of
    the mover at the origin, a shape the piece accepts, no own piece on the
    destination. *)
Definition passesBasicChecks (t : PieceColor) (b : Board) (m : Move)
    (piece : Piece) : Prop :=
  inBoard m
  ∧ getPieceAt b (oldRow m) (oldCol m) = Some piece
  ∧ isMoveValid piece m = true
  ∧ pcolor piece = t
  ∧ destinationFree t b m.

End MoreVocabulary.

(** ** More vocabulary: the order of the generated moves *)

(** The order in which the four nested loops of
    [generateLegalMovesInternal] run through the moves: by origin row, then
    origin column, then destination row, then destination column. *)
Definition moveLt (a b : Move) : Prop :=
  oldRow a < oldRow b
  ∨ (oldRow a = oldRow b
     ∧ (oldCol a < oldCol b
        ∨ (oldCol a = oldCol b
           ∧ (newRow a < newRow b
              ∨ (newRow a = newRow b ∧ newCol a < newCol b))))).

Definition moveLtb (a b : Move) : bool :=
  (oldRow a <? oldRow b)
  || ((oldRow a =? oldRow b)
      && ((oldCol a <? oldCol b)
          || ((oldCol a =? oldCol b)
              && ((newRow a <? newRow b)
                  || ((newRow a =? newRow b) && (newCol a <? newCol b)))))).

(** Each element is below the next one. *)
Fixpoint ascending (l : list Move) : bool :=
  match l with
  | [] => true
  | a :: rest =>
    match rest with
    | [] => true
    | b :: _ => moveLtb a b && ascending rest
    end
  end.

(** The order of the two nested loops of [findKing]: by row, then by
    column. *)
Definition cellLt (a b : Z * Z) : Prop :=
  fst a < fst b ∨ (fst a = fst b ∧ snd a < snd b).

(** ** More vocabulary: the state of a game in play *)

(** The state does not say that the game is over, and if it records a
    check it is the check of the side to move. *)
Definition inPlay `{BoardOps} (g : ChessGame) : Prop :=
  gameState g = Ongoing ∨ gameState g = checkAgainst (turn g).

(** ** players.cpp: the human player *)

Section Human.
Context `{PieceOps}.

(** Whether [char] is a signed type, which the implementation defines. *)
Variable charIsSigned : bool.

(** The value of a [char] in the subtraction [old[0] - 'a']. *)
Definition charValue (c : ascii) : Z :=
  let n := Z.of_nat (nat_of_ascii c) in
  if charIsSigned && (128 <=? n) then n - 256 else n.

(** [s[0]]: at the length of the string the null character is read. *)
Definition charAt0 (s : list ascii) : ascii :=
  match s with
  | [] => zero
  | c :: _ => c
  end.

(** [s[1]]: beyond the length of the string nothing is defined. *)
Definition charAt1 (s : list ascii) : option ascii :=
  match s with
  | [] => None
  | _ :: rest => Some (charAt0 rest)
  end.

(** [Human::getMove()] on the two words that [std::cin >> old >> next]
    has read. *)
Definition Human_getMove (old next : list ascii) : option Move :=
  match charAt1 old, charAt1 next with
  | Some oldRank, Some newRank =>
    let oldColumn := charValue (charAt0 old) - charValue "a"%char in
    let oldRow := 8 - (charValue oldRank - charValue "0"%char) in
    let newColumn := charValue (charAt0 next) - charValue "a"%char in
    let newRow := 8 - (charValue newRank - charValue "0"%char) in
    Some (mkMove4 oldRow oldColumn newRow newColumn)
  | _, _ => None
  end.

End Human.

(** The name of the cell in row [row] and column [col]: the letter of the
    column from [a], then the digit of the rank, which counts the rows from
    the last one. *)
Definition squareName (row col : Z) : list ascii :=
  [ascii_of_nat (Z.to_nat (97 + col)); ascii_of_nat (Z.to_nat (56 - row))].

(** ** More vocabulary: the preferences of the levels, the search *)

Section SearchVocabulary.
Context `{BoardOps} `{PieceOps}.

(** The move takes a piece or gives check: what [Level2] prefers. *)
Definition capturesOrChecks (g : ChessGame) (m : Move) : Prop :=
  isCapture m g = true ∨ isCheck m g = Some true.

(** The move that [Level4::getMove] starts from. *)
Definition zeroMove : Move := mkMove4 0 0 0 0.

(** A recursive call leaves the member [bestMove] as it is. *)
Definition keepsBest
    (rec : nat → Z → Z → SearchState → option (Z * SearchState)) : Prop :=
  ∀ a alpha beta st v st', rec a alpha beta st = Some (v, st') → snd st' = snd st.

(** A recursive call gives a value between the two bounds of the search. *)
Definition boundedValue
    (rec : nat → Z → Z → SearchState → option (Z * SearchState)) : Prop :=
  ∀ a alpha beta st v st',
    rec a alpha beta st = Some (v, st') → -1000000 ≤ v ≤ 1000000.

End SearchVocabulary.

(** ** More positions *)

(** A board without a white king. *)
Definition kingless : ChessGame :=
  mkGame (place [(0, 4, pc Black King); (7, 0, pc White Rook)])
         White Ongoing [].

(** Black to move; the queen goes to the second column and leaves the
    white king, which is not in check, without a move. *)
Definition cornering : ChessGame :=
  mkGame (place [(0, 0, pc White King); (2, 7, pc Black Queen);
                 (7, 7, pc Black King)])
         Black Ongoing [].

(** The game after the queen has gone there. *)
Definition corneringDone : ChessGame :=
  Eval vm_compute in
    match move (mkMove 2 7 2 1 Black) cornering with
    | Some (_, g') => g'
    | None => cornering
    end.

(** White may castle on the king side but for the black rook, which looks
    down the f file. *)
Definition rookOnTheFFile : ChessGame :=
  mkGame (place [(7, 4, pc White King); (7, 7, pc White Rook);
                 (0, 4, pc Black King); (0, 5, pc Black Rook)])
         White Ongoing [].

(** Black to move.  The white king and the black rook stand on one row,
    with a white pawn between them; the black pawn, on its home cell, can
    come beside the white pawn in one advance of two rows. *)
Definition beforeEnPassantPin : ChessGame :=
  mkGame (place [(3, 0, pc White King); (3, 4, mkPiece White Pawn 2);
                 (1, 3, pc Black Pawn); (3, 7, mkPiece Black Rook 1);
                 (0, 7, mkPiece Black King 1)])
         Black Ongoing [].

(** The game after that advance, with the turn changed: White to move. *)
Definition enPassantPin : ChessGame :=
  Eval vm_compute in
    match move (mkMove 1 3 3 3 Black) beforeEnPassantPin with
    | Some (_, g') => changeTurn g'
    | None => beforeEnPassantPin
    end.

(** The back rank with the h pawn one row further: the black king has a
    cell to go to. *)
Definition backRankEscape : ChessGame :=
  mkGame (place [(0, 6, pc Black King); (1, 5, pc Black Pawn);
                 (1, 6, pc Black Pawn); (2, 7, pc Black Pawn);
                 (7, 0, pc White Rook); (7, 6, pc White King)])
         White Ongoing [].

(** The game after the rook has come to the back rank there. *)
Definition backRankChecked : ChessGame :=
  Eval vm_compute in
    match move (mkMove 7 0 0 0 White) backRankEscape with
    | Some (_, g') => g'
    | None => backRankEscape
    end.

(** White to move.  The black king on the h file has no cell to go to
    once the g pawn, still on its home cell, has advanced two rows and
    gives check; the black pawn on the h file then stands beside it. *)
Definition beforeDoubleStepCheck : ChessGame :=
  mkGame (place [(6, 6, pc White Pawn); (4, 5, mkPiece White King 3);
                 (2, 0, mkPiece White Rook 2); (3, 7, mkPiece Black King 4);
                 (4, 7, mkPiece Black Pawn 2)])
         White Ongoing [].

(** White to move.  The b pawn is held up by the black pawn before it; the
    a pawn stands on its home cell. *)
Definition twoPawns : ChessGame :=
  mkGame (place [(4, 1, mkPiece White Pawn 1); (3, 1, mkPiece Black Pawn 2);
                 (6, 0, pc White Pawn); (7, 4, pc White King);
                 (0, 4, pc Black King)])
         White Ongoing [].

(** A store with one game object, the game [twoPawns], and its board. *)
Definition twoPawnsStore : Store :=
  mkStore [board twoPawns] [mkObj 0 White Ongoing []].

(** The game after the a pawn has advanced two rows; the turn is as it
    was. *)
Definition ownPawnBeside : ChessGame :=
  Eval vm_compute in
    match move (mkMove 6 0 4 0 White) twoPawns with
    | Some (_, g') => g'
    | None => twoPawns
    end.

(** White to move, its king without a move.  The pawn can take the black
    pawn or advance, and the advance gives check. *)
Definition checkOrCapture : ChessGame :=
  mkGame (place [(0, 0, pc White King); (2, 1, pc Black Queen);
                 (3, 7, mkPiece White Pawn 1); (2, 6, pc Black Pawn);
                 (1, 6, pc Black King)])
         White Ongoing [].

(** The same with the black king far away: neither move gives check. *)
Definition captureOrAdvance : ChessGame :=
  mkGame (place [(0, 0, pc White King); (2, 1, pc Black Queen);
                 (3, 7, mkPiece White Pawn 1); (2, 6, pc Black Pawn);
                 (7, 5, pc Black King)])
         White Ongoing [].

(** The pawn can advance one row or two; on the row of the queen it can be
    taken. *)
Definition safeOrNot : ChessGame :=
  mkGame (place [(0, 0, pc White King); (2, 1, pc Black Queen);
                 (4, 7, pc White Pawn); (7, 5, pc Black King)])
         White Ongoing [].

(** ** The usual shapes are aligned *)

Lemma Std_aligned : @AlignedShapes Std.piece_ops.
Proof.
  intros p m Hv Hs. unfold aligned.
  cbn in Hv. unfold Std.shape in Hv.
  unfold isSliding, isType in Hs.
  destruct (ptype p); cbn in Hs; try discriminate; destruct (pcolor p); lia.
Qed.

(** ** Loops that filter, and arithmetic of steps *)

Lemma filterLoop_filter {A} (test : A → option bool) (xs out : list A) :
  filterLoop test xs = Some out →
  ∀ x, x ∈ out ↔ x ∈ xs ∧ test x = Some true.
Proof.
  revert out. induction xs as [|y ys IH]; intros out Hf x; simpl in Hf.
  - inversion Hf; subst. split; [intros Hx | intros [Hx _]]; inversion Hx.
  - destruct (test y) as [keep|] eqn:Hy; [|discriminate].
    destruct (filterLoop test ys) as [out'|] eqn:Hys; [|discriminate].
    inversion Hf; subst; clear Hf.
    specialize (IH out' eq_refl x).
    destruct keep; rewrite ?elem_of_cons, IH; split.
    + intros [->|[? ?]]; auto.
    + intros [[->|?] ?]; auto.
    + intros [? ?]; auto.
    + intros [[->|?] ?]; [congruence | auto].
Qed.

Lemma filterLoop_total {A} (test : A → option bool) (xs : list A) :
  (∀ x, x ∈ xs → is_Some (test x)) → is_Some (filterLoop test xs).
Proof.
  induction xs as [|y ys IH]; intros Hall; simpl; [eauto|].
  destruct (Hall y) as [k ->]; [left|].
  destruct IH as [out ->]; [|eauto].
  intros x Hx. apply Hall. now right.
Qed.

Lemma filterLoop_defined {A} (test : A → option bool) (xs out : list A) :
  filterLoop test xs = Some out → ∀ x, x ∈ xs → is_Some (test x).
Proof.
  revert out. induction xs as [|y ys IH]; intros out Hf x Hx; simpl in Hf.
  - inversion Hx.
  - destruct (test y) as [keep|] eqn:Hy; [|discriminate].
    destruct (filterLoop test ys) as [out'|] eqn:Hys; [|discriminate].
    apply elem_of_cons in Hx as [->|Hx]; [rewrite Hy; eauto|].
    eapply IH; eauto.
Qed.

Lemma filterLoop_sublist {A} (test : A → option bool) (xs out : list A) :
  filterLoop test xs = Some out → out ⊆ xs.
Proof.
  intros Hf x Hx. now apply (filterLoop_filter _ _ _ Hf) in Hx as [? _].
Qed.

Lemma withinBoard_spec (r c : Z) :
  withinBoard r c = true ↔ 0 ≤ r < 8 ∧ 0 ≤ c < 8.
Proof. unfold withinBoard. lia. Qed.

Lemma unitStep_sgn (d : Z) : unitStep d (Z.abs d) = Z.sgn d.
Proof.
  unfold unitStep.
  destruct (Z.eqb_spec (Z.abs d) 0) as [E|E]; [lia|].
  destruct (Z.lt_trichotomy d 0) as [Hd|[Hd|Hd]]; [| lia |].
  - rewrite (Z.abs_neq d) by lia. rewrite Z.quot_opp_r by lia.
    rewrite Z.quot_same by lia. lia.
  - rewrite (Z.abs_eq d) by lia. rewrite Z.quot_same by lia. lia.
Qed.

(** ** The scan of the intermediate cells *)

Section Scan.
Context `{BoardOps} `{PieceOps}.

Lemma stepRow_sgn m : stepRow m = Z.sgn (newRow m - oldRow m).
Proof. apply unitStep_sgn. Qed.

Lemma stepCol_sgn m : stepCol m = Z.sgn (newCol m - oldCol m).
Proof. apply unitStep_sgn. Qed.

Lemma cellOn_between m k :
  inBoard m → aligned m → 0 < k < distance m →
  let c := cellOn m k in
  withinBoard (fst c) (snd c) = true
  ∧ (fst c ≠ newRow m ∨ snd c ≠ newCol m)
  ∧ (fst c ≠ oldRow m ∨ snd c ≠ oldCol m).
Proof.
  intros [Ho Hn] Ha Hk. apply withinBoard_spec in Ho, Hn.
  unfold aligned in Ha. unfold distance in Hk. unfold cellOn. cbn.
  rewrite withinBoard_spec.
  destruct (Z.sgn_spec (newRow m - oldRow m)) as [[? ->]|[[? ->]|[? ->]]];
    destruct (Z.sgn_spec (newCol m - oldCol m)) as [[? ->]|[[? ->]|[? ->]]];
    lia.
Qed.

Lemma cellOn_distance m :
  aligned m → cellOn m (distance m) = (newRow m, newCol m).
Proof.
  intros Ha. unfold aligned in Ha. unfold cellOn, distance. f_equal.
  - destruct (Z.sgn_spec (newRow m - oldRow m)) as [[? ->]|[[? ->]|[? ->]]]; lia.
  - destruct (Z.sgn_spec (newCol m - oldCol m)) as [[? ->]|[[? ->]|[? ->]]]; lia.
Qed.

Lemma cellOn_succ m k :
  cellOn m (k + 1) = (fst (cellOn m k) + stepRow m, snd (cellOn m k) + stepCol m).
Proof. rewrite stepRow_sgn, stepCol_sgn. unfold cellOn. cbn. f_equal; lia. Qed.

(** From the [k]-th cell on, the loop behaves as [scanModel] on the cells
    that remain, whatever fuel is left beyond their number. *)
Lemma scanLoop_from (b : Board) m :
  inBoard m → aligned m →
  ∀ (len : nat) (k : nat) (fuel : nat) read steps,
    (0 < k)%nat → Z.of_nat k + Z.of_nat len = distance m →
    (len < fuel)%nat →
    scanLoop fuel b m (fst (cellOn m (Z.of_nat k))) (snd (cellOn m (Z.of_nat k)))
             read steps
    = Some (scanModel b (map (fun t => cellOn m (Z.of_nat t)) (seq k len))
                      read steps).
Proof.
  intros Hb Ha len. induction len as [|len IH]; intros k fuel read steps Hk Hd Hf.
  - destruct fuel as [|fuel]; [lia|].
    replace (Z.of_nat k) with (distance m) by lia.
    rewrite (cellOn_distance m Ha). cbn. now rewrite !Z.eqb_refl.
  - destruct fuel as [|fuel]; [lia|].
    destruct (cellOn_between m (Z.of_nat k) Hb Ha) as (Hw & Hne & Hno); [lia|].
    cbn [scanLoop seq map scanModel].
    set (c := cellOn m (Z.of_nat k)) in *.
    replace (negb (fst c =? newRow m) || negb (snd c =? newCol m)) with true
      by (symmetry; destruct (Z.eqb_spec (fst c) (newRow m)),
            (Z.eqb_spec (snd c) (newCol m)); cbn; try reflexivity; lia).
    replace ((fst c =? oldRow m) && (snd c =? oldCol m)) with false
      by (symmetry; destruct (Z.eqb_spec (fst c) (oldRow m)),
            (Z.eqb_spec (snd c) (oldCol m)); cbn; try reflexivity; lia).
    rewrite Hw.
    destruct (getPieceAt b (fst c) (snd c)) eqn:Hp; [reflexivity|].
    specialize (IH (S k) fuel (read ++ [(fst c, snd c)]) (S steps)).
    replace (fst c, snd c) with c in * by now destruct c.
    rewrite <- IH by lia.
    replace (Z.of_nat (S k)) with (Z.of_nat k + 1) by lia.
    now rewrite cellOn_succ.
Qed.

Lemma distance_bounds m : inBoard m → 0 ≤ distance m ≤ 7.
Proof.
  intros [Ho Hn]. apply withinBoard_spec in Ho, Hn. unfold distance. lia.
Qed.

Lemma distance_zero m :
  distance m = 0 ↔ oldRow m = newRow m ∧ oldCol m = newCol m.
Proof. unfold distance. lia. Qed.

(** The loop from the origin, for any fuel beyond the distance. *)
Lemma scanLoop_origin (b : Board) m (fuel : nat) :
  inBoard m → aligned m → (Z.to_nat (distance m) < fuel)%nat →
  scanLoop fuel b m (oldRow m) (oldCol m) [] 0
  = Some (scanModel b (betweenCells m) []
                    (if distance m =? 0 then 0%nat else 1%nat)).
Proof.
  intros Hb Ha Hf. pose proof (distance_bounds m Hb) as Hd.
  destruct fuel as [|fuel]; [lia|].
  destruct (Z.eqb_spec (distance m) 0) as [E|E].
  - apply distance_zero in E as [E1 E2]. simpl.
    rewrite E1, E2, !Z.eqb_refl. cbn. unfold betweenCells.
    replace (distance m) with 0 by (symmetry; apply distance_zero; auto).
    reflexivity.
  - cbn [scanLoop].
    replace (negb (oldRow m =? newRow m) || negb (oldCol m =? newCol m)) with true.
    2:{ symmetry. destruct (Z.eqb_spec (oldRow m) (newRow m)),
          (Z.eqb_spec (oldCol m) (newCol m)); cbn; try reflexivity.
        exfalso. apply E, distance_zero. auto. }
    rewrite !Z.eqb_refl. cbn [andb].
    pose proof (scanLoop_from b m Hb Ha (Z.to_nat (distance m) - 1) 1 fuel [] 1%nat)
      as Hs.
    assert (H0c : cellOn m 0 = (oldRow m, oldCol m))
      by (unfold cellOn; f_equal; lia).
    change (Z.of_nat 1) with (0 + 1) in Hs.
    rewrite cellOn_succ, H0c in Hs. cbn [fst snd] in Hs.
    apply Hs; lia.
Qed.

Lemma scanModel_read b cs : ∀ read steps,
  ∃ done, scanRead (scanModel b cs read steps) = read ++ done
          ∧ done `prefix_of` cs
          ∧ scanSteps (scanModel b cs read steps) = (steps + length done)%nat
          ∧ (scanClear (scanModel b cs read steps) = true → done = cs)
          ∧ (scanClear (scanModel b cs read steps) = false →
             ∃ c, list.last done = Some c ∧ is_Some (getPieceAt b (fst c) (snd c))).
Proof.
  induction cs as [|c cs IH]; intros read steps; simpl.
  - exists []. rewrite app_nil_r. cbn.
    repeat split; auto; try lia; try discriminate.
  - destruct (getPieceAt b (fst c) (snd c)) eqn:Hp.
    + exists [c]. cbn. repeat split; auto; try lia; try discriminate.
      * now exists cs.
      * intros _. exists c. rewrite Hp. eauto.
    + destruct (IH (read ++ [c]) (S steps)) as (done & Hr & Hpre & Hs & Hc & Hb).
      exists (c :: done). rewrite Hr, <- app_assoc. cbn.
      repeat split; auto; try lia.
      * now apply prefix_cons.
      * intros Hcl. now rewrite (Hc Hcl).
      * intros Hcl. destruct (Hb Hcl) as (c' & Hl & Ho). exists c'. split; auto.
        destruct done; [discriminate | exact Hl].
Qed.

Lemma scanModel_clear b cs : ∀ read steps,
  scanClear (scanModel b cs read steps) = true ↔ ∀ c, c ∈ cs → emptyAt b c.
Proof.
  induction cs as [|c cs IH]; intros read steps; simpl.
  - split; auto. intros _ c Hc. inversion Hc.
  - destruct (getPieceAt b (fst c) (snd c)) eqn:Hp; cbn.
    + split; [discriminate|]. intros Hall.
      specialize (Hall c (list_elem_of_here _ _)). unfold emptyAt in Hall. congruence.
    + rewrite IH. split.
      * intros Hall c' Hc'. apply elem_of_cons in Hc' as [->|Hc']; auto.
      * intros Hall c' Hc'. apply Hall. now right.
Qed.

(** Beyond the eighth cell from the origin the board has ended: once the
    fuel exceeds the number of cells that are left, more fuel changes
    nothing, aligned move or not. *)
Lemma scanLoop_fuel_from (b : Board) m :
  inBoard m → distance m ≠ 0 →
  ∀ (n k f1 f2 : nat) read steps,
    (0 < k)%nat → (k + n = 8)%nat → (n < f1)%nat → (n < f2)%nat →
    scanLoop f1 b m (fst (cellOn m (Z.of_nat k))) (snd (cellOn m (Z.of_nat k)))
             read steps
    = scanLoop f2 b m (fst (cellOn m (Z.of_nat k))) (snd (cellOn m (Z.of_nat k)))
               read steps.
Proof.
  intros [Ho Hn] Hd n. apply withinBoard_spec in Ho, Hn.
  induction n as [|n IH]; intros k f1 f2 read steps Hk Hkn Hf1 Hf2;
    (destruct f1 as [|f1]; [lia|]); (destruct f2 as [|f2]; [lia|]);
    cbn [scanLoop]; set (c := cellOn m (Z.of_nat k)).
  - assert (Hoff : withinBoard (fst c) (snd c) = false
                   ∧ (fst c ≠ newRow m ∨ snd c ≠ newCol m)
                   ∧ (fst c ≠ oldRow m ∨ snd c ≠ oldCol m)).
    { subst c. unfold cellOn, distance in *. cbn [fst snd].
      rewrite <- not_true_iff_false, withinBoard_spec.
      destruct (Z.sgn_spec (newRow m - oldRow m)) as [[? ->]|[[? ->]|[? ->]]];
        destruct (Z.sgn_spec (newCol m - oldCol m)) as [[? ->]|[[? ->]|[? ->]]];
        lia. }
    destruct Hoff as (Hw & Hne & Hno).
    replace (negb (fst c =? newRow m) || negb (snd c =? newCol m)) with true
      by (symmetry; destruct (Z.eqb_spec (fst c) (newRow m)),
            (Z.eqb_spec (snd c) (newCol m)); cbn; try reflexivity; lia).
    replace ((fst c =? oldRow m) && (snd c =? oldCol m)) with false
      by (symmetry; destruct (Z.eqb_spec (fst c) (oldRow m)),
            (Z.eqb_spec (snd c) (oldCol m)); cbn; try reflexivity; lia).
    now rewrite Hw.
  - assert (Hno : fst c ≠ oldRow m ∨ snd c ≠ oldCol m).
    { subst c. unfold cellOn, distance in *. cbn [fst snd].
      destruct (Z.sgn_spec (newRow m - oldRow m)) as [[? ->]|[[? ->]|[? ->]]];
        destruct (Z.sgn_spec (newCol m - oldCol m)) as [[? ->]|[[? ->]|[? ->]]];
        lia. }
    destruct (negb (fst c =? newRow m) || negb (snd c =? newCol m));
      [|reflexivity].
    replace ((fst c =? oldRow m) && (snd c =? oldCol m)) with false
      by (symmetry; destruct (Z.eqb_spec (fst c) (oldRow m)),
            (Z.eqb_spec (snd c) (oldCol m)); cbn; try reflexivity; lia).
    destruct (withinBoard (fst c) (snd c)); [|reflexivity].
    destruct (getPieceAt b (fst c) (snd c)); [reflexivity|].
    specialize (IH (S k) f1 f2 (read ++ [(fst c, snd c)]) (S steps)).
    replace (Z.of_nat (S k)) with (Z.of_nat k + 1) in IH by lia.
    rewrite cellOn_succ in IH. cbn [fst snd] in IH. apply IH; lia.
Qed.

(** The nine tests of [scanFuel] are enough for every in-board move:
    where [scan] has no value, the loop has left the board. *)
Lemma scanLoop_fuel (b : Board) m (fuel : nat) :
  inBoard m → (9 ≤ fuel)%nat →
  scanLoop fuel b m (oldRow m) (oldCol m) [] 0 = scan b m.
Proof.
  intros Hb Hf. unfold scan, scanFuel.
  do 9 (destruct fuel as [|fuel]; [lia|]). cbn [scanLoop].
  destruct (negb (oldRow m =? newRow m) || negb (oldCol m =? newCol m)) eqn:Hne;
    [|reflexivity].
  rewrite !Z.eqb_refl. cbn [andb].
  assert (Hd : distance m ≠ 0).
  { intros E. apply distance_zero in E as [E1 E2].
    rewrite E1, E2, !Z.eqb_refl in Hne. discriminate. }
  assert (H0c : cellOn m 0 = (oldRow m, oldCol m))
    by (unfold cellOn; f_equal; lia).
  pose proof (scanLoop_fuel_from b m Hb Hd 7 1 (S (S (S (S (S (S (S (S fuel))))))))
                8 [] 1%nat) as Hs.
  change (Z.of_nat 1) with (0 + 1) in Hs.
  rewrite cellOn_succ, H0c in Hs. cbn [fst snd] in Hs.
  apply Hs; lia.
Qed.

Lemma length_betweenCells m : length (betweenCells m) = (Z.to_nat (distance m) - 1)%nat.
Proof. unfold betweenCells. now rewrite length_map, length_seq. Qed.

End Scan.

(** ** [isValidMove] is defined on aligned moves *)

Section Validity.
Context `{BoardOps} `{PieceOps}.

(** The castling loop walks from the king to the rook column and tells
    whether the cells it passes, the king's own apart, are empty. *)
Lemma betweenLoop_spec (b : Board) m (rookCol dx cs : Z) :
  cs = Z.quot (newCol m - oldCol m) dx → cs ≠ 0 →
  0 ≤ oldRow m < 8 →
  ∀ (len fuel : nat) (j : Z),
    (len < fuel)%nat →
    j + cs * Z.of_nat len = rookCol →
    (∀ t, 0 ≤ t < Z.of_nat len → 0 ≤ j + cs * t < 8) →
    ∃ r, betweenLoop fuel b m rookCol dx j = Some r
         ∧ (r = true ↔
            ∀ t, 0 ≤ t < Z.of_nat len → j + cs * t ≠ oldCol m →
                 getPieceAt b (oldRow m) (j + cs * t) = None).
Proof.
  intros Hcs Hne Hrow len.
  induction len as [|len IH]; intros fuel j Hf Hend Hin.
  - destruct fuel as [|fuel]; [lia|]. cbn [betweenLoop].
    replace (j =? rookCol) with true by (symmetry; lia). cbn.
    eexists; split; [reflexivity|]. split; auto. intros _ t Ht. lia.
  - destruct fuel as [|fuel]; [lia|]. cbn [betweenLoop].
    replace (j =? rookCol) with false by (symmetry; nia). cbn [negb andb].
    rewrite <- Hcs.
    destruct (IH fuel (j + cs)) as (r & Hr & Hspec); [lia | nia | |].
    { intros t Ht. specialize (Hin (t + 1)). nia. }
    assert (Hshift : (∀ t, 0 ≤ t < Z.of_nat len → j + cs + cs * t ≠ oldCol m →
                       getPieceAt b (oldRow m) (j + cs + cs * t) = None)
                     ↔ (∀ t, 1 ≤ t < Z.of_nat (S len) → j + cs * t ≠ oldCol m →
                       getPieceAt b (oldRow m) (j + cs * t) = None)).
    { split; intros Hall t Ht Hn.
      - specialize (Hall (t - 1)).
        replace (j + cs + cs * (t - 1)) with (j + cs * t) in Hall by lia.
        apply Hall; [lia | auto].
      - specialize (Hall (t + 1)).
        replace (j + cs * (t + 1)) with (j + cs + cs * t) in Hall by lia.
        apply Hall; [lia | auto]. }
    destruct (Z.eqb_spec j (oldCol m)) as [Ej|Ej]; cbn [negb].
    + exists r. split; [exact Hr|]. rewrite Hspec, Hshift. split.
      * intros Hall t Ht Hn. apply Hall; [|auto].
        destruct (Z.eq_dec t 0) as [->|]; [|lia]. exfalso. apply Hn. lia.
      * intros Hall t Ht Hn. apply Hall; [lia | auto].
    + specialize (Hin 0) as Hj. rewrite Z.mul_0_r, Z.add_0_r in Hj.
      replace (withinBoard (oldRow m) j) with true
        by (symmetry; apply withinBoard_spec; lia).
      destruct (getPieceAt b (oldRow m) j) eqn:Hp.
      * exists false. split; [reflexivity|]. split; [discriminate|].
        intros Hall. specialize (Hall 0).
        rewrite Z.mul_0_r, Z.add_0_r in Hall. rewrite Hall in Hp; [discriminate|lia|auto].
      * exists r. split; [exact Hr|]. rewrite Hspec, Hshift. split.
        -- intros Hall t Ht Hn. destruct (Z.eq_dec t 0) as [->|].
           ++ now rewrite Z.mul_0_r, Z.add_0_r.
           ++ apply Hall; [lia | auto].
        -- intros Hall t Ht Hn. apply Hall; [lia | auto].
Qed.

Lemma rookCorner_col (t : PieceColor) (direction : bool) :
  snd (rookCorner t direction) = if direction then 0 else 7.
Proof. now destruct t, direction. Qed.

Lemma rookCorner_row (t : PieceColor) (direction : bool) :
  fst (rookCorner t direction) = match t with White => 7 | Black => 0 end.
Proof. now destruct t, direction. Qed.

Lemma betweenLoop_castling (t : PieceColor) (b : Board) m :
  inBoard m → Z.abs (newCol m - oldCol m) = 2 →
  ∃ r, betweenLoop scanFuel b m
                   (snd (rookCorner t ((newCol m - oldCol m) <? 0)))
                   (Z.abs (newCol m - oldCol m)) (oldCol m) = Some r
       ∧ (r = true ↔ castlingPathEmpty t b m).
Proof.
  intros [Ho Hn] Hdx. apply withinBoard_spec in Ho, Hn.
  unfold castlingPathEmpty. rewrite rookCorner_col, Hdx.
  destruct (Z.ltb_spec (newCol m - oldCol m) 0) as [Hd|Hd].
  - assert (Hq : Z.quot (newCol m - oldCol m) 2 = -1)
      by (replace (newCol m - oldCol m) with (-2) by lia; reflexivity).
    destruct (betweenLoop_spec b m 0 2 (-1) (eq_sym Hq) ltac:(lia) ltac:(lia)
                (Z.to_nat (oldCol m)) scanFuel (oldCol m))
      as (r & Hr & Hspec); [unfold scanFuel; lia | lia | lia |].
    exists r. split; [exact Hr|]. rewrite Hspec. split.
    + intros Hall c Hc. specialize (Hall (oldCol m - c)).
      replace (oldCol m + -1 * (oldCol m - c)) with c in Hall by lia.
      apply Hall; lia.
    + intros Hall k Hk Hne. apply Hall. lia.
  - assert (Hq : Z.quot (newCol m - oldCol m) 2 = 1)
      by (replace (newCol m - oldCol m) with 2 by lia; reflexivity).
    destruct (betweenLoop_spec b m 7 2 1 (eq_sym Hq) ltac:(lia) ltac:(lia)
                (Z.to_nat (7 - oldCol m)) scanFuel (oldCol m))
      as (r & Hr & Hspec); [unfold scanFuel; lia | lia | lia |].
    exists r. split; [exact Hr|]. rewrite Hspec. split.
    + intros Hall c Hc. specialize (Hall (c - oldCol m)).
      replace (oldCol m + 1 * (c - oldCol m)) with c in Hall by lia.
      apply Hall; lia.
    + intros Hall k Hk Hne. apply Hall. lia.
Qed.

Lemma scan_defined (b : Board) m :
  inBoard m → aligned m →
  scan b m = Some (scanModel b (betweenCells m) []
                             (if distance m =? 0 then 0%nat else 1%nat)).
Proof.
  intros Hb Ha. apply scanLoop_origin; auto.
  pose proof (distance_bounds m Hb). unfold scanFuel. lia.
Qed.

Lemma kingBlock_defined (t : PieceColor) (b : Board) m piece :
  inBoard m →
  is_Some (kingBlock t b m piece (Z.abs (newCol m - oldCol m))).
Proof.
  intros Hb. unfold kingBlock.
  destruct (isType King piece); cbn [andb]; [|eauto].
  destruct (Z.eqb_spec (Z.abs (newCol m - oldCol m)) 2) as [E|E]; [|eauto].
  rewrite rookCorner_row.
  destruct (getPieceAt b _ (snd _)) as [rook|]; [|eauto].
  destruct (negb (isType Rook rook)); [eauto|].
  destruct (_ || _); [eauto|].
  destruct (betweenLoop_castling t b m Hb E) as (r & Hr & _).
  rewrite Hr. destruct r; eauto.
Qed.

(** [isValidMove] has a value as soon as the shape predicate lets only
    aligned moves of the piece at the origin reach the scan. *)
Lemma isValidMove_defined (ml : list Move) (t : PieceColor) m (b : Board) :
  (∀ piece, getPieceAt b (oldRow m) (oldCol m) = Some piece →
            isMoveValid piece m = true → isSliding piece = true → aligned m) →
  is_Some (isValidMove ml t m b).
Proof.
  intros Hal. unfold isValidMove.
  destruct (withinBoard (oldRow m) (oldCol m)) eqn:Ho; cbn [negb orb]; [|eauto].
  destruct (withinBoard (newRow m) (newCol m)) eqn:Hn; cbn [negb orb]; [|eauto].
  destruct (getPieceAt b (oldRow m) (oldCol m)) as [piece|] eqn:Hp; [|eauto].
  destruct (isMoveValid piece m) eqn:Hv; cbn [negb orb]; [|eauto].
  destruct (negb (color_eqb (pcolor piece) t)); [eauto|].
  destruct (match getPieceAt b (newRow m) (newCol m) with
            | Some np => color_eqb (pcolor piece) (pcolor np)
            | None => false end); [eauto|].
  assert (Hb : inBoard m) by (split; auto).
  assert (Hsl : is_Some (slidingBlock b m piece (Z.abs (newCol m - oldCol m)))).
  { unfold slidingBlock. destruct (isSliding piece) eqn:Hs; [|eauto].
    rewrite (scan_defined b m Hb (Hal piece eq_refl Hv Hs)).
    destruct (negb _); [eauto|]. destruct (_ && _); eauto. }
  destruct Hsl as [f1 ->].
  destruct f1; [eauto|].
  destruct (pawnBlock _ _ _ _ _ _ _); [eauto|].
  destruct (kingBlock_defined t b m piece Hb) as [f3 ->].
  destruct f3; eauto.
Qed.

Lemma isValidMove_aligned (ml : list Move) (t : PieceColor) m (b : Board) :
  aligned m → is_Some (isValidMove ml t m b).
Proof. intros Ha. apply isValidMove_defined. auto. Qed.

Lemma isValidMove_total `{!AlignedShapes} (ml : list Move) (t : PieceColor)
    m (b : Board) :
  is_Some (isValidMove ml t m b).
Proof. apply isValidMove_defined. intros piece _. apply shape_aligned. Qed.

(** C10.  On an in-board move whose displacement is straight or exactly
    diagonal, the scan of [isValidMove] stops: the loop body runs at most
    seven times (any fuel from 8 on gives the same result), it reads the
    cells strictly between origin and destination, in order from the
    origin, up to the first occupied one, where it returns false; when it
    leaves the loop it has read exactly all of them and all are empty.
    And [isValidMove] has a value on every such move. *)
Theorem scan_terminates_on_aligned_moves (b : Board) (m : Move) :
  inBoard m → aligned m →
  ∃ r,
    scan b m = Some r
    ∧ (∀ fuel, (8 ≤ fuel)%nat →
               scanLoop fuel b m (oldRow m) (oldCol m) [] 0 = Some r)
    ∧ (scanSteps r ≤ 7)%nat
    ∧ scanRead r `prefix_of` betweenCells m
    ∧ (scanClear r = true → scanRead r = betweenCells m)
    ∧ (scanClear r = true ↔ ∀ c, c ∈ betweenCells m → emptyAt b c)
    ∧ (scanClear r = false →
       ∃ c, list.last (scanRead r) = Some c
            ∧ is_Some (getPieceAt b (fst c) (snd c)))
    ∧ ∀ ml t, is_Some (isValidMove ml t m b).
Proof.
  intros Hb Ha. pose proof (distance_bounds m Hb) as Hd.
  eexists. split; [apply scan_defined; auto|].
  split; [intros fuel Hf; apply scanLoop_origin; auto; lia|].
  destruct (scanModel_read b (betweenCells m) []
              (if distance m =? 0 then 0%nat else 1%nat))
    as (done & Hr & Hpre & Hs & Hc & Hbl).
  cbn [app] in Hr.
  split.
  { rewrite Hs. apply prefix_length in Hpre.
    rewrite length_betweenCells in Hpre.
    destruct (Z.eqb_spec (distance m) 0); lia. }
  split; [now rewrite Hr|].
  split; [intros Hcl; rewrite Hr; auto|].
  split; [apply scanModel_clear|].
  split; [intros Hcl; rewrite Hr; auto|].
  intros ml t. now apply isValidMove_aligned.
Qed.

End Validity.

(** A rook move along a row with a piece in the way is in-board and
    aligned. *)
Lemma scan_terminates_on_aligned_moves_witness :
  let b : Board := Std.place [(7, 0, Std.pc White Rook); (7, 3, Std.pc White Knight)] in
  let m := mkMove 7 0 7 6 White in
  ∃ r, scan b m = Some r ∧ (scanSteps r ≤ 7)%nat
       ∧ scanRead r `prefix_of` betweenCells m.
Proof.
  intros b m.
  destruct (scan_terminates_on_aligned_moves b m) as (r & H1 & _ & H3 & H4 & _).
  - split; reflexivity.
  - left. reflexivity.
  - exists r. auto.
Defined.

(** With a shape predicate that accepts a move off the lines and the
    diagonals, the scan leaves the board: [isValidMove] has no value. *)
Example scan_off_line_undefined :
  let anyShape : PieceOps :=
    {| isMoveValid := fun _ _ => true; getLetter := Std.letter; zeroColor := White |} in
  let b := Std.place [(0, 0, Std.pc White Rook)] in
  @isValidMove Std.board_ops anyShape [] White (mkMove 0 0 1 2 White) b = None.
Proof. reflexivity. Qed.

(** ** Pseudo-legal moves and check *)

Lemma coords_spec (x : Z) : x ∈ coords ↔ 0 ≤ x < 8.
Proof.
  unfold coords. rewrite !elem_of_cons, elem_of_nil. lia.
Qed.

Lemma candidateMoves_spec (c : PieceColor) (m : Move) :
  m ∈ candidateMoves c ↔ color m = c ∧ inBoard m.
Proof.
  unfold candidateMoves, inBoard. rewrite !withinBoard_spec.
  rewrite <- !coords_spec, !list_elem_of_In, in_flat_map.
  setoid_rewrite in_flat_map. setoid_rewrite in_flat_map.
  setoid_rewrite in_map_iff. split.
  - intros (i & Hi & j & Hj & k & Hk & l & <- & Hl). cbn. tauto.
  - intros (Hc & (Hi & Hj) & Hk & Hl). destruct m as [i j k l c']. cbn in *.
    subst c'. exists i. split; [auto|]. exists j. split; [auto|].
    exists k. split; [auto|]. exists l. auto.
Qed.

Lemma cells_spec (c : Z * Z) :
  c ∈ cells ↔ withinBoard (fst c) (snd c) = true.
Proof.
  unfold cells. rewrite withinBoard_spec, <- !coords_spec.
  rewrite !list_elem_of_In, in_flat_map. setoid_rewrite in_map_iff. split.
  - intros (i & Hi & j & <- & Hj). cbn. auto.
  - intros [Hi Hj]. destruct c as [i j]. cbn in *. exists i. split; [auto|].
    exists j. auto.
Qed.

Section Check.
Context `{BoardOps} `{PieceOps}.

Lemma isValidMove_inBoard (ml : list Move) (t : PieceColor) m (b : Board) :
  isValidMove ml t m b = Some true → inBoard m.
Proof.
  unfold isValidMove, inBoard.
  destruct (withinBoard (oldRow m) (oldCol m)); cbn; [|discriminate].
  destruct (withinBoard (newRow m) (newCol m)); cbn; [auto|discriminate].
Qed.

Lemma generateLegalMovesInternal_spec (ml : list Move) (c : PieceColor)
    (b : Board) (ms : list Move) :
  generateLegalMovesInternal ml c b = Some ms →
  ∀ m, m ∈ ms ↔ pseudoLegal ml c b m.
Proof.
  intros Hg m. unfold generateLegalMovesInternal in Hg.
  rewrite (filterLoop_filter _ _ _ Hg m), candidateMoves_spec.
  unfold pseudoLegal. split; [tauto|].
  intros [Hc Hv]. pose proof (isValidMove_inBoard _ _ _ _ Hv). tauto.
Qed.

Lemma generateLegalMovesInternal_total `{!AlignedShapes} (ml : list Move)
    (c : PieceColor) (b : Board) :
  is_Some (generateLegalMovesInternal ml c b).
Proof.
  apply filterLoop_total. intros m _. apply isValidMove_total.
Qed.

Lemma isKingInCheckInternal_total `{!AlignedShapes} (ml : list Move)
    (c : PieceColor) (b : Board) :
  is_Some (isKingInCheckInternal ml c b).
Proof.
  unfold isKingInCheckInternal.
  destruct (generateLegalMovesInternal_total ml (other c) b) as [ms ->]. eauto.
Qed.

Lemma isKingInCheckInternal_spec (ml : list Move) (c : PieceColor) (b : Board)
    (r : bool) :
  isKingInCheckInternal ml c b = Some r →
  (r = true ↔ ∃ m, pseudoLegal ml (other c) b m
                   ∧ (newRow m, newCol m) = findKing c b).
Proof.
  unfold isKingInCheckInternal.
  destruct (generateLegalMovesInternal ml (other c) b) as [ms|] eqn:Hg;
    [|discriminate].
  intros [= <-]. rewrite existsb_exists. unfold isCheckInternal.
  split.
  - intros (m & Hin & Hm). exists m. split.
    + apply (generateLegalMovesInternal_spec _ _ _ _ Hg). now apply list_elem_of_In.
    + destruct (findKing c b). cbn in Hm. f_equal; lia.
  - intros (m & Hp & Hk). exists m. split.
    + apply list_elem_of_In. now apply (generateLegalMovesInternal_spec _ _ _ _ Hg).
    + rewrite <- Hk. cbn. lia.
Qed.

Lemma color_eqb_eq (a b : PieceColor) : color_eqb a b = true ↔ a = b.
Proof. destruct a, b; cbn; split; congruence. Qed.

Lemma findKing_spec (c : PieceColor) (b : Board) :
  (withinBoard (fst (findKing c b)) (snd (findKing c b)) = true
   ∧ kingAt c b (findKing c b))
  ∨ (findKing c b = (-1, -1)
     ∧ ∀ cell, withinBoard (fst cell) (snd cell) = true → ¬ kingAt c b cell).
Proof.
  unfold findKing.
  destruct (find _ cells) as [cell|] eqn:Hf.
  - left. apply find_some in Hf as [Hin Hk].
    apply list_elem_of_In, cells_spec in Hin. split; [auto|].
    unfold kingAt. destruct (getPieceAt b (fst cell) (snd cell)) as [p|];
      [|discriminate].
    apply andb_true_iff in Hk as [Hk Hc]. exists p.
    unfold isType in Hk. apply bool_decide_eq_true in Hk.
    apply color_eqb_eq in Hc. auto.
  - right. split; [reflexivity|]. intros cell Hw (p & Hp & Ht & Hc).
    apply cells_spec, list_elem_of_In in Hw.
    pose proof (find_none _ _ Hf cell Hw) as Hn. cbn in Hn.
    rewrite Hp in Hn. unfold isType in Hn.
    rewrite bool_decide_eq_true_2 in Hn by auto.
    rewrite (proj2 (color_eqb_eq _ _) Hc) in Hn. discriminate.
Qed.

(** What [isKingInCheckInternal] answers, in the terms of [attacked]. *)
Lemma isKingInCheckInternal_true `{!AlignedShapes} (ml : list Move)
    (c : PieceColor) (b : Board) :
  isKingInCheckInternal ml c b = Some true ↔ attacked ml c b.
Proof.
  destruct (isKingInCheckInternal_total ml c b) as [r Hr].
  pose proof (isKingInCheckInternal_spec ml c b r Hr) as Hspec.
  unfold attacked. rewrite Hr. split.
  - intros [= ->]. now apply Hspec.
  - intros Ha. f_equal. now apply Hspec.
Qed.

Lemma isKingInCheckInternal_false `{!AlignedShapes} (ml : list Move)
    (c : PieceColor) (b : Board) :
  isKingInCheckInternal ml c b = Some false ↔ outOfCheck ml c b.
Proof.
  unfold outOfCheck. rewrite <- isKingInCheckInternal_true.
  destruct (isKingInCheckInternal_total ml c b) as [[|] ->]; split;
    congruence.
Qed.

(** C3.  [kingIsInCheck(color)] returns, and it returns true exactly
    when some pseudo-legal move of the other colour on the board of the
    game lands on the square [findKing] gives for the king of [color]:
    a cell of the board that holds a king of that colour, or (-1, -1)
    when the board has none. *)
Theorem kingIsInCheck_iff_pseudo_legal_target `{!AlignedShapes}
    (c : PieceColor) (g : ChessGame) :
  ∃ r, kingIsInCheck c g = Some r
       ∧ (r = true ↔
          ∃ m, pseudoLegal (moveList g) (other c) (board g) m
               ∧ (newRow m, newCol m) = findKing c (board g))
       ∧ ((withinBoard (fst (findKing c (board g))) (snd (findKing c (board g))) = true
           ∧ kingAt c (board g) (findKing c (board g)))
          ∨ (findKing c (board g) = (-1, -1)
             ∧ ∀ cell, withinBoard (fst cell) (snd cell) = true →
                       ¬ kingAt c (board g) cell)).
Proof.
  unfold kingIsInCheck.
  destruct (isKingInCheckInternal_total (moveList g) c (board g)) as [r Hr].
  exists r. split; [exact Hr|]. split.
  - now apply isKingInCheckInternal_spec.
  - apply findKing_spec.
Qed.

End Check.

(** The lists of 4096 candidate moves and of 64 cells, and the two
    functions that walk the candidates, are used through the lemmas above
    from here on. *)
#[global] Opaque candidateMoves cells generateLegalMovesInternal
  isKingInCheckInternal.

(** A rook on the open file of the king, with the usual shapes, which are
    aligned. *)
Lemma kingIsInCheck_iff_pseudo_legal_target_witness :
  let g := mkGame (place [(0, 4, pc Black King); (5, 4, pc White Rook);
                          (7, 0, pc White King)]) Black Ongoing [] in
  ∃ r, kingIsInCheck Black g = Some r
       ∧ (r = true ↔
          ∃ m, pseudoLegal (moveList g) White (board g) m
               ∧ (newRow m, newCol m) = findKing Black (board g)).
Proof.
  intros g.
  destruct (@kingIsInCheck_iff_pseudo_legal_target board_ops piece_ops
              Std_aligned Black g) as (r & H1 & H2 & _).
  exists r. split; [exact H1 | exact H2].
Defined.

Example rook_gives_check :
  kingIsInCheck Black
    (mkGame (place [(0, 4, pc Black King); (5, 4, pc White Rook);
                    (7, 0, pc White King)]) Black Ongoing [])
  = Some true.
Proof. vm_compute. reflexivity. Qed.

Example knight_gives_check :
  kingIsInCheck White
    (mkGame (place [(7, 4, pc White King); (5, 3, pc Black Knight);
                    (0, 0, pc Black King)]) White Ongoing [])
  = Some true.
Proof. vm_compute. reflexivity. Qed.

Example pawn_gives_check :
  kingIsInCheck White
    (mkGame (place [(7, 4, pc White King); (6, 3, pc Black Pawn);
                    (0, 0, pc Black King)]) White Ongoing [])
  = Some true.
Proof. vm_compute. reflexivity. Qed.

Example blocked_rook_gives_no_check :
  kingIsInCheck Black
    (mkGame (place [(0, 4, pc Black King); (5, 4, pc White Rook);
                    (3, 4, pc Black Pawn); (7, 0, pc White King)])
            Black Ongoing [])
  = Some false.
Proof. vm_compute. reflexivity. Qed.

(** ** Diagonal pawn moves *)

Lemma quot_abs_sgn (d : Z) : d ≠ 0 → Z.quot d (Z.abs d) = Z.sgn d.
Proof.
  intros Hd. rewrite <- unitStep_sgn. unfold unitStep.
  destruct (Z.eqb_spec (Z.abs d) 0); [lia | reflexivity].
Qed.

Section PawnDiagonal.
Context `{BoardOps} `{PieceOps}.

Lemma slidingBlock_return (b : Board) m piece dx v :
  slidingBlock b m piece dx = Some (Return v) → v = false.
Proof.
  unfold slidingBlock. destruct (isSliding piece); [|discriminate].
  destruct (scan b m) as [r|]; [|discriminate].
  destruct (negb (scanClear r)); [congruence|].
  destruct (_ && _); [congruence | discriminate].
Qed.

(** X24.  What [isValidMove] asks of a pawn move that changes both row
    and column before it accepts it: the destination holds a piece of the
    other colour, or the destination is empty, the cell beside the origin
    towards the destination (the destination's column when the move is one
    column wide) holds a pawn and the last entry of the move history is a
    two-row advance landing exactly on that cell. *)
Theorem pawn_diagonal_capture_or_en_passant (ml : list Move) (t : PieceColor)
    (b : Board) (m : Move) (piece : Piece) :
  getPieceAt b (oldRow m) (oldCol m) = Some piece →
  ptype piece = Pawn →
  newRow m - oldRow m ≠ 0 → newCol m - oldCol m ≠ 0 →
  isValidMove ml t m b = Some true →
  (capturesOpponent t b m
   ∨ (getPieceAt b (newRow m) (newCol m) = None
      ∧ passedPawnBeside (fun _ => True) ml b m))
  ∧ (Z.abs (newCol m - oldCol m) = 1 →
     oldCol m + Z.sgn (newCol m - oldCol m) = newCol m).
Proof.
  intros Hp Hpawn Hdy Hdx Hv. split; [|lia].
  unfold isValidMove in Hv.
  destruct (negb (withinBoard (oldRow m) (oldCol m))
            || negb (withinBoard (newRow m) (newCol m))); [discriminate|].
  rewrite Hp in Hv.
  destruct (isMoveValid piece m); cbn [negb orb] in Hv; [|discriminate].
  destruct (color_eqb (pcolor piece) t) eqn:Hc; cbn [negb] in Hv; [|discriminate].
  apply color_eqb_eq in Hc.
  destruct (getPieceAt b (newRow m) (newCol m)) as [np|] eqn:Hnp.
  - destruct (color_eqb (pcolor piece) (pcolor np)) eqn:Hc2; [discriminate|].
    left. exists np. split; [exact Hnp|]. intros E.
    rewrite Hc, E in Hc2. destruct t; discriminate.
  - right. split; [reflexivity|].
    destruct (slidingBlock b m piece _) as [f1|] eqn:Hs; [|discriminate].
    destruct f1 as [v|].
    { apply slidingBlock_return in Hs. congruence. }
    unfold pawnBlock in Hv. unfold isType in Hv.
    rewrite (bool_decide_eq_true_2 _ Hpawn) in Hv.
    destruct ((Z.abs (newRow m - oldRow m) >? 1) && (0 <? moveCount piece)%nat);
      [discriminate|].
    replace (Z.abs (newRow m - oldRow m) >? 0) with true in Hv by (symmetry; lia).
    replace (Z.abs (newCol m - oldCol m) >? 0) with true in Hv by (symmetry; lia).
    rewrite bool_decide_eq_true_2 in Hv by reflexivity. cbn [andb] in Hv.
    rewrite quot_abs_sgn in Hv by auto.
    unfold passedPawnBeside. cbn zeta.
    destruct (withinBoard (oldRow m) (oldCol m + Z.sgn (newCol m - oldCol m)));
      [|discriminate].
    split; [reflexivity|].
    destruct (getPieceAt b (oldRow m) (oldCol m + Z.sgn (newCol m - oldCol m)))
      as [q|]; cbn [castTo] in Hv; [|discriminate].
    unfold isType in Hv. destruct (bool_decide (ptype q = Pawn)) eqn:Hq;
      [|discriminate].
    apply bool_decide_eq_true in Hq.
    split; [exists q; auto|].
    destruct (list.last ml) as [lastMove|]; [|discriminate].
    exists lastMove. split; [reflexivity|].
    destruct (Z.eqb_spec (newRow lastMove) (oldRow m)); [|discriminate].
    destruct (Z.eqb_spec (newCol lastMove)
                (oldCol m + Z.sgn (newCol m - oldCol m))); [|discriminate].
    destruct (Z.eqb_spec (Z.abs (newRow lastMove - oldRow lastMove)) 2);
      [|discriminate].
    auto.
Qed.

End PawnDiagonal.

(** A black pawn has just advanced two rows and stands beside a white
    pawn: the capture in passing is accepted. *)
Lemma pawn_diagonal_capture_or_en_passant_witness :
  let b : Board := place [(3, 4, pc White Pawn); (3, 3, pc Black Pawn);
                          (7, 4, pc White King); (0, 4, pc Black King)] in
  let ml := [mkMove 1 3 3 3 Black] in
  let m := mkMove 3 4 2 3 White in
  (capturesOpponent White b m
   ∨ (getPieceAt b (newRow m) (newCol m) = None
      ∧ passedPawnBeside (fun _ => True) ml b m))
  ∧ (Z.abs (newCol m - oldCol m) = 1 →
     oldCol m + Z.sgn (newCol m - oldCol m) = newCol m).
Proof.
  intros b ml m.
  apply (pawn_diagonal_capture_or_en_passant ml White b m (pc White Pawn)).
  - reflexivity.
  - reflexivity.
  - cbn. lia.
  - cbn. lia.
  - vm_compute. reflexivity.
Defined.

(** C4.  The pawn beside the origin is not asked for its colour, against
    the comment of the code, which wants a pawn that advanced in the
    opponent's last turn.  [Level4::minimax] plays on without changing the
    turn, so White moves twice: after the a pawn has advanced two rows,
    [isValidMove] accepts the b pawn onto the empty cell behind it, with no
    opponent piece on the destination and no opponent pawn beside the
    origin, and the search plays that move on a copy, where the white a
    pawn is removed. *)
Theorem own_pawn_is_taken_in_passing :
  let m1 := mkMove 6 0 4 0 White in
  let m2 := mkMove 4 1 3 0 White in
  move m1 twoPawns = Some (true, ownPawnBeside)
  ∧ turn ownPawnBeside = White
  ∧ getPieceAt (board ownPawnBeside) 4 0 = Some (mkPiece White Pawn 1)
  ∧ getPieceAt (board ownPawnBeside) 3 0 = None
  ∧ isValidMove (moveList ownPawnBeside) White m2 (board ownPawnBeside)
    = Some true
  ∧ ¬ diagonalRuleOpponentPawn (moveList ownPawnBeside) White
                               (board ownPawnBeside) m2
  ∧ ∃ best s' obj b,
      Level4_getMove 2 White 0 twoPawnsStore = Some (best, s')
      ∧ games s' !! 4%nat = Some obj
      ∧ objMoves obj = [m1; m2]
      ∧ boards s' !! boardPtr obj = Some b
      ∧ getPieceAt b 3 0 = Some (mkPiece White Pawn 2)
      ∧ getPieceAt b 4 0 = None.
Proof.
  intros m1 m2.
  split; [vm_compute; reflexivity|]. split; [reflexivity|].
  split; [vm_compute; reflexivity|]. split; [vm_compute; reflexivity|].
  split; [vm_compute; reflexivity|]. split.
  - intros Hclaim.
    destruct Hclaim as [(np & Hnp & _) | (_ & (np & Hnp & _ & Hc) & _)].
    + vm_compute. reflexivity.
    + vm_compute in Hnp. discriminate.
    + vm_compute in Hnp. inversion Hnp; subst. apply Hc. reflexivity.
  - do 4 eexists. split; [vm_compute; reflexivity|].
    split; [vm_compute; reflexivity|]. split; [vm_compute; reflexivity|].
    split; [vm_compute; reflexivity|]. split; vm_compute; reflexivity.
Qed.

(** ** Executing a move *)

Section MoveExecution.
Context `{BoardOps} `{PieceOps}.

Lemma castlingInCheck_total `{!AlignedShapes} (ml : list Move) (t : PieceColor)
    (b : Board) m :
  is_Some (castlingInCheck ml t b m).
Proof.
  unfold castlingInCheck.
  destruct (isKingInCheckInternal_total ml t b) as [[|] ->]; [eauto|].
  destruct (isKingInCheckInternal_total ml t (Board_move b (intermediateOf m)))
    as [[|] ->]; [eauto|].
  apply isKingInCheckInternal_total.
Qed.

Lemma anyEscape_total `{!AlignedShapes} (ml : list Move) (c : PieceColor)
    (b : Board) (ms : list Move) :
  is_Some (anyEscape ml c b ms).
Proof.
  induction ms as [|e ms IH]; cbn; [eauto|].
  destruct (isKingInCheckInternal_total ml c (Board_move b e)) as [[|] ->]; eauto.
Qed.

Lemma anyEscape_spec (ml : list Move) (c : PieceColor) (b : Board)
    (ms : list Move) (r : bool) :
  anyEscape ml c b ms = Some r →
  if r then ∃ e, e ∈ ms ∧ isKingInCheckInternal ml c (Board_move b e) = Some false
  else ∀ e, e ∈ ms → isKingInCheckInternal ml c (Board_move b e) = Some true.
Proof.
  induction ms as [|e ms IH]; cbn.
  - intros [= <-]. intros e He. inversion He.
  - destruct (isKingInCheckInternal ml c (Board_move b e)) as [[|]|] eqn:Hc;
      [|intros [= <-]|discriminate].
    + intros Hr. specialize (IH Hr). destruct r.
      * destruct IH as (e' & He' & Hc'). exists e'. split; [now right|exact Hc'].
      * intros e' He'. apply elem_of_cons in He' as [->|He']; [exact Hc|].
        now apply IH.
    + exists e. split; [left|exact Hc].
Qed.

Lemma computeState_total `{!AlignedShapes} (c : PieceColor) (g : ChessGame) :
  is_Some (computeState c g).
Proof.
  unfold computeState.
  destruct (isKingInCheckInternal_total (moveList g) c (board g)) as [[|] ->];
    [|eauto].
  cbn.
  destruct (generateLegalMovesInternal_total (moveList g) c (board g)) as [ms ->].
  destruct (anyEscape_total (moveList g) c (board g) ms) as [r ->]. eauto.
Qed.

Lemma moveInternal_total `{!AlignedShapes} m (g : ChessGame) :
  is_Some (moveInternal m g).
Proof.
  unfold moveInternal.
  destruct (isValidMove_total (moveList g) (turn g) m (board g)) as [[|] ->];
    [|eauto].
  destruct (_ && _).
  - destruct (isKingInCheckInternal_total (moveList g) (turn g)
                (Board_move (board g) m)) as [[|] ->]; eauto.
  - destruct (_ && _).
    + destruct (castlingInCheck_total (moveList g) (turn g) (board g) m)
        as [[|] ->]; eauto.
    + destruct (isKingInCheckInternal_total (moveList g) (turn g)
                  (Board_move (board g) m)) as [[|] ->]; eauto.
Qed.

Lemma move_total `{!AlignedShapes} m (g : ChessGame) : is_Some (move m g).
Proof.
  unfold move. destruct (moveInternal_total m g) as [[[|] g1] ->]; [|eauto].
  destruct (computeState_total (other (turn g1)) g1) as [g2 ->]. eauto.
Qed.

(** A rejection by [moveInternal] happens before anything is written. *)
Lemma moveInternal_rejected m (g g' : ChessGame) :
  moveInternal m g = Some (false, g') → g' = g.
Proof.
  unfold moveInternal. intros Hm.
  destruct (isValidMove _ _ _ _) as [[|]|]; [| |discriminate].
  - destruct (_ && _).
    + destruct (isKingInCheckInternal _ _ _) as [[|]|]; congruence.
    + destruct (_ && _).
      * destruct (castlingInCheck _ _ _ _) as [[|]|]; congruence.
      * destruct (isKingInCheckInternal _ _ _) as [[|]|]; congruence.
  - congruence.
Qed.

Lemma moveInternal_accepted m (g g' : ChessGame) :
  moveInternal m g = Some (true, g') →
  g' = mkGame (committedBoard g m) (turn g)
              (if state_eqb (gameState g) (checkAgainst (turn g))
               then Ongoing else gameState g)
              (moveList g ++ [m]).
Proof.
  unfold moveInternal, committedBoard. intros Hm.
  destruct (isValidMove _ _ _ _) as [[|]|]; [| |discriminate].
  - destruct (_ && _).
    + destruct (isKingInCheckInternal _ _ _) as [[|]|]; try discriminate.
      inversion Hm. cbn. now destruct (state_eqb _ _).
    + destruct (_ && _).
      * destruct (castlingInCheck _ _ _ _) as [[|]|]; try discriminate.
        inversion Hm. cbn. now destruct (state_eqb _ _).
      * destruct (isKingInCheckInternal _ _ _) as [[|]|]; try discriminate.
        inversion Hm. cbn. now destruct (state_eqb _ _).
  - discriminate.
Qed.

(** C1.  [ChessGame::move] returns on every move, and when it returns
    false the game (board, move history, game state, and the turn) is
    what it was before the call, whatever made the move fail. *)
Theorem rejected_move_changes_nothing `{!AlignedShapes} (m : Move)
    (g : ChessGame) :
  ∃ ok g', move m g = Some (ok, g')
           ∧ (ok = false →
              g' = g ∧ board g' = board g ∧ moveList g' = moveList g
              ∧ gameState g' = gameState g).
Proof.
  destruct (move_total m g) as [[ok g'] Hm]. exists ok, g'.
  split; [exact Hm|]. intros ->.
  assert (g' = g) as ->; [|auto].
  unfold move in Hm.
  destruct (moveInternal m g) as [[[|] g1]|] eqn:Hi; [| |discriminate].
  - destruct (computeState _ g1); discriminate.
  - inversion Hm; subst. now apply moveInternal_rejected in Hi.
Qed.

(** The causes of a rejection: a move that [isValidMove] refuses, and a
    move after which the own king is in check on the copy of the board. *)
Lemma move_rejects_invalid m (g : ChessGame) :
  isValidMove (moveList g) (turn g) m (board g) = Some false →
  move m g = Some (false, g).
Proof. intros Hv. unfold move, moveInternal. now rewrite Hv. Qed.

Lemma move_rejects_outside_board m (g : ChessGame) :
  ¬ inBoard m → move m g = Some (false, g).
Proof.
  intros Hn. apply move_rejects_invalid. unfold isValidMove.
  destruct (withinBoard (oldRow m) (oldCol m)) eqn:Ho; [|reflexivity].
  destruct (withinBoard (newRow m) (newCol m)) eqn:Hd; [|reflexivity].
  exfalso. apply Hn. split; auto.
Qed.

End MoveExecution.

(** With the usual shapes: the rook is pinned on the file of its king, and
    moving it aside is rejected. *)
Lemma rejected_move_changes_nothing_witness :
  let g := mkGame (place [(7, 4, pc White King); (5, 4, pc White Rook);
                          (0, 4, pc Black Rook); (0, 0, pc Black King)])
                  White Ongoing [] in
  ∃ ok g', move (mkMove 5 4 5 0 White) g = Some (ok, g')
           ∧ (ok = false →
              g' = g ∧ board g' = board g ∧ moveList g' = moveList g
              ∧ gameState g' = gameState g).
Proof.
  intros g.
  exact (@rejected_move_changes_nothing board_ops piece_ops Std_aligned
           (mkMove 5 4 5 0 White) g).
Defined.

Example pinned_rook_is_rejected :
  let g := mkGame (place [(7, 4, pc White King); (5, 4, pc White Rook);
                          (0, 4, pc Black Rook); (0, 0, pc Black King)])
                  White Ongoing [] in
  move (mkMove 5 4 5 0 White) g = Some (false, g).
Proof. vm_compute. reflexivity. Qed.

(** ** Legal moves *)

Section LegalMoves.
Context `{BoardOps} `{PieceOps}.

Lemma castlingInCheck_false (ml : list Move) (t : PieceColor) (b : Board) m :
  castlingInCheck ml t b m = Some false ↔ castlingPassesCheckTests ml t b m.
Proof.
  unfold castlingInCheck, castlingPassesCheckTests, passesCheckTest.
  destruct (isKingInCheckInternal ml t b) as [[|]|];
    [split; [discriminate | intros [? _]; discriminate] |
     | split; [discriminate | intros [? _]; discriminate]].
  destruct (isKingInCheckInternal ml t (Board_move b (intermediateOf m)))
    as [[|]|];
    [split; [discriminate | intros (_ & ? & _); discriminate] |
     | split; [discriminate | intros (_ & ? & _); discriminate]].
  tauto.
Qed.


Lemma keepsKingSafe_spec (g : ChessGame) m :
  keepsKingSafe g m = Some true ↔ passesKingTest g m.
Proof.
  unfold keepsKingSafe, passesKingTest, isCastling.
  destruct (_ && _).
  - rewrite <- castlingInCheck_false.
    destruct (castlingInCheck _ _ _ _) as [[|]|]; cbn; split; congruence.
  - unfold passesCheckTest.
    destruct (isKingInCheckInternal _ _ _) as [[|]|]; cbn; split; congruence.
Qed.

Lemma keepsKingSafe_total `{!AlignedShapes} (g : ChessGame) m :
  is_Some (keepsKingSafe g m).
Proof.
  unfold keepsKingSafe. destruct (_ && _).
  - destruct (castlingInCheck_total (moveList g) (turn g) (board g) m)
      as [c ->]. eauto.
  - destruct (isKingInCheckInternal_total (moveList g) (turn g)
                (Board_move (board g) m)) as [c ->]. eauto.
Qed.

Lemma generateLegalMoves_total `{!AlignedShapes} (g : ChessGame) :
  is_Some (generateLegalMoves g).
Proof.
  unfold generateLegalMoves.
  destruct (generateLegalMovesInternal_total (moveList g) (turn g) (board g))
    as [ms ->].
  apply filterLoop_total. intros m _. apply keepsKingSafe_total.
Qed.

Lemma generateLegalMoves_spec (g : ChessGame) (ms : list Move) :
  generateLegalMoves g = Some ms →
  ∀ m, m ∈ ms ↔ pseudoLegal (moveList g) (turn g) (board g) m ∧ passesKingTest g m.
Proof.
  unfold generateLegalMoves.
  destruct (generateLegalMovesInternal _ _ _) as [pl|] eqn:Hg; [|discriminate].
  intros Hf m. rewrite (filterLoop_filter _ _ _ Hf m).
  rewrite (generateLegalMovesInternal_spec _ _ _ _ Hg m).
  now rewrite keepsKingSafe_spec.
Qed.




End LegalMoves.


(** C2.  A pawn that takes in passing is tried on the copy with
    [Board::move], which leaves the passed pawn on the board, and played
    with [Board::enPassantMove], which removes it.  After the black pawn
    has advanced two rows, the white pawn beside it and the passed pawn
    are all that stands between the white king and the black rook on their
    row: taking in passing is in the list of [generateLegalMoves], the
    king is out of check on the copy, [move] accepts the move, and on the
    board it leaves the rook attacks the king of the side that moved. *)
Theorem en_passant_is_listed_and_exposes_the_king :
  let m := mkMove 3 4 2 3 White in
  (∃ g1, move (mkMove 1 3 3 3 Black) beforeEnPassantPin = Some (true, g1)
         ∧ changeTurn g1 = enPassantPin)
  ∧ (∃ ms, generateLegalMoves enPassantPin = Some ms ∧ m ∈ ms)
  ∧ outOfCheck (moveList enPassantPin) White
               (Board_move (board enPassantPin) m)
  ∧ ∃ g', move m enPassantPin = Some (true, g')
          ∧ board g' = enPassantMove (board enPassantPin) m
          ∧ attacked (moveList g') White (board g')
          ∧ kingIsInCheck White g' = Some true.
Proof.
  intros m. split; [|split; [|split]].
  - eexists. split; [vm_compute; reflexivity|]. vm_compute. reflexivity.
  - eexists. split; [vm_compute; reflexivity|].
    apply (bool_decide_unpack _). vm_compute. exact I.
  - apply (@isKingInCheckInternal_false board_ops piece_ops Std_aligned).
    vm_compute. reflexivity.
  - eexists. split; [vm_compute; reflexivity|].
    split; [vm_compute; reflexivity|]. split.
    + exists (mkMove 3 7 3 0 Black).
      split; [split; vm_compute; reflexivity | vm_compute; reflexivity].
    + vm_compute. reflexivity.
Qed.

(** Castling through the file of the black rook is pseudo-legal but not
    legal; a king step to the d file is legal. *)
Example castling_through_check_not_generated :
  let g := rookOnTheFFile in
  isValidMove [] White (mkMove 7 4 7 6 White) (board g) = Some true
  ∧ (bool_decide (mkMove 7 4 7 6 White ∈ default [] (generateLegalMoves g)) = false)
  ∧ (bool_decide (mkMove 7 4 7 3 White ∈ default [] (generateLegalMoves g)) = true).
Proof. vm_compute. auto. Qed.

(** ** The game state after a successful move *)

Section StateAfterMove.
Context `{BoardOps} `{PieceOps}.

Lemma computeState_spec (c : PieceColor) (g g' : ChessGame) :
  computeState c g = Some g' →
  board g' = board g ∧ turn g' = turn g ∧ moveList g' = moveList g
  ∧ ∃ chk, isKingInCheckInternal (moveList g) c (board g) = Some chk
           ∧ (chk = false → gameState g' = gameState g)
           ∧ (chk = true →
              (gameState g' = checkAgainst c ∨ gameState g' = checkmateAgainst c)
              ∧ ((∃ e, passesEscapeTest (moveList g) c (board g) e) →
                 gameState g' = checkAgainst c)
              ∧ ((∀ e, failsEscapeTest (moveList g) c (board g) e) →
                 gameState g' = checkmateAgainst c)).
Proof.
  unfold computeState.
  destruct (isKingInCheckInternal (moveList g) c (board g)) as [[|]|] eqn:Hc;
    [| |discriminate].
  - cbn. destruct (generateLegalMovesInternal (moveList g) c (board g))
      as [ms|] eqn:Hg; [|discriminate].
    destruct (anyEscape (moveList g) c (board g) ms) as [r|] eqn:Ha;
      [|discriminate].
    intros [= <-]. pose proof (anyEscape_spec _ _ _ _ _ Ha) as Hr.
    pose proof (generateLegalMovesInternal_spec _ _ _ _ Hg) as Hms.
    destruct r; cbn.
    + repeat split; auto. exists true. split; [reflexivity|].
      split; [discriminate|]. intros _. split; [auto|]. split; [auto|].
      intros Hall. destruct Hr as (e & He & Hf).
      apply Hms in He. specialize (Hall e He). congruence.
    + repeat split; auto. exists true. split; [reflexivity|].
      split; [discriminate|]. intros _. split; [auto|]. split; [|auto].
      intros (e & Hp & Hf). apply Hms in Hp. specialize (Hr e Hp). congruence.
  - intros [= <-]. repeat split; auto. exists false. split; [reflexivity|].
    split; [auto | discriminate].
Qed.

Lemma move_accepted m (g g' : ChessGame) :
  move m g = Some (true, g') →
  ∃ g1, moveInternal m g = Some (true, g1)
        ∧ computeState (other (turn g)) g1 = Some g'.
Proof.
  unfold move.
  destruct (moveInternal m g) as [[[|] g1]|] eqn:Hi; try discriminate.
  destruct (computeState (other (turn g1)) g1) as [g2|] eqn:Hc; [|discriminate].
  intros [= <-]. exists g1. split; [reflexivity|].
  pose proof (moveInternal_accepted _ _ _ Hi) as Hg1.
  assert (Ht : turn g1 = turn g) by (rewrite Hg1; reflexivity).
  now rewrite <- Ht.
Qed.

Lemma computeState_checked (c : PieceColor) (g g' : ChessGame) :
  computeState c g = Some g' →
  isKingInCheckInternal (moveList g) c (board g) = Some true →
  (gameState g' = checkAgainst c ↔
   ∃ e, passesEscapeTest (moveList g) c (board g) e)
  ∧ (gameState g' = checkmateAgainst c ↔
     ∀ e, failsEscapeTest (moveList g) c (board g) e).
Proof.
  unfold computeState. intros Hcs Hc. rewrite Hc in Hcs. cbn in Hcs.
  destruct (generateLegalMovesInternal (moveList g) c (board g))
    as [ms|] eqn:Hg; [|discriminate].
  destruct (anyEscape (moveList g) c (board g) ms) as [r|] eqn:Ha;
    [|discriminate].
  injection Hcs as <-. pose proof (anyEscape_spec _ _ _ _ _ Ha) as Hr.
  pose proof (generateLegalMovesInternal_spec _ _ _ _ Hg) as Hms.
  assert (Hne : checkAgainst c ≠ checkmateAgainst c) by (destruct c; discriminate).
  destruct r; cbn.
  - destruct Hr as (e & He & Hf). apply Hms in He. split.
    + split; [|reflexivity]. intros _. exists e. split; assumption.
    + split; [intros E; congruence|].
      intros Hall. specialize (Hall e He). congruence.
  - split.
    + split; [intros E; congruence|].
      intros (e & Hp & Hf). apply Hms in Hp. specialize (Hr e Hp). congruence.
    + split; [|reflexivity]. intros _ e Hp. apply Hms in Hp. exact (Hr e Hp).
Qed.

Lemma escapes_tests `{!AlignedShapes} (ml : list Move) (c : PieceColor)
    (b : Board) (e : Move) :
  passesEscapeTest ml c b e ↔ escapes ml c b e.
Proof.
  unfold passesEscapeTest, escapes. now rewrite isKingInCheckInternal_false.
Qed.

Lemma staysInCheck_tests `{!AlignedShapes} (ml : list Move) (c : PieceColor)
    (b : Board) (e : Move) :
  failsEscapeTest ml c b e ↔ staysInCheck ml c b e.
Proof.
  unfold failsEscapeTest, staysInCheck. now rewrite isKingInCheckInternal_true.
Qed.

(** X23.  After a successful [move] by the side [S] to move, with [O] the
    other side: the turn is kept, the history has the move appended and
    the board is the committed one.  If some pseudo-legal move of [S] lands
    on the king of [O] on the new board, the state is the check state
    against [O] exactly when some pseudo-legal move of [O], played with
    [Board::move] on a copy, leaves that king out of check, and the
    checkmate state against [O] exactly when none does.  If no move of [S]
    lands on that king, a state that recorded [S] as checked has become
    [Ongoing], and any other state is kept. *)
Theorem state_after_move_by_the_tests_on_copies `{!AlignedShapes} (m : Move)
    (g g' : ChessGame) :
  move m g = Some (true, g') →
  let O := other (turn g) in
  turn g' = turn g
  ∧ moveList g' = moveList g ++ [m]
  ∧ board g' = committedBoard g m
  ∧ (attacked (moveList g') O (board g') →
     (gameState g' = checkAgainst O ↔
      ∃ e, escapes (moveList g') O (board g') e)
     ∧ (gameState g' = checkmateAgainst O ↔
        ∀ e, staysInCheck (moveList g') O (board g') e))
  ∧ (outOfCheck (moveList g') O (board g') →
     (gameState g = checkAgainst (turn g) → gameState g' = Ongoing)
     ∧ (gameState g ≠ checkAgainst (turn g) → gameState g' = gameState g)).
Proof.
  intros Hm O. apply move_accepted in Hm as (g1 & Hi & Hc).
  apply moveInternal_accepted in Hi.
  pose proof (computeState_spec _ _ _ Hc) as (Hb & Ht & Hl & chk & Hk & Hf & _).
  pose proof (computeState_checked _ _ _ Hc) as Hchecked.
  fold O in Hk, Hf, Hchecked.
  assert (Hb1 : board g1 = committedBoard g m) by (rewrite Hi; reflexivity).
  assert (Hl1 : moveList g1 = moveList g ++ [m]) by (rewrite Hi; reflexivity).
  assert (Ht1 : turn g1 = turn g) by (rewrite Hi; reflexivity).
  rewrite Hb1 in Hb. rewrite Hl1 in Hl. rewrite Ht1 in Ht.
  split; [exact Ht|]. split; [exact Hl|]. split; [exact Hb|].
  rewrite Hb, Hl. rewrite Hb1, Hl1 in Hk, Hchecked. split.
  - intros Ha. apply isKingInCheckInternal_true in Ha.
    destruct (Hchecked Ha) as [Hcheck Hmate]. split.
    + rewrite Hcheck. split; intros [e He]; exists e; now apply escapes_tests.
    + rewrite Hmate. split; intros Hall e; now apply staysInCheck_tests.
  - intros Ho. apply isKingInCheckInternal_false in Ho.
    assert (chk = false) as -> by congruence.
    rewrite (Hf eq_refl), Hi. cbn. unfold state_eqb. split.
    + intros E. now rewrite bool_decide_eq_true_2.
    + intros E. now rewrite bool_decide_eq_false_2.
Qed.

End StateAfterMove.

(** The rook comes to the back rank and the black king has no move that
    leaves it out of check: the state is the checkmate state.  With the h
    pawn one row further the king has a move: the state is the check
    state. *)
Lemma state_after_move_by_the_tests_on_copies_witness :
  attacked (moveList backRankMated) Black (board backRankMated)
  ∧ gameState backRankMated = CheckmateForWhite
  ∧ (∀ e, staysInCheck (moveList backRankMated) Black (board backRankMated) e)
  ∧ attacked (moveList backRankChecked) Black (board backRankChecked)
  ∧ escapes (moveList backRankChecked) Black (board backRankChecked)
            (mkMove 0 6 1 7 Black)
  ∧ gameState backRankChecked = CheckForWhite.
Proof.
  assert (Ha : attacked (moveList backRankMated) Black (board backRankMated)).
  { exists (mkMove 0 0 0 6 White).
    split; [split; vm_compute; reflexivity | vm_compute; reflexivity]. }
  assert (Hb : attacked (moveList backRankChecked) Black
                        (board backRankChecked)).
  { exists (mkMove 0 0 0 6 White).
    split; [split; vm_compute; reflexivity | vm_compute; reflexivity]. }
  assert (He : escapes (moveList backRankChecked) Black (board backRankChecked)
                       (mkMove 0 6 1 7 Black)).
  { split; [split; vm_compute; reflexivity|].
    apply (@isKingInCheckInternal_false board_ops piece_ops Std_aligned).
    vm_compute. reflexivity. }
  destruct (@state_after_move_by_the_tests_on_copies board_ops piece_ops
              Std_aligned (mkMove 7 0 0 0 White) backRank backRankMated)
    as (_ & _ & _ & Hmated & _); [vm_compute; reflexivity|].
  destruct (@state_after_move_by_the_tests_on_copies board_ops piece_ops
              Std_aligned (mkMove 7 0 0 0 White) backRankEscape
              backRankChecked)
    as (_ & _ & _ & Hchecked & _); [vm_compute; reflexivity|].
  split; [exact Ha|]. split; [reflexivity|].
  split; [apply (Hmated Ha); reflexivity|].
  split; [exact Hb|]. split; [exact He|].
  apply (Hchecked Hb). exists (mkMove 0 6 1 7 Black). exact He.
Defined.

(** C8.  A pawn that takes in passing is tried on the copy with
    [Board::move], which leaves the passed pawn on the board.  The white
    pawn advances two rows and gives check; the black king has no cell to
    go to, and the black pawn beside the white pawn can take it in passing,
    which removes the pawn that gives check.  [move] records the checkmate
    state, although that pseudo-legal move of the checked side, played as
    [moveInternal] commits a move of its shape, leaves the king out of
    check.  On the copy the passed pawn still stands, so the loop of
    [computeState] finds no move, and [move] refuses the capture. *)
Theorem en_passant_escape_is_recorded_as_checkmate :
  let m := mkMove 6 6 4 6 White in
  let e := mkMove 4 7 5 6 Black in
  ∃ g', move m beforeDoubleStepCheck = Some (true, g')
        ∧ attacked (moveList g') Black (board g')
        ∧ gameState g' = checkmateAgainst Black
        ∧ pseudoLegal (moveList g') Black (board g') e
        ∧ committedBoard (changeTurn g') e = enPassantMove (board g') e
        ∧ outOfCheck (moveList g' ++ [e]) Black (enPassantMove (board g') e)
        ∧ attacked (moveList g') Black (Board_move (board g') e)
        ∧ move e (changeTurn g') = Some (false, changeTurn g').
Proof.
  intros m e. eexists. split; [vm_compute; reflexivity|].
  split; [|split; [|split; [|split; [|split; [|split]]]]].
  - exists (mkMove 4 6 3 7 White).
    split; [split; vm_compute; reflexivity | vm_compute; reflexivity].
  - vm_compute. reflexivity.
  - split; vm_compute; reflexivity.
  - vm_compute. reflexivity.
  - apply (@isKingInCheckInternal_false board_ops piece_ops Std_aligned).
    vm_compute. reflexivity.
  - exists (mkMove 4 6 3 7 White).
    split; [split; vm_compute; reflexivity | vm_compute; reflexivity].
  - vm_compute. reflexivity.
Qed.

Example back_rank_is_checkmate : gameState backRankMated = CheckmateForWhite.
Proof. reflexivity. Qed.

(** With the h pawn one row further the king has an escape: check only. *)
Example back_rank_with_escape_is_check :
  let g := backRankEscape in
  (λ r, gameState (snd r)) <$> move (mkMove 7 0 0 0 White) g = Some CheckForWhite.
Proof. vm_compute. reflexivity. Qed.

(** A checked side that moves out of check gets the state [Ongoing]. *)
Example escaping_check_resets_state :
  let g := mkGame (place [(0, 6, pc Black King); (1, 5, pc Black Pawn);
                          (1, 6, pc Black Pawn); (2, 7, pc Black Pawn);
                          (0, 0, pc White Rook); (7, 6, pc White King)])
                  Black CheckForWhite [mkMove 7 0 0 0 White] in
  (λ r, (fst r, gameState (snd r))) <$> move (mkMove 0 6 1 7 Black) g
  = Some (true, Ongoing).
Proof. vm_compute. reflexivity. Qed.

(** ** Castling *)

Section Castling.
Context `{BoardOps} `{PieceOps}.




End Castling.


(** On the board of [Std] the king ends on g1 and the rook on f1, both
    with their move count raised. *)
Example castling_relocates_king_and_rook :
  (λ r, (fst r, getPieceAt (board (snd r)) 7 6, getPieceAt (board (snd r)) 7 5,
         getPieceAt (board (snd r)) 7 4, getPieceAt (board (snd r)) 7 7))
    <$> move (mkMove 7 4 7 6 White) castlingReady
  = Some (true, Some (mkPiece White King 1), Some (mkPiece White Rook 1),
          None, None).
Proof. vm_compute. reflexivity. Qed.

Example castling_queen_side :
  (λ r, (fst r, getPieceAt (board (snd r)) 7 2, getPieceAt (board (snd r)) 7 3))
    <$> move (mkMove 7 4 7 2 White) castlingReady
  = Some (true, Some (mkPiece White King 1), Some (mkPiece White Rook 1)).
Proof. vm_compute. reflexivity. Qed.

(** Rejected when the king has moved, when a cell between is occupied,
    and when the king would pass through check. *)
Example castling_rejected_after_king_moved :
  fst <$> move (mkMove 7 4 7 6 White)
            (mkGame (place [(7, 4, mkPiece White King 2); (7, 7, pc White Rook);
                            (0, 4, pc Black King)]) White Ongoing [])
  = Some false.
Proof. vm_compute. reflexivity. Qed.

Example castling_rejected_when_blocked :
  fst <$> move (mkMove 7 4 7 6 White)
            (mkGame (place [(7, 4, pc White King); (7, 7, pc White Rook);
                            (7, 5, pc White Bishop); (0, 4, pc Black King)])
                    White Ongoing [])
  = Some false.
Proof. vm_compute. reflexivity. Qed.

Example castling_rejected_through_check :
  fst <$> move (mkMove 7 4 7 6 White)
            (mkGame (place [(7, 4, pc White King); (7, 7, pc White Rook);
                            (0, 5, pc Black Rook); (0, 4, pc Black King)])
                    White Ongoing [])
  = Some false.
Proof. vm_compute. reflexivity. Qed.

(** ** Promotion *)

Section Promotion.
Context `{BoardOps} `{PieceOps}.

Lemma movePromotion_total `{!AlignedShapes} m p (g : ChessGame) :
  is_Some (movePromotion m p g).
Proof.
  unfold movePromotion.
  destruct (moveInternal_total m g) as [[[|] g1] ->]; [|eauto].
  destruct (computeState_total
              (other (turn (setBoard (promotionMove (board g1) m p) g1)))
              (setBoard (promotionMove (board g1) m p) g1)) as [g2 ->].
  eauto.
Qed.

(** C7, as the code has it.  [movePromotion] accepts and rejects exactly
    the moves [move] does, and a rejection changes nothing.  On an
    accepted move it makes the same history entry and keeps the turn, and
    it applies [Board::promotionMove] with the requested piece to the
    board that the plain move produces, whether or not the move is a
    promotion: [isPromotion] is not consulted. *)
Theorem movePromotion_applies_promotionMove `{!AlignedShapes} (m : Move)
    (p : option Piece) (g : ChessGame) :
  ∃ ok gm gp,
    move m g = Some (ok, gm)
    ∧ movePromotion m p g = Some (ok, gp)
    ∧ (ok = false → gm = g ∧ gp = g)
    ∧ (ok = true →
       board gm = committedBoard g m
       ∧ board gp = promotionMove (committedBoard g m) m p
       ∧ moveList gp = moveList gm
       ∧ turn gp = turn gm).
Proof.
  destruct (move_total m g) as [[ok gm] Hm].
  destruct (movePromotion_total m p g) as [[ok' gp] Hp].
  pose proof Hm as Hm'. pose proof Hp as Hp'.
  unfold move in Hm'. unfold movePromotion in Hp'.
  destruct (moveInternal m g) as [[[|] g1]|] eqn:Hi; try discriminate.
  - pose proof (moveInternal_accepted _ _ _ Hi) as Hg1.
    destruct (computeState (other (turn g1)) g1) as [g2|] eqn:Hc1;
      [|discriminate].
    destruct (computeState _ (setBoard _ g1)) as [g3|] eqn:Hc2; [|discriminate].
    inversion Hm'; inversion Hp'; subst ok gm ok' gp.
    exists true, g2, g3. split; [exact Hm|]. split; [exact Hp|].
    split; [discriminate|]. intros _.
    apply computeState_spec in Hc1 as (Hb1 & Ht1 & Hl1 & _).
    apply computeState_spec in Hc2 as (Hb2 & Ht2 & Hl2 & _).
    cbn in Hb2, Ht2, Hl2.
    assert (Hcb : board g1 = committedBoard g m) by (rewrite Hg1; reflexivity).
    rewrite Hb1, Hb2, Hl1, Hl2, Ht1, Ht2, Hcb. auto.
  - inversion Hm'; inversion Hp'; subst ok gm ok' gp.
    apply moveInternal_rejected in Hi. subst g1.
    exists false, g, g. split; [exact Hm|]. split; [exact Hp|].
    split; [auto | discriminate].
Qed.

End Promotion.

(** A pawn that advances one row from its home square, with a queen
    requested. *)
Lemma movePromotion_applies_promotionMove_witness :
  let m := mkMove 6 4 5 4 White in
  let p := Some (pc White Queen) in
  ∃ ok gm gp,
    move m pawnAtHome = Some (ok, gm)
    ∧ movePromotion m p pawnAtHome = Some (ok, gp)
    ∧ (ok = true →
       board gp = promotionMove (committedBoard pawnAtHome m) m p).
Proof.
  intros m p.
  destruct (@movePromotion_applies_promotionMove board_ops piece_ops Std_aligned
              m p pawnAtHome) as (ok & gm & gp & H1 & H2 & _ & H4).
  exists ok, gm, gp. split; [exact H1|]. split; [exact H2|].
  intros Hok. now destruct (H4 Hok) as (_ & Hb & _).
Defined.

(** The move is valid and is not a promotion, and yet the pawn has become
    a queen: the board is not the board the plain move leaves. *)
Lemma movePromotion_substitutes_on_plain_move :
  ¬ promotionIgnoredOnPlainMove (mkMove 6 4 5 4 White) (Some (pc White Queen))
      pawnAtHome.
Proof.
  intros Hclaim. unfold promotionIgnoredOnPlainMove in Hclaim.
  set (gm := match move (mkMove 6 4 5 4 White) pawnAtHome with
             | Some (_, x) => x | None => pawnAtHome end).
  set (gp := match movePromotion (mkMove 6 4 5 4 White) (Some (pc White Queen))
                                 pawnAtHome with
             | Some (_, x) => x | None => pawnAtHome end).
  specialize (Hclaim ltac:(vm_compute; reflexivity) ltac:(vm_compute; reflexivity)
                     gm gp ltac:(vm_compute; reflexivity)
                     ltac:(vm_compute; reflexivity)).
  apply (f_equal (λ b : Board, getPieceAt b 5 4)) in Hclaim.
  vm_compute in Hclaim. discriminate.
Qed.

Example plain_move_keeps_the_pawn :
  (λ r, getPieceAt (board (snd r)) 5 4) <$> move (mkMove 6 4 5 4 White) pawnAtHome
  = Some (Some (mkPiece White Pawn 1)).
Proof. vm_compute. reflexivity. Qed.

Example movePromotion_makes_a_queen :
  (λ r, getPieceAt (board (snd r)) 5 4)
    <$> movePromotion (mkMove 6 4 5 4 White) (Some (pc White Queen)) pawnAtHome
  = Some (Some (pc White Queen)).
Proof. vm_compute. reflexivity. Qed.

(** On a promotion the same path gives the requested piece on the last
    row. *)
Example movePromotion_on_last_row :
  isPromotion (mkMove 1 4 0 4 White) pawnBeforeLastRow = true
  ∧ (λ r, (fst r, getPieceAt (board (snd r)) 0 4, getPieceAt (board (snd r)) 1 4))
      <$> movePromotion (mkMove 1 4 0 4 White) (Some (pc White Queen))
                        pawnBeforeLastRow
    = Some (true, Some (pc White Queen), None).
Proof. vm_compute. auto. Qed.

(** ** Minimax works on copies *)

Section Search.
Context `{BoardOps} `{PieceOps}.

Lemma extends_refl s : extends s s.
Proof. split; exists []; now rewrite app_nil_r. Qed.

Lemma extends_trans s1 s2 s3 : extends s1 s2 → extends s2 s3 → extends s1 s3.
Proof.
  intros [[kb1 Hb1] [kg1 Hg1]] [[kb2 Hb2] [kg2 Hg2]]. split.
  - exists (kb1 ++ kb2). now rewrite Hb2, Hb1, app_assoc.
  - exists (kg1 ++ kg2). now rewrite Hg2, Hg1, app_assoc.
Qed.

Lemma extends_games s s' (a : nat) o :
  extends s s' → games s !! a = Some o → games s' !! a = Some o.
Proof.
  intros [_ [kg Hg]] Ha. rewrite Hg. now apply lookup_app_l_Some.
Qed.

Lemma extends_boards s s' (i : nat) b :
  extends s s' → boards s !! i = Some b → boards s' !! i = Some b.
Proof.
  intros [[kb Hb] _] Hi. rewrite Hb. now apply lookup_app_l_Some.
Qed.

Lemma extends_load s s' (a : nat) g :
  extends s s' → load a s = Some g → load a s' = Some g.
Proof.
  intros He. unfold load.
  destruct (games s !! a) as [o|] eqn:Ho; [|discriminate].
  rewrite (extends_games _ _ _ _ He Ho).
  destruct (boards s !! boardPtr o) as [b|] eqn:Hb; [|discriminate].
  now rewrite (extends_boards _ _ _ _ He Hb).
Qed.

(** The copy is a new object with a new board; nothing that was there is
    touched, and the copy reads as the original. *)
Lemma copyGame_spec (a t : nat) s s1 :
  copyGame a s = Some (t, s1) →
  extends s s1
  ∧ t = length (games s)
  ∧ ∃ o b, games s !! a = Some o ∧ boards s !! boardPtr o = Some b
           ∧ boards s1 = boards s ++ [b]
           ∧ games s1 = games s ++ [mkObj (length (boards s)) (objTurn o)
                                          (objState o) (objMoves o)]
           ∧ load t s1 = load a s.
Proof.
  unfold copyGame.
  destruct (games s !! a) as [o|] eqn:Ho; [|discriminate].
  destruct (boards s !! boardPtr o) as [b|] eqn:Hb; [|discriminate].
  intros [= <- <-]. cbn.
  split; [split; eexists; reflexivity|]. split; [reflexivity|].
  exists o, b. repeat split; auto.
  unfold load. cbn. rewrite Ho, Hb.
  rewrite lookup_app_r by lia. rewrite Nat.sub_diag. cbn.
  rewrite lookup_app_r by lia. rewrite Nat.sub_diag. reflexivity.
Qed.

Lemma copyGame_total (a : nat) s :
  is_Some (load a s) → is_Some (copyGame a s).
Proof.
  unfold load, copyGame. intros [g Hg].
  destruct (games s !! a) as [o|]; [|discriminate].
  destruct (boards s !! boardPtr o) as [b|]; [|discriminate]. eauto.
Qed.

(** Writing an object whose address and whose board address lie beyond
    [s0] keeps [s0]. *)
Lemma save_beyond (s0 s s' : Store) (t : nat) g o :
  extends s0 s →
  games s !! t = Some o →
  (length (games s0) ≤ t)%nat → (length (boards s0) ≤ boardPtr o)%nat →
  save t g s = Some s' →
  extends s0 s'
  ∧ ∃ o', games s' !! t = Some o' ∧ boardPtr o' = boardPtr o.
Proof.
  intros [[kb Hb] [kg Hg]] Ho Ht Hp. unfold save. rewrite Ho.
  intros [= <-]. cbn. split; [split|].
  - rewrite Hb. rewrite insert_app_r_alt by lia. eauto.
  - rewrite Hg. rewrite insert_app_r_alt by lia. eauto.
  - eexists. split.
    + apply list_lookup_insert_eq. now apply lookup_lt_Some in Ho.
    + reflexivity.
Qed.

Lemma save_load (s s' : Store) (t : nat) g :
  is_Some (load t s) → save t g s = Some s' → load t s' = Some g.
Proof.
  unfold load, save. intros [g0 Hl].
  destruct (games s !! t) as [o|] eqn:Ho; [|discriminate].
  destruct (boards s !! boardPtr o) as [b|] eqn:Hb; [|discriminate].
  intros [= <-]. cbn.
  rewrite list_lookup_insert_eq by now apply lookup_lt_Some in Ho.
  cbn. rewrite list_lookup_insert_eq by now apply lookup_lt_Some in Hb.
  now destruct g.
Qed.

(** A move on a fresh copy keeps everything that was there before the
    copy. *)
Lemma copy_then_move (game t : nat) m s s1 s2 ok :
  copyGame game s = Some (t, s1) →
  moveAt t m s1 = Some (ok, s2) →
  extends s s2 ∧ is_Some (load t s2).
Proof.
  intros Hc Hm.
  apply copyGame_spec in Hc as (He & Ht & o & b & Ho & Hb & Hbs & Hgs & Hl).
  unfold moveAt in Hm.
  destruct (load t s1) as [g|] eqn:Hlt; [|discriminate].
  destruct (move m g) as [[ok' g']|]; [|discriminate].
  destruct (save t g' s1) as [s'|] eqn:Hs; [|discriminate].
  inversion Hm; subst ok' s'.
  split.
  - assert (Hot : games s1 !! t
                  = Some (mkObj (length (boards s)) (objTurn o) (objState o)
                                (objMoves o))).
    { rewrite Hgs, Ht. rewrite lookup_app_r by lia.
      now rewrite Nat.sub_diag. }
    destruct (save_beyond s s1 s2 t g' _ He Hot) as [He2 _]; cbn; auto; lia.
  - rewrite (save_load s1 s2 t g'); eauto.
Qed.

Lemma moveAt_total `{!AlignedShapes} (t : nat) m s :
  is_Some (load t s) → is_Some (moveAt t m s).
Proof.
  intros [g Hg]. unfold moveAt. rewrite Hg.
  destruct (move_total m g) as [[ok g'] ->].
  unfold load in Hg. unfold save.
  destruct (games s !! t) as [o|]; [|discriminate]. eauto.
Qed.

Section Frame.
Variable MAX_DEPTH : nat.
Variable myColor : PieceColor.

Lemma maxLoop_framed rec atRoot game : framed rec →
  ∀ legalMoves alpha beta maxEval st v st',
    maxLoop rec atRoot game legalMoves alpha beta maxEval st = Some (v, st') →
    extends (fst st) (fst st').
Proof.
  intros Hrec legalMoves.
  induction legalMoves as [|m rest IH]; intros alpha beta maxEval st v st'; cbn.
  - intros [= <- <-]. apply extends_refl.
  - destruct (copyGame game (fst st)) as [[t s1]|] eqn:Hc; [|discriminate].
    destruct (moveAt t m s1) as [[ok s2]|] eqn:Hm; [|discriminate].
    destruct (rec t alpha beta (s2, snd st)) as [[eval st3]|] eqn:Hr;
      [|discriminate].
    destruct (copy_then_move _ _ _ _ _ _ _ Hc Hm) as [He2 _].
    apply Hrec in Hr. cbn in Hr.
    pose proof (extends_trans _ _ _ He2 Hr) as He3.
    destruct (beta <=? Z.max alpha eval).
    + intros [= <- <-]. exact He3.
    + intros Hl. apply IH in Hl. cbn in Hl. eapply extends_trans; eauto.
Qed.

Lemma minLoop_framed rec game : framed rec →
  ∀ legalMoves alpha beta minEval st v st',
    minLoop rec game legalMoves alpha beta minEval st = Some (v, st') →
    extends (fst st) (fst st').
Proof.
  intros Hrec legalMoves.
  induction legalMoves as [|m rest IH]; intros alpha beta minEval st v st'; cbn.
  - intros [= <- <-]. apply extends_refl.
  - destruct (copyGame game (fst st)) as [[t s1]|] eqn:Hc; [|discriminate].
    destruct (moveAt t m s1) as [[ok s2]|] eqn:Hm; [|discriminate].
    destruct (rec t alpha beta (s2, snd st)) as [[eval st3]|] eqn:Hr;
      [|discriminate].
    destruct (copy_then_move _ _ _ _ _ _ _ Hc Hm) as [He2 _].
    apply Hrec in Hr. cbn in Hr.
    pose proof (extends_trans _ _ _ He2 Hr) as He3.
    destruct (Z.min beta eval <=? alpha).
    + intros [= <- <-]. exact He3.
    + intros Hl. apply IH in Hl. eapply extends_trans; eauto.
Qed.

Lemma minimax_framed (depth : nat) :
  ∀ maximizingPlayer,
    framed (fun a alpha beta =>
              minimax MAX_DEPTH myColor depth a alpha beta maximizingPlayer).
Proof.
  induction depth as [|depth IH]; intros mx a alpha beta st v st'; cbn.
  - destruct (load a (fst st)); [|discriminate].
    intros [= <- <-]. apply extends_refl.
  - destruct (load a (fst st)) as [g|]; [|discriminate].
    destruct (negb (state_eqb (gameState g) Ongoing)).
    { intros [= <- <-]. apply extends_refl. }
    destruct (generateLegalMoves g) as [legalMoves|]; [|discriminate].
    destruct mx.
    + apply maxLoop_framed. apply (IH false).
    + apply minLoop_framed. apply (IH true).
Qed.

Lemma maxLoop_returning `{!AlignedShapes} rec atRoot game :
  framed rec → returning rec →
  ∀ legalMoves alpha beta maxEval st,
    is_Some (load game (fst st)) →
    is_Some (maxLoop rec atRoot game legalMoves alpha beta maxEval st).
Proof.
  intros Hf Hrec legalMoves.
  induction legalMoves as [|m rest IH]; intros alpha beta maxEval st Hl; cbn;
    [eauto|].
  destruct (copyGame_total game (fst st) Hl) as [[t s1] Hc]. rewrite Hc.
  pose proof (copyGame_spec _ _ _ _ Hc) as (_ & _ & _ & _ & _ & _ & _ & _ & Hlt).
  destruct (moveAt_total t m s1) as [[ok s2] Hm]; [rewrite Hlt; exact Hl|].
  rewrite Hm.
  destruct (copy_then_move _ _ _ _ _ _ _ Hc Hm) as [He2 Hl2].
  destruct (Hrec t alpha beta (s2, snd st) Hl2) as [[eval st3] Hr].
  rewrite Hr. pose proof (Hf _ _ _ _ _ _ Hr) as He3. cbn in He3.
  destruct (beta <=? Z.max alpha eval); [eauto|].
  apply IH. cbn. destruct Hl as [g Hg].
  exists g. eapply extends_load; [|exact Hg]. eapply extends_trans; eauto.
Qed.

Lemma minLoop_returning `{!AlignedShapes} rec game :
  framed rec → returning rec →
  ∀ legalMoves alpha beta minEval st,
    is_Some (load game (fst st)) →
    is_Some (minLoop rec game legalMoves alpha beta minEval st).
Proof.
  intros Hf Hrec legalMoves.
  induction legalMoves as [|m rest IH]; intros alpha beta minEval st Hl; cbn;
    [eauto|].
  destruct (copyGame_total game (fst st) Hl) as [[t s1] Hc]. rewrite Hc.
  pose proof (copyGame_spec _ _ _ _ Hc) as (_ & _ & _ & _ & _ & _ & _ & _ & Hlt).
  destruct (moveAt_total t m s1) as [[ok s2] Hm]; [rewrite Hlt; exact Hl|].
  rewrite Hm.
  destruct (copy_then_move _ _ _ _ _ _ _ Hc Hm) as [He2 Hl2].
  destruct (Hrec t alpha beta (s2, snd st) Hl2) as [[eval st3] Hr].
  rewrite Hr. pose proof (Hf _ _ _ _ _ _ Hr) as He3. cbn in He3.
  destruct (Z.min beta eval <=? alpha); [eauto|].
  apply IH. destruct Hl as [g Hg].
  exists g. eapply extends_load; [|exact Hg]. eapply extends_trans; eauto.
Qed.

Lemma minimax_returning `{!AlignedShapes} (depth : nat) :
  ∀ maximizingPlayer,
    returning (fun a alpha beta =>
                 minimax MAX_DEPTH myColor depth a alpha beta maximizingPlayer).
Proof.
  induction depth as [|depth IH]; intros mx a alpha beta st [g Hg]; cbn;
    rewrite Hg; [eauto|].
  destruct (negb (state_eqb (gameState g) Ongoing)); [eauto|].
  destruct (generateLegalMoves_total g) as [legalMoves ->].
  destruct mx.
  - apply maxLoop_returning; [apply minimax_framed | apply (IH false) | eauto].
  - apply minLoop_returning; [apply minimax_framed | apply (IH true) | eauto].
Qed.

(** C9.  [Level4::getMove] returns on every game object, and when it
    has returned, the game it searched reads as before: same board,
    same move history, same turn, same game state.  More: every game
    object and every board that the store held before the search is
    there unchanged; all moves of the search were played on objects
    made by the copy constructor, each with a board of its own. *)
Theorem minimax_leaves_live_game_unchanged `{!AlignedShapes}
    (game : nat) (s : Store) (live : ChessGame) :
  load game s = Some live →
  ∃ best s',
    Level4_getMove MAX_DEPTH myColor game s = Some (best, s')
    ∧ load game s' = Some live
    ∧ (∀ a o, games s !! a = Some o → games s' !! a = Some o)
    ∧ (∀ i b, boards s !! i = Some b → boards s' !! i = Some b).
Proof.
  intros Hl. unfold Level4_getMove.
  destruct (minimax_returning MAX_DEPTH true game (-1000000) 1000000
              (s, mkMove4 0 0 0 0)) as [[v st'] Hm]; [cbn; eauto|].
  rewrite Hm. apply minimax_framed in Hm. cbn in Hm.
  exists (snd st'), (fst st'). split; [reflexivity|].
  split; [eapply extends_load; eauto|].
  split; [intros a o; now apply extends_games|].
  intros i b. now apply extends_boards.
Qed.

End Frame.

End Search.

(** The search of a position with moves: the live game object reads as
    before, and the store has grown by the copies. *)
Lemma minimax_leaves_live_game_unchanged_witness :
  ∃ best s',
    Level4_getMove 1 White 0 liveStore = Some (best, s')
    ∧ load 0 s' = Some castlingReady.
Proof.
  destruct (@minimax_leaves_live_game_unchanged board_ops piece_ops 1%nat White
              Std_aligned 0%nat liveStore castlingReady)
    as (best & s' & H1 & H2 & _).
  - vm_compute. reflexivity.
  - exists best, s'. split; [exact H1 | exact H2].
Defined.

Example search_allocates_copies :
  (λ r, (length (games (snd r)), load 0 (snd r)))
    <$> Level4_getMove 1 White 0 liveStore
  = Some (27%nat, Some castlingReady).
Proof. vm_compute. reflexivity. Qed.

(** ** Empty sets of legal moves *)

Section EmptyMoveSets.
Context `{BoardOps} `{PieceOps}.

Lemma pickRandom_member (r : nat) (v : list Move) :
  v ≠ [] → ∃ mv, pickRandom r v = Some mv ∧ mv ∈ v.
Proof.
  intros Hne. destruct v as [|x v]; [contradiction|].
  unfold pickRandom.
  destruct (lookup_lt_is_Some_2 (x :: v) (r mod length (x :: v))%nat) as [mv Hmv].
  { apply Nat.mod_upper_bound. cbn. lia. }
  exists mv. split; [exact Hmv|]. eapply list_elem_of_lookup_2; eauto.
Qed.

Lemma isCheck_total `{!AlignedShapes} m (g : ChessGame) : is_Some (isCheck m g).
Proof. unfold isCheck. apply isKingInCheckInternal_total. Qed.

Lemma isMoveSafe_total `{!AlignedShapes} m (g : ChessGame) :
  is_Some (isMoveSafe m g).
Proof.
  unfold isMoveSafe.
  destruct (generateLegalMovesInternal_total (moveList g) (other (color m))
              (Board_move (board g) m)) as [ms ->]. eauto.
Qed.

Lemma Level1_member (r : nat) (g : ChessGame) ms :
  generateLegalMoves g = Some ms → ms ≠ [] →
  ∃ mv, Level1_getMove r g = Some mv ∧ mv ∈ ms.
Proof.
  intros Hg Hne. unfold Level1_getMove. rewrite Hg.
  now apply pickRandom_member.
Qed.

Lemma Level2_member `{!AlignedShapes} (r : nat) (g : ChessGame) ms :
  generateLegalMoves g = Some ms → ms ≠ [] →
  ∃ mv, Level2_getMove r g = Some mv ∧ mv ∈ ms.
Proof.
  intros Hg Hne. unfold Level2_getMove. rewrite Hg.
  destruct (filterLoop_total
              (fun m => if isCapture m g then Some true else isCheck m g) ms)
    as [pref Hp].
  { intros m _. destruct (isCapture m g); [eauto | apply isCheck_total]. }
  rewrite Hp. destruct pref as [|p ps]; [now apply pickRandom_member|].
  destruct (pickRandom_member r (p :: ps)) as (mv & Hmv & Hin); [discriminate|].
  exists mv. split; [exact Hmv|].
  now apply (filterLoop_sublist _ _ _ Hp).
Qed.

Lemma Level3_member `{!AlignedShapes} (r : nat) (g : ChessGame) ms :
  generateLegalMoves g = Some ms → ms ≠ [] →
  ∃ mv, Level3_getMove r g = Some mv ∧ mv ∈ ms.
Proof.
  intros Hg Hne. unfold Level3_getMove. rewrite Hg.
  destruct (filterLoop_total (fun m => isCheck m g) ms) as [checks Hc].
  { intros m _. apply isCheck_total. }
  rewrite Hc. destruct checks as [|p ps].
  2:{ destruct (pickRandom_member r (p :: ps)) as (mv & Hmv & Hin);
        [discriminate|].
      exists mv. split; [exact Hmv|]. now apply (filterLoop_sublist _ _ _ Hc). }
  destruct (filter (λ m, isCapture m g = true) ms) as [|p ps] eqn:Hcap.
  2:{ destruct (pickRandom_member r (p :: ps)) as (mv & Hmv & Hin);
        [discriminate|].
      exists mv. split; [exact Hmv|]. rewrite <- Hcap in Hin.
      now apply list_elem_of_filter in Hin as [_ ?]. }
  destruct (filterLoop_total (fun m => isMoveSafe m g) ms) as [safe Hs].
  { intros m _. apply isMoveSafe_total. }
  rewrite Hs. destruct safe as [|p ps]; [now apply pickRandom_member|].
  destruct (pickRandom_member r (p :: ps)) as (mv & Hmv & Hin); [discriminate|].
  exists mv. split; [exact Hmv|]. now apply (filterLoop_sublist _ _ _ Hs).
Qed.

(** C6, as the code has it.  [minimax] returns the static evaluation of
    the board for the searching side exactly as a leaf value at depth 0
    and in a game state other than [Ongoing], and leaves the store and
    [bestMove] as they are.  At a positive depth in the state [Ongoing],
    an empty set of legal moves gives the bound the loop starts from,
    -1000000 when maximizing and 1000000 when minimizing, again with
    nothing changed: the loops walk the collection and never index it.
    The random, greedy and heuristic levels return a member of a
    non-empty collection of legal moves. *)
Theorem search_on_empty_and_non_empty_move_sets `{!AlignedShapes}
    (MAX_DEPTH : nat) (myColor : PieceColor) (game : nat)
    (st : SearchState) (g : ChessGame) :
  load game (fst st) = Some g →
  (∀ depth alpha beta mx,
      depth = 0%nat ∨ gameState g ≠ Ongoing →
      minimax MAX_DEPTH myColor depth game alpha beta mx st
      = Some (evaluateBoard myColor g, st))
  ∧ (∀ depth alpha beta mx,
        gameState g = Ongoing → generateLegalMoves g = Some [] →
        minimax MAX_DEPTH myColor (S depth) game alpha beta mx st
        = Some (if mx then -1000000 else 1000000, st))
  ∧ (∀ r ms,
        generateLegalMoves g = Some ms → ms ≠ [] →
        (∃ mv, Level1_getMove r g = Some mv ∧ mv ∈ ms)
        ∧ (∃ mv, Level2_getMove r g = Some mv ∧ mv ∈ ms)
        ∧ (∃ mv, Level3_getMove r g = Some mv ∧ mv ∈ ms)).
Proof.
  intros Hl. split; [|split].
  - intros depth alpha beta mx [-> | Hs].
    + cbn [minimax]. now rewrite Hl.
    + destruct depth; cbn [minimax]; rewrite Hl; [reflexivity|].
      unfold state_eqb. now rewrite bool_decide_eq_false_2.
  - intros depth alpha beta mx Hs Hg. cbn [minimax]. rewrite Hl.
    unfold state_eqb. rewrite bool_decide_eq_true_2 by exact Hs. cbn [negb].
    rewrite Hg. now destruct mx.
  - intros r ms Hg Hne. split; [|split].
    + now apply Level1_member.
    + now apply Level2_member.
    + now apply Level3_member.
Qed.

End EmptyMoveSets.

(** White to move has no legal move and is not in check; the game state is
    still [Ongoing], as [move] never computes a stalemate. *)
Lemma search_on_empty_and_non_empty_move_sets_witness :
  minimax 2 White 2 0 (-1000000) 1000000 true (corneredStore, mkMove4 0 0 0 0)
  = Some (-1000000, (corneredStore, mkMove4 0 0 0 0))
  ∧ minimax 2 White 0 0 (-1000000) 1000000 true (corneredStore, mkMove4 0 0 0 0)
    = Some (evaluateBoard White cornered, (corneredStore, mkMove4 0 0 0 0)).
Proof.
  destruct (@search_on_empty_and_non_empty_move_sets board_ops piece_ops
              Std_aligned 2%nat White 0%nat (corneredStore, mkMove4 0 0 0 0)
              cornered) as (H1 & H2 & _).
  - vm_compute. reflexivity.
  - split.
    + apply (H2 1%nat (-1000000) 1000000 true).
      * reflexivity.
      * vm_compute. reflexivity.
    + apply (H1 0%nat (-1000000) 1000000 true). left. reflexivity.
Defined.

(** With no legal move the search at depth 2 gives -1000000, and the
    static evaluation of the board for White is -900. *)
Lemma minimax_empty_set_is_not_a_leaf :
  ¬ emptyIsLeaf 2 White 2 0 (-1000000) 1000000 true
      (corneredStore, mkMove4 0 0 0 0).
Proof.
  intros Hclaim.
  specialize (Hclaim cornered ltac:(vm_compute; reflexivity)
                     ltac:(vm_compute; reflexivity)).
  vm_compute in Hclaim. discriminate.
Qed.

Example cornered_has_no_legal_move : generateLegalMoves cornered = Some [].
Proof. vm_compute. reflexivity. Qed.

Example cornered_is_not_in_check : kingIsInCheck White cornered = Some false.
Proof. vm_compute. reflexivity. Qed.

Example cornered_evaluation : evaluateBoard White cornered = -900.
Proof. vm_compute. reflexivity. Qed.

Example cornered_search_value :
  fst <$> minimax 2 White 2 0 (-1000000) 1000000 true
                  (corneredStore, mkMove4 0 0 0 0)
  = Some (-1000000).
Proof. vm_compute. reflexivity. Qed.

(** On the empty collection of this position the index of the random level
    is a remainder by zero: the model gives it no value. *)
Example Level1_has_no_value_without_moves : Level1_getMove 5 cornered = None.
Proof. vm_compute. reflexivity. Qed.

(** The empty collection is also met below the root.  The search plays the
    only legal move on a copy and does not change the turn; the node below
    has no legal move in state [Ongoing], its minimizing loop gives
    1000000, and that is the value of the root, where the static
    evaluation of the board is -900. *)
Example search_meets_empty_set_below_the_root :
  generateLegalMoves lastPawn = Some [mkMove 3 7 2 7 White]
  ∧ fst <$> minimax 2 White 2 0 (-1000000) 1000000 true
                    (mkStore [board lastPawn] [mkObj 0 White Ongoing []],
                     mkMove4 0 0 0 0)
    = Some 1000000
  ∧ evaluateBoard White lastPawn = -900.
Proof. vm_compute. auto. Qed.

(** ** What an accepted move has passed *)

Section Accepted.
Context `{BoardOps} `{PieceOps}.

Lemma isValidMove_basic (ml : list Move) (t : PieceColor) m (b : Board) :
  isValidMove ml t m b = Some true →
  ∃ piece, passesBasicChecks t b m piece.
Proof.
  intros Hv. pose proof (isValidMove_inBoard _ _ _ _ Hv) as Hb.
  unfold isValidMove in Hv. destruct Hb as [Ho Hn]. rewrite Ho, Hn in Hv.
  cbn [negb orb] in Hv.
  destruct (getPieceAt b (oldRow m) (oldCol m)) as [piece|] eqn:Hp;
    [|discriminate].
  destruct (isMoveValid piece m) eqn:Hs; cbn [negb orb] in Hv; [|discriminate].
  destruct (color_eqb (pcolor piece) t) eqn:Hc; cbn [negb] in Hv; [|discriminate].
  apply color_eqb_eq in Hc.
  exists piece. split; [split; auto|]. split; [exact Hp|].
  split; [exact Hs|]. split; [exact Hc|].
  intros np Hnp. rewrite Hnp in Hv.
  destruct (color_eqb (pcolor piece) (pcolor np)) eqn:Hc2; [discriminate|].
  intros E. rewrite Hc, E in Hc2. destruct t; discriminate.
Qed.

(** X1.  A move that [isValidMove] accepts has both cells on the board,
    moves a piece of the side [turn] whose shape predicate accepts it, does
    not stay on its cell, and lands on an empty cell or on a piece of the
    other colour. *)
Theorem accepted_move_passes_basic_checks (ml : list Move) (t : PieceColor)
    (m : Move) (b : Board) :
  isValidMove ml t m b = Some true →
  ∃ piece, passesBasicChecks t b m piece ∧ ¬ nullMove m.
Proof.
  intros Hv. destruct (isValidMove_basic _ _ _ _ Hv) as (piece & Hpass).
  exists piece. split; [exact Hpass|].
  destruct Hpass as (_ & Hp & _ & Hc & Hfree).
  intros [E1 E2]. rewrite E1, E2 in Hp. exact (Hfree piece Hp Hc).
Qed.

Lemma basic_failures_refused (ml : list Move) (t : PieceColor)
    (m : Move) (b : Board) :
  (¬ inBoard m
   ∨ nullMove m
   ∨ getPieceAt b (oldRow m) (oldCol m) = None
   ∨ (∃ piece, getPieceAt b (oldRow m) (oldCol m) = Some piece
               ∧ (pcolor piece ≠ t ∨ isMoveValid piece m = false))
   ∨ (∃ np, getPieceAt b (newRow m) (newCol m) = Some np ∧ pcolor np = t)) →
  isValidMove ml t m b = Some false.
Proof.
  intros Hcase. unfold isValidMove.
  destruct (withinBoard (oldRow m) (oldCol m)) eqn:Ho; cbn [negb orb];
    [|reflexivity].
  destruct (withinBoard (newRow m) (newCol m)) eqn:Hn; cbn [negb orb];
    [|reflexivity].
  destruct (getPieceAt b (oldRow m) (oldCol m)) as [piece|] eqn:Hp;
    [|reflexivity].
  destruct (isMoveValid piece m) eqn:Hs; cbn [negb orb]; [|reflexivity].
  destruct (color_eqb (pcolor piece) t) eqn:Hc; cbn [negb]; [|reflexivity].
  apply color_eqb_eq in Hc.
  assert (Hown : ∃ np, getPieceAt b (newRow m) (newCol m) = Some np
                       ∧ pcolor np = t).
  { destruct Hcase as [Hb | [[E1 E2] | [Hnone | [(q & Hq & Hbad) | Hown]]]].
    - exfalso. apply Hb. split; auto.
    - exists piece. rewrite <- E1, <- E2. auto.
    - discriminate.
    - inversion Hq; subst q. destruct Hbad as [Hbad | Hbad]; [contradiction|].
      rewrite Hs in Hbad. discriminate.
    - exact Hown. }
  destruct Hown as (np & Hnp & Hcn). rewrite Hnp.
  replace (color_eqb (pcolor piece) (pcolor np)) with true; [reflexivity|].
  symmetry. apply color_eqb_eq. congruence.
Qed.


(** X2.  The null move and the moves that fail a basic check are refused
    with the value false for every shape predicate: no move from or to a
    cell off the board, from an empty cell, of a piece of the other side,
    of a shape the piece refuses, onto an own piece, or onto its own cell
    is accepted, and none of them makes [isValidMove] scan the board. *)
Theorem basic_check_failures_are_refused (ml : list Move) (t : PieceColor)
    (m : Move) (b : Board) :
  (¬ inBoard m
   ∨ nullMove m
   ∨ getPieceAt b (oldRow m) (oldCol m) = None
   ∨ (∃ piece, getPieceAt b (oldRow m) (oldCol m) = Some piece
               ∧ (pcolor piece ≠ t ∨ isMoveValid piece m = false))
   ∨ (∃ np, getPieceAt b (newRow m) (newCol m) = Some np ∧ pcolor np = t)) →
  isValidMove ml t m b = Some false.
Proof. apply basic_failures_refused. Qed.

(** From the cell [k] steps from the origin, a scan that leaves the loop
    has reached the destination some steps further. *)
Lemma scanLoop_done_reaches (b : Board) m :
  ∀ (fuel k : nat) read steps r,
    scanLoop fuel b m (fst (cellOn m (Z.of_nat k))) (snd (cellOn m (Z.of_nat k)))
             read steps = Some r →
    scanClear r = true →
    ∃ k' : nat, cellOn m (Z.of_nat k') = (newRow m, newCol m).
Proof.
  induction fuel as [|fuel IH]; intros k read steps r; cbn [scanLoop];
    [discriminate|].
  set (c := cellOn m (Z.of_nat k)).
  assert (Hnext : cellOn m (Z.of_nat (S k))
                  = (fst c + stepRow m, snd c + stepCol m)).
  { replace (Z.of_nat (S k)) with (Z.of_nat k + 1) by lia. apply cellOn_succ. }
  destruct (Z.eqb_spec (fst c) (newRow m)) as [E1|E1];
    destruct (Z.eqb_spec (snd c) (newCol m)) as [E2|E2]; cbn [negb orb].
  { intros _ _. exists k. fold c. destruct c; cbn in *; congruence. }
  all: destruct ((fst c =? oldRow m) && (snd c =? oldCol m)).
  all: try (intros Hs Hc; specialize (IH (S k) read (S steps) r);
            rewrite Hnext in IH; cbn [fst snd] in IH; now apply IH).
  all: destruct (withinBoard (fst c) (snd c)); [|discriminate].
  all: destruct (getPieceAt b (fst c) (snd c));
    [intros [= <-]; cbn; discriminate|].
  all: intros Hs Hc;
    specialize (IH (S k) (read ++ [(fst c, snd c)]) (S steps) r);
    rewrite Hnext in IH; cbn [fst snd] in IH; now apply IH.
Qed.

Lemma reached_is_aligned m (k : nat) :
  cellOn m (Z.of_nat k) = (newRow m, newCol m) → aligned m.
Proof.
  unfold cellOn, aligned. intros [= E1 E2].
  destruct (Z.sgn_spec (newRow m - oldRow m)) as [[? Hs1]|[[? Hs1]|[? Hs1]]];
    destruct (Z.sgn_spec (newCol m - oldCol m)) as [[? Hs2]|[[? Hs2]|[? Hs2]]];
    rewrite Hs1 in E1; rewrite Hs2 in E2; lia.
Qed.

(** X3.  A bishop, queen, rook or pawn is never accepted over a piece or
    off the lines: when [isValidMove] accepts a move of one of them, the
    displacement is straight or exactly diagonal and every cell strictly
    between origin and destination is empty.  The shape predicate is not
    assumed to accept aligned moves only. *)
Theorem accepted_sliding_move_is_aligned_and_unobstructed (ml : list Move)
    (t : PieceColor) (m : Move) (b : Board) (piece : Piece) :
  getPieceAt b (oldRow m) (oldCol m) = Some piece →
  isSliding piece = true →
  isValidMove ml t m b = Some true →
  aligned m ∧ ∀ c, c ∈ betweenCells m → emptyAt b c.
Proof.
  intros Hp Hsl Hv. pose proof (isValidMove_inBoard _ _ _ _ Hv) as Hb.
  unfold isValidMove in Hv. destruct Hb as [Ho Hn]. rewrite Ho, Hn, Hp in Hv.
  cbn [negb orb] in Hv.
  destruct (negb (isMoveValid piece m) || negb (color_eqb (pcolor piece) t));
    [discriminate|].
  destruct (match getPieceAt b (newRow m) (newCol m) with
            | Some np => color_eqb (pcolor piece) (pcolor np)
            | None => false end); [discriminate|].
  unfold slidingBlock in Hv. rewrite Hsl in Hv.
  destruct (scan b m) as [r|] eqn:Hscan; [|discriminate].
  destruct (scanClear r) eqn:Hclear; cbn [negb] in Hv; [|discriminate].
  assert (Ha : aligned m).
  { unfold scan in Hscan.
    assert (H0c : cellOn m (Z.of_nat 0) = (oldRow m, oldCol m))
      by (unfold cellOn; cbn; f_equal; lia).
    pose proof (scanLoop_done_reaches b m scanFuel 0 [] 0%nat r) as Hr.
    rewrite H0c in Hr. cbn [fst snd] in Hr.
    destruct (Hr Hscan Hclear) as [k Hk]. eapply reached_is_aligned; eauto. }
  split; [exact Ha|].
  rewrite (scan_defined b m (conj Ho Hn) Ha) in Hscan.
  inversion Hscan as [Hr]. rewrite <- Hr in Hclear.
  exact (proj1 (scanModel_clear b _ _ _) Hclear).
Qed.

(** X4.  Knights jump, and so does a king that does not castle: for a
    knight, and for a king whose move is not two columns wide,
    [isValidMove] has a value on every move and accepts exactly the moves
    that pass the basic checks; no cell between origin and destination is
    read. *)
Theorem knight_and_king_moves_need_basic_checks_only (ml : list Move)
    (t : PieceColor) (m : Move) (b : Board) (piece : Piece) :
  getPieceAt b (oldRow m) (oldCol m) = Some piece →
  ptype piece = Knight
  ∨ (ptype piece = King ∧ Z.abs (newCol m - oldCol m) ≠ 2) →
  ∃ v, isValidMove ml t m b = Some v
       ∧ (v = true ↔ passesBasicChecks t b m piece).
Proof.
  intros Hp Hty.
  assert (Hns : isSliding piece = false)
    by (unfold isSliding, isType; destruct Hty as [-> | [-> _]]; reflexivity).
  assert (Hnp : isType Pawn piece = false)
    by (unfold isType; destruct Hty as [-> | [-> _]]; reflexivity).
  assert (Hnk : isType King piece && (Z.abs (newCol m - oldCol m) =? 2) = false).
  { unfold isType. destruct Hty as [-> | [-> Hdx]]; [reflexivity|].
    cbn. lia. }
  unfold passesBasicChecks, inBoard, destinationFree. unfold isValidMove.
  destruct (withinBoard (oldRow m) (oldCol m)) eqn:Ho; cbn [negb orb].
  2:{ exists false. split; [reflexivity|]. split; [discriminate|].
      intros ([? _] & _). discriminate. }
  destruct (withinBoard (newRow m) (newCol m)) eqn:Hn; cbn [negb orb].
  2:{ exists false. split; [reflexivity|]. split; [discriminate|].
      intros ([_ ?] & _). discriminate. }
  rewrite Hp.
  destruct (isMoveValid piece m) eqn:Hs; cbn [negb orb].
  2:{ exists false. split; [reflexivity|]. split; [discriminate|].
      intros (_ & _ & ? & _). discriminate. }
  destruct (color_eqb (pcolor piece) t) eqn:Hc; cbn [negb].
  2:{ exists false. split; [reflexivity|]. split; [discriminate|].
      intros (_ & _ & _ & E & _). apply color_eqb_eq in E. congruence. }
  apply color_eqb_eq in Hc.
  destruct (getPieceAt b (newRow m) (newCol m)) as [np|] eqn:Hnp'.
  - destruct (color_eqb (pcolor piece) (pcolor np)) eqn:Hc2.
    + exists false. split; [reflexivity|]. split; [discriminate|].
      intros (_ & _ & _ & _ & Hfree). apply color_eqb_eq in Hc2.
      exfalso. apply (Hfree np eq_refl). congruence.
    + unfold slidingBlock, pawnBlock, kingBlock. rewrite Hns, Hnp, Hnk.
      exists true. split; [reflexivity|]. split; [|reflexivity]. intros _.
      repeat split; auto. intros q [= <-] E.
      rewrite Hc, E in Hc2. destruct t; discriminate.
  - unfold slidingBlock, pawnBlock, kingBlock. rewrite Hns, Hnp, Hnk.
    exists true. split; [reflexivity|]. split; [|reflexivity]. intros _.
    repeat split; auto; try (intros q Hq; discriminate).
Qed.

(** X5.  The pawn rules of an accepted move: a pawn that stays in its
    column lands on an empty cell, and a pawn that advances more than one
    row has move count 0. *)
Theorem accepted_pawn_advance (ml : list Move) (t : PieceColor)
    (m : Move) (b : Board) (piece : Piece) :
  getPieceAt b (oldRow m) (oldCol m) = Some piece →
  ptype piece = Pawn →
  isValidMove ml t m b = Some true →
  (newCol m = oldCol m → getPieceAt b (newRow m) (newCol m) = None)
  ∧ (Z.abs (newRow m - oldRow m) > 1 → moveCount piece = 0%nat).
Proof.
  intros Hp Hpawn Hv. pose proof (isValidMove_inBoard _ _ _ _ Hv) as Hb.
  unfold isValidMove in Hv. destruct Hb as [Ho Hn]. rewrite Ho, Hn, Hp in Hv.
  cbn [negb orb] in Hv.
  destruct (negb (isMoveValid piece m) || negb (color_eqb (pcolor piece) t));
    [discriminate|].
  destruct (match getPieceAt b (newRow m) (newCol m) with
            | Some np => color_eqb (pcolor piece) (pcolor np)
            | None => false end); [discriminate|].
  assert (Hsl : isSliding piece = true)
    by (unfold isSliding, isType; rewrite Hpawn; reflexivity).
  assert (Hip : isType Pawn piece = true)
    by (unfold isType; rewrite Hpawn; reflexivity).
  unfold slidingBlock in Hv. rewrite Hsl, Hip in Hv.
  destruct (scan b m) as [r|]; [|discriminate].
  destruct (negb (scanClear r)); [discriminate|]. cbn [andb] in Hv.
  split.
  - intros Hcol.
    replace (Z.abs (newCol m - oldCol m) =? 0) with true in Hv
      by (symmetry; lia).
    cbn [andb] in Hv.
    destruct (getPieceAt b (newRow m) (newCol m)) as [np|]; [|reflexivity].
    rewrite bool_decide_eq_true_2 in Hv by eauto. discriminate.
  - intros Hdy.
    destruct ((Z.abs (newCol m - oldCol m) =? 0)
              && bool_decide (is_Some (getPieceAt b (newRow m) (newCol m))));
      [discriminate|].
    unfold pawnBlock in Hv. rewrite Hip in Hv.
    replace (Z.abs (newRow m - oldRow m) >? 1) with true in Hv
      by (symmetry; lia).
    cbn [andb] in Hv.
    destruct (Nat.ltb_spec 0 (moveCount piece)); [discriminate | lia].
Qed.

End Accepted.

(** ** The order of the generated moves *)

Lemma moveLtb_spec (a b : Move) : moveLtb a b = true ↔ moveLt a b.
Proof. unfold moveLtb, moveLt. lia. Qed.

Lemma moveLt_trans (a b c : Move) : moveLt a b → moveLt b c → moveLt a c.
Proof. unfold moveLt. lia. Qed.

Lemma moveLt_irrefl (a : Move) : ¬ moveLt a a.
Proof. unfold moveLt. lia. Qed.

Lemma ascending_sorted (l : list Move) :
  ascending l = true → StronglySorted moveLt l.
Proof.
  intros Hl. apply Sorted_StronglySorted; [exact moveLt_trans|].
  induction l as [|a rest IH]; [constructor|].
  cbn [ascending] in Hl. destruct rest as [|b rest'].
  - repeat constructor.
  - apply andb_true_iff in Hl as [Hab Hrest].
    constructor; [now apply IH|]. constructor. now apply moveLtb_spec.
Qed.

Lemma candidateMoves_sorted (c : PieceColor) :
  StronglySorted moveLt (candidateMoves c).
Proof. apply ascending_sorted. destruct c; vm_compute; reflexivity. Qed.

Lemma candidateMoves_length (c : PieceColor) :
  length (candidateMoves c) = 4096%nat.
Proof. destruct c; vm_compute; reflexivity. Qed.

Lemma filterLoop_sorted {A} (R : A → A → Prop) (test : A → option bool)
    (xs out : list A) :
  filterLoop test xs = Some out → StronglySorted R xs → StronglySorted R out.
Proof.
  revert out. induction xs as [|x rest IH]; intros out Hf Hs; cbn in Hf.
  - inversion Hf. constructor.
  - destruct (test x) as [keep|]; [|discriminate].
    destruct (filterLoop test rest) as [out'|] eqn:Hr; [|discriminate].
    inversion Hs as [|? ? Hrest Hall]; subst.
    specialize (IH out' eq_refl Hrest).
    inversion Hf; subst. destruct keep; [|exact IH].
    constructor; [exact IH|].
    rewrite Forall_forall in *. intros y Hy. apply Hall.
    apply list_elem_of_In. apply (filterLoop_sublist _ _ _ Hr).
    now apply list_elem_of_In.
Qed.

Lemma filterLoop_length {A} (test : A → option bool) (xs out : list A) :
  filterLoop test xs = Some out → (length out ≤ length xs)%nat.
Proof.
  revert out. induction xs as [|x rest IH]; intros out Hf; cbn in Hf.
  - inversion Hf. reflexivity.
  - destruct (test x) as [keep|]; [|discriminate].
    destruct (filterLoop test rest) as [out'|] eqn:Hr; [|discriminate].
    specialize (IH out' eq_refl). inversion Hf; subst.
    destruct keep; cbn; lia.
Qed.

Lemma sorted_NoDup (l : list Move) : StronglySorted moveLt l → NoDup l.
Proof.
  induction 1 as [|a l Hs IH Hall]; [constructor|].
  constructor; [|exact IH]. intros Hin.
  rewrite Forall_forall in Hall. apply list_elem_of_In in Hin.
  exact (moveLt_irrefl a (Hall a Hin)).
Qed.

#[global] Transparent generateLegalMovesInternal isKingInCheckInternal.

Section Order.
Context `{BoardOps} `{PieceOps}.

Lemma generateLegalMovesInternal_unfold (ml : list Move) (c : PieceColor)
    (b : Board) :
  generateLegalMovesInternal ml c b
  = filterLoop (fun move => isValidMove ml c move b) (candidateMoves c).
Proof. reflexivity. Qed.

Lemma isKingInCheckInternal_unfold (ml : list Move) (c : PieceColor) (b : Board) :
  isKingInCheckInternal ml c b
  = match generateLegalMovesInternal ml (other c) b with
    | None => None
    | Some opponentMoves =>
      Some (existsb (fun m => isCheckInternal m (findKing c b)) opponentMoves)
    end.
Proof. reflexivity. Qed.

Lemma generateLegalMovesInternal_sorted (ml : list Move) (c : PieceColor)
    (b : Board) (ms : list Move) :
  generateLegalMovesInternal ml c b = Some ms →
  StronglySorted moveLt ms ∧ (length ms ≤ 4096)%nat.
Proof.
  intros Hg. rewrite generateLegalMovesInternal_unfold in Hg. split.
  - eapply filterLoop_sorted; [exact Hg | apply candidateMoves_sorted].
  - rewrite <- (candidateMoves_length c). eapply filterLoop_length; eauto.
Qed.

(** X6.  The legal moves come in the order of the loops: the list that
    [generateLegalMoves] returns is a selection, in the same order, from the
    pseudo-legal list, which is strictly ascending by origin row, origin
    column, destination row and destination column.  So no move occurs
    twice, there are at most 4096, and each has the colour of the side to
    move and both cells on the board. *)
Theorem generated_moves_are_in_loop_order (g : ChessGame) (ms : list Move) :
  generateLegalMoves g = Some ms →
  ∃ pl,
    generateLegalMovesInternal (moveList g) (turn g) (board g) = Some pl
    ∧ StronglySorted moveLt pl
    ∧ StronglySorted moveLt ms
    ∧ NoDup ms
    ∧ ms ⊆ pl
    ∧ (length ms ≤ length pl ≤ 4096)%nat
    ∧ ∀ m, m ∈ pl → color m = turn g ∧ inBoard m.
Proof.
  unfold generateLegalMoves.
  destruct (generateLegalMovesInternal (moveList g) (turn g) (board g))
    as [pl|] eqn:Hpl; [|discriminate].
  intros Hms. exists pl. split; [reflexivity|].
  destruct (generateLegalMovesInternal_sorted _ _ _ _ Hpl) as [Hs Hlen].
  pose proof (filterLoop_sorted moveLt _ _ _ Hms Hs) as Hs'.
  split; [exact Hs|]. split; [exact Hs'|]. split; [now apply sorted_NoDup|].
  split; [now apply (filterLoop_sublist _ _ _ Hms)|].
  split; [pose proof (filterLoop_length _ _ _ Hms); lia|].
  intros m Hm. apply (generateLegalMovesInternal_spec _ _ _ _ Hpl) in Hm.
  destruct Hm as [Hc Hv]. split; [exact Hc|].
  eapply isValidMove_inBoard; eauto.
Qed.

(** X7.  Without a king of the colour on the board, [findKing] gives
    (-1, -1), no generated move lands there, and the colour is not in
    check. *)
Theorem no_king_is_never_in_check `{!AlignedShapes} (c : PieceColor)
    (g : ChessGame) :
  (∀ cell, withinBoard (fst cell) (snd cell) = true →
           ¬ kingAt c (board g) cell) →
  findKing c (board g) = (-1, -1) ∧ kingIsInCheck c g = Some false.
Proof.
  intros Hnone.
  assert (Hk : findKing c (board g) = (-1, -1)).
  { destruct (findKing_spec c (board g)) as [[Hw Hking] | [Hk _]]; [|exact Hk].
    exfalso. exact (Hnone _ Hw Hking). }
  split; [exact Hk|]. unfold kingIsInCheck.
  destruct (isKingInCheckInternal_total (moveList g) c (board g)) as [r Hr].
  rewrite Hr. f_equal. destruct r; [|reflexivity]. exfalso.
  destruct (proj1 (isKingInCheckInternal_spec _ _ _ _ Hr) eq_refl)
    as (m & [_ Hv] & Hdest).
  apply isValidMove_inBoard in Hv as [_ Hn]. rewrite Hk in Hdest.
  inversion Hdest as [[E1 E2]]. rewrite E1, E2 in Hn. discriminate.
Qed.

End Order.

#[global] Opaque generateLegalMovesInternal isKingInCheckInternal.

(** ** [move] and the list of legal moves *)

Section MoveAndLegal.
Context `{BoardOps} `{PieceOps}.

Lemma pawn_is_no_king (p : option Piece) : castTo King p = true → castTo Pawn p = false.
Proof.
  destruct p as [q|]; [|discriminate]. cbn. unfold isType.
  intros Hk. apply bool_decide_eq_true in Hk.
  apply bool_decide_eq_false. congruence.
Qed.

Lemma moveInternal_accepts_iff (m : Move) (g : ChessGame) :
  (∃ g', moveInternal m g = Some (true, g'))
  ↔ isValidMove (moveList g) (turn g) m (board g) = Some true ∧ passesKingTest g m.
Proof.
  rewrite <- keepsKingSafe_spec. unfold moveInternal, keepsKingSafe.
  cbv zeta.
  destruct (isValidMove (moveList g) (turn g) m (board g)) as [[|]|] eqn:Hv.
  2,3: split; [intros [g' Hg']; discriminate | intros [? _]; discriminate].
  set (K := castTo King (getPieceAt (board g) (oldRow m) (oldCol m))
            && (Z.abs (newCol m - oldCol m) =? 2)).
  set (P := castTo Pawn (getPieceAt (board g) (oldRow m) (oldCol m))
            && (Z.abs (newRow m - oldRow m) >? 0)
            && (Z.abs (newCol m - oldCol m) >? 0)
            && bool_decide (getPieceAt (board g) (newRow m) (newCol m) = None)).
  assert (HPK : K = true → P = false).
  { unfold K, P. intros HK. apply andb_true_iff in HK as [HK _].
    now rewrite (pawn_is_no_king _ HK). }
  destruct K.
  - rewrite (HPK eq_refl).
    destruct (castlingInCheck _ _ _ _) as [[|]|]; cbn;
      (split; [intros [g' Hg']; first [discriminate | auto]
              | intros [_ Hs]; first [discriminate | eauto]]).
  - destruct P;
      destruct (isKingInCheckInternal _ _ _) as [[|]|]; cbn;
      (split; [intros [g' Hg']; first [discriminate | auto]
              | intros [_ Hs]; first [discriminate | eauto]]).
Qed.

Lemma move_accepts_iff `{!AlignedShapes} (m : Move) (g : ChessGame) :
  (∃ g', move m g = Some (true, g'))
  ↔ isValidMove (moveList g) (turn g) m (board g) = Some true ∧ passesKingTest g m.
Proof.
  rewrite <- moveInternal_accepts_iff. split.
  - intros [g' Hm]. apply move_accepted in Hm as (g1 & Hi & _). eauto.
  - intros [g1 Hi]. unfold move. rewrite Hi.
    destruct (computeState_total (other (turn g1)) g1) as [g2 ->]. eauto.
Qed.

(** X8.  The two filters agree: a move is in the list of
    [generateLegalMoves] exactly when it carries the colour of the side to
    move and [move] accepts it.  The self-check test of [moveInternal] and
    the one of [generateLegalMoves] are written twice and decide the
    same. *)
Theorem legal_moves_are_the_moves_that_move_accepts `{!AlignedShapes}
    (g : ChessGame) :
  ∃ ms, generateLegalMoves g = Some ms
        ∧ ∀ m, m ∈ ms ↔ color m = turn g ∧ ∃ g', move m g = Some (true, g').
Proof.
  destruct (generateLegalMoves_total g) as [ms Hms]. exists ms.
  split; [exact Hms|]. intros m.
  rewrite (generateLegalMoves_spec g ms Hms m), move_accepts_iff.
  unfold pseudoLegal. tauto.
Qed.

(** X9.  Whether [move] accepts a move, and the board, history and turn
    it leaves, do not depend on the game state: in any state, resigned or
    checkmate included, the same moves are accepted and rejected and the
    same board, history and turn result. *)
Theorem move_ignores_the_game_state (s : GameState) (m : Move)
    (g g' : ChessGame) (ok : bool) :
  move m g = Some (ok, g') →
  ∃ g'', move m (setState s g) = Some (ok, g'')
         ∧ board g'' = board g' ∧ moveList g'' = moveList g'
         ∧ turn g'' = turn g'.
Proof.
  intros Hm. destruct ok.
  - apply move_accepted in Hm as (g1 & Hi & Hc).
    pose proof (proj1 (moveInternal_accepts_iff m g) (ex_intro _ g1 Hi)) as Hacc.
    destruct (proj2 (moveInternal_accepts_iff m (setState s g)) Hacc)
      as [g1' Hi'].
    pose proof (moveInternal_accepted _ _ _ Hi) as E1.
    pose proof (moveInternal_accepted _ _ _ Hi') as E1'.
    unfold move. rewrite Hi'.
    assert (Hcs : ∀ a b' : ChessGame,
               board a = board b' → moveList a = moveList b' → turn a = turn b' →
               ∀ r, computeState (other (turn g)) a = Some r →
               ∃ r', computeState (other (turn g)) b' = Some r'
                     ∧ board r' = board r ∧ moveList r' = moveList r
                     ∧ turn r' = turn r).
    { intros a b' Eb El Et r. unfold computeState. rewrite <- Eb, <- El.
      destruct (isKingInCheckInternal (moveList a) (other (turn g)) (board a))
        as [[|]|]; [| |discriminate].
      - cbn. rewrite <- Eb, <- El.
        destruct (generateLegalMovesInternal _ _ _) as [om|]; [|discriminate].
        destruct (anyEscape _ _ _ om) as [e|]; [|discriminate].
        intros [= <-]. eexists. split; [reflexivity|].
        destruct e; cbn; auto.
      - intros [= <-]. eexists. split; [reflexivity|]. auto. }
    assert (Ht' : turn g1' = turn g) by (rewrite E1'; reflexivity).
    rewrite Ht'.
    destruct (Hcs g1 g1') with (r := g') as (r' & Hr' & Hb & Hl & Ht).
    + rewrite E1, E1'. reflexivity.
    + rewrite E1, E1'. reflexivity.
    + rewrite E1, E1'. reflexivity.
    + exact Hc.
    + rewrite Hr'. exists r'. auto.
  - unfold move in Hm.
    destruct (moveInternal m g) as [[[|] g1]|] eqn:Hi; try discriminate.
    { destruct (computeState _ g1); discriminate. }
    inversion Hm; subst g1. apply moveInternal_rejected in Hi as Hg. subst g'.
    assert (Hi' : moveInternal m (setState s g) = Some (false, setState s g)).
    { unfold moveInternal in Hi |- *. cbn [board turn moveList setState] in *.
      destruct (isValidMove _ _ _ _) as [[|]|]; [| reflexivity | discriminate].
      destruct (_ && _).
      - destruct (isKingInCheckInternal _ _ _) as [[|]|];
          [reflexivity | discriminate | discriminate].
      - destruct (_ && _).
        + destruct (castlingInCheck _ _ _ _) as [[|]|];
            [reflexivity | discriminate | discriminate].
        + destruct (isKingInCheckInternal _ _ _) as [[|]|];
            [reflexivity | discriminate | discriminate]. }
    unfold move. rewrite Hi'. exists (setState s g). auto.
Qed.

End MoveAndLegal.

(** ** Checkmate and stalemate after a move *)

Section MateAndStalemate.
Context `{BoardOps} `{PieceOps}.

Lemma changeTurn_fields (g : ChessGame) :
  board (changeTurn g) = board g ∧ moveList (changeTurn g) = moveList g
  ∧ turn (changeTurn g) = other (turn g)
  ∧ gameState (changeTurn g) = gameState g.
Proof. repeat split. Qed.

(** What [move] leaves in a game that was in play: the state tells whether
    the other king is in check. *)
Lemma move_from_play (m : Move) (g g' : ChessGame) :
  inPlay g → move m g = Some (true, g') →
  turn g' = turn g
  ∧ ∃ chk, isKingInCheckInternal (moveList g') (other (turn g)) (board g')
           = Some chk
           ∧ (chk = false → gameState g' = Ongoing)
           ∧ (chk = true →
              (gameState g' = checkAgainst (other (turn g))
               ∨ gameState g' = checkmateAgainst (other (turn g)))
              ∧ ((∃ e, passesEscapeTest (moveList g') (other (turn g)) (board g') e) →
                 gameState g' = checkAgainst (other (turn g)))).
Proof.
  intros Hplay Hm. apply move_accepted in Hm as (g1 & Hi & Hc).
  apply moveInternal_accepted in Hi.
  apply computeState_spec in Hc as (Hb & Ht & Hl & chk & Hk & Hf & Htrue).
  assert (Hs1 : gameState g1 = Ongoing).
  { rewrite Hi. cbn. unfold state_eqb.
    destruct Hplay as [E | E]; rewrite E.
    - now destruct (bool_decide _).
    - now rewrite bool_decide_eq_true_2. }
  split; [rewrite Ht, Hi; reflexivity|].
  exists chk. rewrite Hb, Hl. split; [exact Hk|]. split.
  - intros E. rewrite (Hf E). exact Hs1.
  - intros E. destruct (Htrue E) as (H1 & H2 & _). split; auto.
Qed.

(** X10.  A checkmate that [move] records is one: when a successful move
    in a game in play leaves the state checkmate against the other side,
    that side, once the turn is changed, has no legal move, and its king is
    in check. *)
Theorem recorded_checkmate_leaves_no_legal_move `{!AlignedShapes} (m : Move)
    (g g' : ChessGame) :
  inPlay g →
  move m g = Some (true, g') →
  gameState g' = checkmateAgainst (other (turn g)) →
  kingIsInCheck (other (turn g)) g' = Some true
  ∧ generateLegalMoves (changeTurn g') = Some [].
Proof.
  intros Hplay Hm Hmate.
  destruct (move_from_play m g g' Hplay Hm) as (Ht & chk & Hk & Hf & Htrue).
  destruct chk.
  2:{ rewrite (Hf eq_refl) in Hmate. destruct (turn g); discriminate. }
  destruct (Htrue eq_refl) as [_ Hesc].
  split; [exact Hk|].
  destruct (generateLegalMoves_total (changeTurn g')) as [ms Hms].
  rewrite Hms. f_equal. destruct ms as [|e ms]; [reflexivity|]. exfalso.
  pose proof (proj1 (generateLegalMoves_spec _ _ Hms e) (list_elem_of_here _ _))
    as [Hpl Hsafe].
  destruct (changeTurn_fields g') as (Eb & El & Et & _).
  rewrite Eb, El, Et, Ht in Hpl.
  unfold passesKingTest in Hsafe. rewrite Eb, El, Et, Ht in Hsafe.
  destruct (isCastling (board g') e).
  - destruct Hsafe as [Hout _]. unfold passesCheckTest in Hout. congruence.
  - assert (Hstate : gameState g' = checkAgainst (other (turn g))).
    { apply Hesc. exists e. split; [exact Hpl | exact Hsafe]. }
    rewrite Hstate in Hmate. destruct (turn g); discriminate.
Qed.

(** X11.  After a successful move in a game in play, changing the turn and
    calling [computeStalemate] gives the state [Stalemate] exactly when the
    side now to move is not in check and has no legal move; the board, the
    history and the turn stay as they are, and a check or a checkmate that
    [move] has recorded is never turned into a stalemate. *)
Theorem stalemate_after_a_move `{!AlignedShapes} (m : Move)
    (g g1 : ChessGame) :
  inPlay g →
  move m g = Some (true, g1) →
  ∃ g2, computeStalemate (changeTurn g1) = Some g2
        ∧ board g2 = board g1 ∧ moveList g2 = moveList g1
        ∧ turn g2 = other (turn g)
        ∧ (gameState g2 = Stalemate ↔
           kingIsInCheck (other (turn g)) g1 = Some false
           ∧ generateLegalMoves (changeTurn g1) = Some [])
        ∧ (gameState g2 ≠ Stalemate → gameState g2 = gameState g1).
Proof.
  intros Hplay Hm.
  destruct (move_from_play m g g1 Hplay Hm) as (Ht & chk & Hk & Hf & Htrue).
  destruct (changeTurn_fields g1) as (Eb & El & Et & Es).
  unfold computeStalemate. rewrite Es, Et, Ht. unfold kingIsInCheck.
  destruct chk.
  - destruct (Htrue eq_refl) as [[E | E] _]; rewrite E; unfold state_eqb.
    + rewrite bool_decide_eq_true_2 by reflexivity. cbn [negb andb].
      exists (changeTurn g1). rewrite Eb, El, Et, Ht, Es, E, Hk.
      repeat split; auto; try (intros [? _]; discriminate);
        destruct (turn g); discriminate.
    + rewrite (bool_decide_eq_true_2 (checkmateAgainst _ = checkmateAgainst _))
        by reflexivity.
      rewrite andb_false_r.
      exists (changeTurn g1). rewrite Eb, El, Et, Ht, Es, E, Hk.
      repeat split; auto; try (intros [? _]; discriminate);
        destruct (turn g); discriminate.
  - rewrite (Hf eq_refl). unfold state_eqb.
    rewrite !bool_decide_eq_false_2 by (destruct (turn g); discriminate).
    cbn [negb andb].
    destruct (generateLegalMoves_total (changeTurn g1)) as [ms Hms].
    rewrite Hms, Hk. destruct ms as [|e ms].
    + exists (setState Stalemate (changeTurn g1)). cbn.
      repeat split; auto. rewrite Ht. reflexivity.
      intros Hno. contradiction.
    + exists (changeTurn g1). rewrite Eb, El, Et, Ht, Es, (Hf eq_refl).
      repeat split; auto; try discriminate. intros [_ ?]. discriminate.
Qed.

End MateAndStalemate.

(** ** The static evaluation *)

Lemma pieceValues_bounds (c : ascii) : 0 ≤ pieceValues c ≤ 10000.
Proof. unfold pieceValues. repeat (destruct (Ascii.eqb _ _)); lia. Qed.

Lemma cells_length : length cells = 64%nat.
Proof. vm_compute. reflexivity. Qed.

Section Evaluation.
Context `{BoardOps} `{PieceOps}.

(** The loop of [evaluateBoard] over any list of cells: the sum for one
    colour is the opposite of the sum for the other, and each cell moves
    the sum by at most 10000. *)
Lemma evaluate_fold (c : PieceColor) (b : Board) (l : list (Z * Z)) :
  ∀ a a',
    let step col := fun materialScore (cell : Z * Z) =>
      match getPieceAt b (fst cell) (snd cell) with
      | Some piece =>
        let pieceValue := pieceValues (getLetter piece) in
        if color_eqb (pcolor piece) col
        then materialScore + pieceValue
        else materialScore - pieceValue
      | None => materialScore
      end in
    fold_left (step c) l a + fold_left (step (other c)) l a' = a + a'
    ∧ Z.abs (fold_left (step c) l a - a) ≤ 10000 * Z.of_nat (length l).
Proof.
  induction l as [|cell l IH]; intros a a' step; cbn [fold_left length].
  - split; lia.
  - subst step. cbn beta.
    destruct (getPieceAt b (fst cell) (snd cell)) as [piece|].
    + pose proof (pieceValues_bounds (getLetter piece)) as Hv. cbn zeta.
      replace (color_eqb (pcolor piece) (other c))
        with (negb (color_eqb (pcolor piece) c))
        by (destruct (pcolor piece), c; reflexivity).
      destruct (color_eqb (pcolor piece) c); cbn [negb];
        match goal with
        | |- fold_left ?f l ?x + fold_left ?f' l ?y = _ ∧ _ =>
          destruct (IH x y) as [E1 E2]; cbn zeta in E1, E2; split; lia
        end.
    + cbn zeta. destruct (IH a a') as [E1 E2]. cbn zeta in E1, E2. split; lia.
Qed.

Lemma evaluateBoard_bounded (c : PieceColor) (g : ChessGame) :
  Z.abs (evaluateBoard c g) ≤ 640000.
Proof.
  unfold evaluateBoard.
  destruct (evaluate_fold c (board g) cells 0 0) as [_ E2].
  cbn zeta in E2. rewrite cells_length in E2. lia.
Qed.

(** X12.  The evaluation is zero-sum and small: what [evaluateBoard] gives
    for one colour is the opposite of what it gives for the other, and its
    absolute value is at most 640000, below the bounds of the search and
    far inside the range of [int].  It reads the board only. *)
Theorem evaluateBoard_is_zero_sum_and_bounded (c : PieceColor) (g : ChessGame) :
  evaluateBoard c g = - evaluateBoard (other c) g
  ∧ Z.abs (evaluateBoard c g) ≤ 640000
  ∧ ∀ t s ml, evaluateBoard c (mkGame (board g) t s ml) = evaluateBoard c g.
Proof.
  unfold evaluateBoard.
  destruct (evaluate_fold c (board g) cells 0 0) as [E1 E2].
  cbn zeta in E1, E2. rewrite cells_length in E2.
  split; [lia|]. split; [lia|]. reflexivity.
Qed.

End Evaluation.

(** ** Promotion squares and safe squares *)

Section Queries.
Context `{BoardOps} `{PieceOps}.

(** X13.  [isPromotion] repeats the basic checks of [isValidMove] and
    nothing else of it: it holds exactly for a pawn of the side to move
    that passes them and lands on row 0 or row 7.  On a move that
    [isValidMove] accepts it therefore tells whether a pawn reaches a last
    row. *)
Theorem isPromotion_iff (m : Move) (g : ChessGame) :
  (isPromotion m g = true ↔
   ∃ piece, passesBasicChecks (turn g) (board g) m piece
            ∧ ptype piece = Pawn ∧ (newRow m = 7 ∨ newRow m = 0))
  ∧ (isValidMove (moveList g) (turn g) m (board g) = Some true →
     (isPromotion m g = true ↔
      castTo Pawn (getPieceAt (board g) (oldRow m) (oldCol m)) = true
      ∧ (newRow m = 7 ∨ newRow m = 0))).
Proof.
  assert (Hiff : isPromotion m g = true ↔
                 ∃ piece, passesBasicChecks (turn g) (board g) m piece
                          ∧ ptype piece = Pawn ∧ (newRow m = 7 ∨ newRow m = 0)).
  { unfold isPromotion, passesBasicChecks, inBoard, destinationFree.
    destruct (withinBoard (oldRow m) (oldCol m)) eqn:Ho; cbn [negb orb].
    2:{ split; [discriminate|]. intros (p & ([? _] & _) & _). discriminate. }
    destruct (withinBoard (newRow m) (newCol m)) eqn:Hn; cbn [negb orb].
    2:{ split; [discriminate|]. intros (p & ([_ ?] & _) & _). discriminate. }
    destruct (getPieceAt (board g) (oldRow m) (oldCol m)) as [piece|] eqn:Hp.
    2:{ split; [discriminate|]. intros (p & (_ & ? & _) & _). discriminate. }
    destruct (isMoveValid piece m) eqn:Hs; cbn [negb orb].
    2:{ split; [discriminate|].
        intros (p & (_ & [= <-] & ? & _) & _). congruence. }
    destruct (color_eqb (pcolor piece) (turn g)) eqn:Hc; cbn [negb].
    2:{ split; [discriminate|].
        intros (p & (_ & [= <-] & _ & E & _) & _).
        apply color_eqb_eq in E. congruence. }
    apply color_eqb_eq in Hc.
    destruct (getPieceAt (board g) (newRow m) (newCol m)) as [np|] eqn:Hnp.
    - destruct (color_eqb (pcolor piece) (pcolor np)) eqn:Hc2.
      + split; [discriminate|].
        intros (p & (_ & _ & _ & _ & Hfree) & _). exfalso.
        apply color_eqb_eq in Hc2. apply (Hfree np eq_refl). congruence.
      + unfold isType. rewrite andb_true_iff, bool_decide_eq_true. split.
        * intros [Ht Hrow]. exists piece. repeat split; auto; try lia.
          intros q [= <-] E. rewrite Hc, E in Hc2. destruct (turn g); discriminate.
        * intros (p & (_ & [= <-] & _) & Ht & Hrow). split; [exact Ht | lia].
    - unfold isType. rewrite andb_true_iff, bool_decide_eq_true. split.
      + intros [Ht Hrow]. exists piece.
        repeat split; auto; try lia; try (intros q Hq; discriminate).
      + intros (p & (_ & [= <-] & _) & Ht & Hrow). split; [exact Ht | lia]. }
  split; [exact Hiff|]. intros Hv. rewrite Hiff.
  destruct (isValidMove_basic _ _ _ _ Hv) as (piece & Hpass).
  pose proof Hpass as (_ & Hp & _). rewrite Hp. cbn [castTo]. unfold isType.
  rewrite bool_decide_eq_true. split.
  - intros (p & (_ & Hp' & _) & Ht & Hrow). rewrite Hp in Hp'.
    inversion Hp'. subst p. auto.
  - intros [Ht Hrow]. exists piece. auto.
Qed.

(** X14.  [isMoveSafe] says false exactly when, on a copy of the board
    with the move played, some pseudo-legal move of the colour opposite to
    the colour of the move lands on the destination of the move. *)
Theorem isMoveSafe_iff `{!AlignedShapes} (m : Move) (g : ChessGame) :
  ∃ r, isMoveSafe m g = Some r
       ∧ (r = false ↔
          ∃ o, pseudoLegal (moveList g) (other (color m))
                           (Board_move (board g) m) o
               ∧ newRow o = newRow m ∧ newCol o = newCol m).
Proof.
  unfold isMoveSafe.
  destruct (generateLegalMovesInternal_total (moveList g) (other (color m))
              (Board_move (board g) m)) as [ms Hms].
  rewrite Hms. eexists. split; [reflexivity|].
  rewrite negb_false_iff, existsb_exists. unfold isCaptureTargetInternal.
  cbn [fst snd]. split.
  - intros (o & Hin & Ho). exists o. split.
    + apply (generateLegalMovesInternal_spec _ _ _ _ Hms).
      now apply list_elem_of_In.
    + lia.
  - intros (o & Hpl & E1 & E2). exists o. split.
    + apply list_elem_of_In.
      now apply (generateLegalMovesInternal_spec _ _ _ _ Hms).
    + lia.
Qed.

End Queries.

(** ** What the levels prefer *)

Section Preferences.
Context `{BoardOps} `{PieceOps}.

Lemma pickRandom_in (r : nat) (v : list Move) (mv : Move) :
  pickRandom r v = Some mv → mv ∈ v.
Proof.
  destruct v as [|x v]; [discriminate|]. unfold pickRandom.
  intros Hl. eapply list_elem_of_lookup_2; eauto.
Qed.

(** X15.  [Level2] returns a legal move, and a move that takes a piece or
    gives check whenever some legal move does. *)
Theorem Level2_prefers_captures_and_checks `{!AlignedShapes} (r : nat)
    (g : ChessGame) (ms : list Move) :
  generateLegalMoves g = Some ms → ms ≠ [] →
  ∃ mv, Level2_getMove r g = Some mv
        ∧ mv ∈ ms
        ∧ ((∃ m, m ∈ ms ∧ capturesOrChecks g m) → capturesOrChecks g mv).
Proof.
  intros Hg Hne. destruct (Level2_member r g ms Hg Hne) as (mv & Hmv & Hin).
  exists mv. split; [exact Hmv|]. split; [exact Hin|].
  intros (m & Hm & Hpref). unfold Level2_getMove in Hmv. rewrite Hg in Hmv.
  destruct (filterLoop _ ms) as [pref|] eqn:Hp; [|discriminate].
  assert (Htest : ∀ x, (if isCapture x g then Some true else isCheck x g)
                       = Some true ↔ capturesOrChecks g x).
  { intros x. unfold capturesOrChecks. destruct (isCapture x g); split.
    - intros _. left. reflexivity.
    - intros _. reflexivity.
    - intros Hx. right. exact Hx.
    - intros [Hx | Hx]; [discriminate | exact Hx]. }
  assert (Hmp : m ∈ pref).
  { apply (filterLoop_filter _ _ _ Hp). split; [exact Hm|]. now apply Htest. }
  destruct pref as [|p ps]; [inversion Hmp|].
  apply pickRandom_in in Hmv.
  apply (filterLoop_filter _ _ _ Hp) in Hmv as [_ Hmv]. now apply Htest.
Qed.

(** X16.  The three tiers of [Level3]: it returns a legal move that gives
    check when some legal move does; otherwise one that takes a piece when
    some legal move does; otherwise one that [isMoveSafe] calls safe when
    some legal move is. *)
Theorem Level3_prefers_check_then_capture_then_safety `{!AlignedShapes}
    (r : nat) (g : ChessGame) (ms : list Move) :
  generateLegalMoves g = Some ms → ms ≠ [] →
  ∃ mv, Level3_getMove r g = Some mv
        ∧ mv ∈ ms
        ∧ ((∃ m, m ∈ ms ∧ isCheck m g = Some true) → isCheck mv g = Some true)
        ∧ ((∀ m, m ∈ ms → isCheck m g = Some false) →
           ((∃ m, m ∈ ms ∧ isCapture m g = true) → isCapture mv g = true)
           ∧ ((∀ m, m ∈ ms → isCapture m g = false) →
              (∃ m, m ∈ ms ∧ isMoveSafe m g = Some true) →
              isMoveSafe mv g = Some true)).
Proof.
  intros Hg Hne. destruct (Level3_member r g ms Hg Hne) as (mv & Hmv & Hin).
  exists mv. split; [exact Hmv|]. split; [exact Hin|].
  unfold Level3_getMove in Hmv. rewrite Hg in Hmv.
  destruct (filterLoop (fun m => isCheck m g) ms) as [checks|] eqn:Hc;
    [|discriminate].
  pose proof (filterLoop_filter _ _ _ Hc) as Hcs.
  split.
  - intros (m & Hm & Hchk).
    assert (Hmc : m ∈ checks) by (apply Hcs; auto).
    destruct checks as [|p ps]; [inversion Hmc|].
    apply pickRandom_in in Hmv. now apply Hcs in Hmv as [_ ?].
  - intros Hnochk.
    assert (checks = []) as ->.
    { destruct checks as [|p ps]; [reflexivity|]. exfalso.
      destruct (proj1 (Hcs p) (list_elem_of_here _ _)) as [Hp Ht].
      rewrite (Hnochk p Hp) in Ht. discriminate. }
    destruct (filter (λ m, isCapture m g = true) ms) as [|p ps] eqn:Hcap.
    + split.
      * intros (m & Hm & Hcp). exfalso.
        assert (Hx : m ∈ filter (λ m, isCapture m g = true) ms)
          by (apply list_elem_of_filter; auto).
        rewrite Hcap in Hx. inversion Hx.
      * intros _ (m & Hm & Hsafe).
        destruct (filterLoop (fun m => isMoveSafe m g) ms) as [safe|] eqn:Hs;
          [|discriminate].
        pose proof (filterLoop_filter _ _ _ Hs) as Hss.
        assert (Hms : m ∈ safe) by (apply Hss; auto).
        destruct safe as [|q qs]; [inversion Hms|].
        apply pickRandom_in in Hmv. now apply Hss in Hmv as [_ ?].
    + split.
      * intros _. apply pickRandom_in in Hmv. rewrite <- Hcap in Hmv.
        now apply list_elem_of_filter in Hmv as [? _].
      * intros Hnocap. exfalso.
        assert (Hx : p ∈ filter (λ m, isCapture m g = true) ms)
          by (rewrite Hcap; left).
        apply list_elem_of_filter in Hx as [Hx1 Hx2].
        rewrite (Hnocap p Hx2) in Hx1. discriminate.
Qed.

End Preferences.

(** ** The move and the value of the search *)

Section SearchResult.
Context `{BoardOps} `{PieceOps}.

Variable MAX_DEPTH : nat.
Variable myColor : PieceColor.

Lemma maxLoop_best rec (atRoot : bool) game : keepsBest rec →
  ∀ legalMoves alpha beta maxEval st v st',
    maxLoop rec atRoot game legalMoves alpha beta maxEval st = Some (v, st') →
    snd st' = snd st ∨ (atRoot = true ∧ snd st' ∈ legalMoves).
Proof.
  intros Hrec legalMoves.
  induction legalMoves as [|m rest IH]; intros alpha beta maxEval st v st';
    cbn [maxLoop].
  - intros [= <- <-]. now left.
  - destruct (copyGame game (fst st)) as [[t s1]|]; [|discriminate].
    destruct (moveAt t m s1) as [[ok s2]|]; [|discriminate].
    destruct (rec t alpha beta (s2, snd st)) as [[eval st3]|] eqn:Hr;
      [|discriminate].
    apply Hrec in Hr. cbn [snd] in Hr. cbv zeta.
    assert (Hb : (if (eval >? maxEval) && atRoot then m else snd st3) = snd st
                 ∨ (atRoot = true
                    ∧ (if (eval >? maxEval) && atRoot then m else snd st3) = m)).
    { destruct (eval >? maxEval), atRoot; cbn [andb]; auto. }
    destruct (beta <=? Z.max alpha eval).
    + intros [= <- <-]. cbn [snd].
      destruct Hb as [Hb | [Ha Hb]]; [now left|].
      right. split; [exact Ha|]. rewrite Hb. left.
    + intros Hl. apply IH in Hl. cbn [snd] in Hl.
      destruct Hl as [Hl | [Ha Hl]].
      * rewrite Hl. destruct Hb as [Hb | [Ha Hb]]; [now left|].
        right. split; [exact Ha|]. rewrite Hb. left.
      * right. split; [exact Ha|]. now right.
Qed.

Lemma minLoop_best rec game : keepsBest rec →
  ∀ legalMoves alpha beta minEval st v st',
    minLoop rec game legalMoves alpha beta minEval st = Some (v, st') →
    snd st' = snd st.
Proof.
  intros Hrec legalMoves.
  induction legalMoves as [|m rest IH]; intros alpha beta minEval st v st';
    cbn [minLoop].
  - intros [= <- <-]. reflexivity.
  - destruct (copyGame game (fst st)) as [[t s1]|]; [|discriminate].
    destruct (moveAt t m s1) as [[ok s2]|]; [|discriminate].
    destruct (rec t alpha beta (s2, snd st)) as [[eval st3]|] eqn:Hr;
      [|discriminate].
    apply Hrec in Hr. cbn [snd] in Hr. cbv zeta.
    destruct (Z.min beta eval <=? alpha).
    + intros [= <- <-]. exact Hr.
    + intros Hl. apply IH in Hl. congruence.
Qed.

Lemma minimax_below_root_keeps_best (depth : nat) :
  (depth < MAX_DEPTH)%nat →
  ∀ mx, keepsBest (fun a alpha beta =>
                     minimax MAX_DEPTH myColor depth a alpha beta mx).
Proof.
  induction depth as [|depth IH]; intros Hd mx a alpha beta st v st';
    cbn [minimax].
  - destruct (load a (fst st)); [|discriminate]. now intros [= <- <-].
  - destruct (load a (fst st)) as [g|]; [|discriminate].
    destruct (negb (state_eqb (gameState g) Ongoing)); [now intros [= <- <-]|].
    destruct (generateLegalMoves g) as [ms|]; [|discriminate].
    rewrite bool_decide_eq_false_2 by lia.
    destruct mx.
    + intros Hl. apply maxLoop_best in Hl; [|apply IH; lia].
      destruct Hl as [Hl | [Ha _]]; [exact Hl | discriminate].
    + apply minLoop_best. apply IH. lia.
Qed.

Lemma maxLoop_bounded rec atRoot game : boundedValue rec →
  ∀ legalMoves alpha beta maxEval st v st',
    -1000000 ≤ maxEval ≤ 1000000 →
    maxLoop rec atRoot game legalMoves alpha beta maxEval st = Some (v, st') →
    -1000000 ≤ v ≤ 1000000.
Proof.
  intros Hrec legalMoves.
  induction legalMoves as [|m rest IH]; intros alpha beta maxEval st v st' Hb;
    cbn [maxLoop].
  - now intros [= <- <-].
  - destruct (copyGame game (fst st)) as [[t s1]|]; [|discriminate].
    destruct (moveAt t m s1) as [[ok s2]|]; [|discriminate].
    destruct (rec t alpha beta (s2, snd st)) as [[eval st3]|] eqn:Hr;
      [|discriminate].
    apply Hrec in Hr. cbv zeta.
    assert (Hb' : -1000000 ≤ (if eval >? maxEval then eval else maxEval)
                  ≤ 1000000) by (destruct (eval >? maxEval); lia).
    destruct (beta <=? Z.max alpha eval).
    + now intros [= <- <-].
    + apply IH. exact Hb'.
Qed.

Lemma minLoop_bounded rec game : boundedValue rec →
  ∀ legalMoves alpha beta minEval st v st',
    -1000000 ≤ minEval ≤ 1000000 →
    minLoop rec game legalMoves alpha beta minEval st = Some (v, st') →
    -1000000 ≤ v ≤ 1000000.
Proof.
  intros Hrec legalMoves.
  induction legalMoves as [|m rest IH]; intros alpha beta minEval st v st' Hb;
    cbn [minLoop].
  - now intros [= <- <-].
  - destruct (copyGame game (fst st)) as [[t s1]|]; [|discriminate].
    destruct (moveAt t m s1) as [[ok s2]|]; [|discriminate].
    destruct (rec t alpha beta (s2, snd st)) as [[eval st3]|] eqn:Hr;
      [|discriminate].
    apply Hrec in Hr. cbv zeta.
    destruct (Z.min beta eval <=? alpha).
    + intros [= <- <-]. lia.
    + apply IH. lia.
Qed.

(** X18.  Whatever the depth and the window, a value that [minimax]
    returns lies between -1000000 and 1000000, the bounds its loops start
    from: the static evaluation never exceeds them. *)
Theorem minimax_value_is_bounded (depth : nat) (game : nat) (alpha beta : Z)
    (mx : bool) (st st' : SearchState) (v : Z) :
  minimax MAX_DEPTH myColor depth game alpha beta mx st = Some (v, st') →
  -1000000 ≤ v ≤ 1000000.
Proof.
  revert game alpha beta mx st st' v.
  induction depth as [|depth IH]; intros game alpha beta mx st st' v;
    cbn [minimax].
  - destruct (load game (fst st)) as [g|]; [|discriminate]. intros [= <- <-].
    pose proof (evaluateBoard_bounded myColor g). lia.
  - destruct (load game (fst st)) as [g|]; [|discriminate].
    destruct (negb (state_eqb (gameState g) Ongoing)).
    { intros [= <- <-].
      pose proof (evaluateBoard_bounded myColor g). lia. }
    destruct (generateLegalMoves g) as [ms|]; [|discriminate].
    destruct mx.
    + apply maxLoop_bounded; [|lia]. intros a al be s0 v0 s0'. apply IH.
    + apply minLoop_bounded; [|lia]. intros a al be s0 v0 s0'. apply IH.
Qed.

End SearchResult.

Section SearchMove.
Context `{BoardOps} `{PieceOps}.

(** X17.  The move that [Level4::getMove] returns is [Move{0, 0, 0, 0}] or
    a legal move of the game it searched, and it is [Move{0, 0, 0, 0}] when
    the depth is 0, when the game state is not [Ongoing] and when there is
    no legal move.  That move stays on its cell, so [move] rejects it. *)
Theorem Level4_returns_a_legal_move_or_the_zero_move (MAX_DEPTH : nat)
    (myColor : PieceColor) (game : nat) (s s' : Store) (live : ChessGame)
    (best : Move) :
  load game s = Some live →
  Level4_getMove MAX_DEPTH myColor game s = Some (best, s') →
  (best = zeroMove
   ∨ (MAX_DEPTH ≠ 0%nat ∧ gameState live = Ongoing
      ∧ ∃ ms, generateLegalMoves live = Some ms ∧ best ∈ ms))
  ∧ (MAX_DEPTH = 0%nat ∨ gameState live ≠ Ongoing
     ∨ generateLegalMoves live = Some [] → best = zeroMove)
  ∧ move zeroMove live = Some (false, live).
Proof.
  intros Hl Hg. unfold Level4_getMove in Hg. fold zeroMove in Hg.
  destruct (minimax MAX_DEPTH myColor MAX_DEPTH game (-1000000) 1000000 true
              (s, zeroMove)) as [[v st']|] eqn:Hm; [|discriminate].
  inversion Hg; subst best s'. clear Hg.
  assert (Hzero : move zeroMove live = Some (false, live)).
  { apply move_rejects_invalid. apply basic_failures_refused.
    right. left. split; reflexivity. }
  destruct MAX_DEPTH as [|d] eqn:HM.
  - cbn [minimax] in Hm. cbn [fst] in Hm. rewrite Hl in Hm.
    inversion Hm; subst. cbn [snd]. auto.
  - cbn [minimax] in Hm. cbn [fst] in Hm. rewrite Hl in Hm.
    unfold state_eqb in Hm.
    destruct (decide (gameState live = Ongoing)) as [Hs | Hs].
    2:{ rewrite bool_decide_eq_false_2 in Hm by exact Hs. cbn [negb] in Hm.
        inversion Hm; subst. cbn [snd]. auto. }
    rewrite bool_decide_eq_true_2 in Hm by exact Hs. cbn [negb] in Hm.
    destruct (generateLegalMoves live) as [ms|]; [|discriminate].
    apply maxLoop_best in Hm.
    2:{ intros a al be s0 v0 s0' Hr.
        eapply (minimax_below_root_keeps_best (S d) myColor d); eauto. }
    cbn [snd] in Hm. split; [|split; [|exact Hzero]].
    + destruct Hm as [Hm | [_ Hm]]; [now left|].
      right. split; [discriminate|]. split; [exact Hs|]. eauto.
    + intros [? | [? | Hnil]]; [discriminate | contradiction |].
      inversion Hnil; subst ms.
      destruct Hm as [Hm | [_ Hm]]; [exact Hm | inversion Hm].
Qed.

End SearchMove.

(** ** The words of the human player *)

Section HumanWords.
Context `{PieceOps}.

Variable charIsSigned : bool.

Lemma file_letter_value (col : Z) :
  0 ≤ col < 8 →
  charValue charIsSigned (ascii_of_nat (Z.to_nat (97 + col)))
  - charValue charIsSigned "a"%char = col.
Proof.
  intros Hc.
  assert (Hcases : col = 0 ∨ col = 1 ∨ col = 2 ∨ col = 3 ∨ col = 4 ∨ col = 5
                   ∨ col = 6 ∨ col = 7) by lia.
  destruct charIsSigned;
    repeat (destruct Hcases as [-> | Hcases]; [vm_compute; reflexivity|]);
    subst; vm_compute; reflexivity.
Qed.

Lemma rank_digit_value (row : Z) :
  0 ≤ row < 8 →
  8 - (charValue charIsSigned (ascii_of_nat (Z.to_nat (56 - row)))
       - charValue charIsSigned "0"%char) = row.
Proof.
  intros Hr.
  assert (Hcases : row = 0 ∨ row = 1 ∨ row = 2 ∨ row = 3 ∨ row = 4 ∨ row = 5
                   ∨ row = 6 ∨ row = 7) by lia.
  destruct charIsSigned;
    repeat (destruct Hcases as [-> | Hcases]; [vm_compute; reflexivity|]);
    subst; vm_compute; reflexivity.
Qed.

(** A character whose value is that of a small letter or digit is that
    letter or digit, signed [char] or not. *)
Lemma charValue_inv (c : ascii) (v : Z) :
  charValue charIsSigned c = v → 0 ≤ v < 128 →
  c = ascii_of_nat (Z.to_nat v).
Proof.
  unfold charValue. intros Hv Hb.
  pose proof (nat_ascii_bounded c) as Hn.
  assert (E : Z.of_nat (nat_of_ascii c) = v).
  { destruct (charIsSigned && (128 <=? Z.of_nat (nat_of_ascii c))) eqn:Hs;
      [|exact Hv].
    apply andb_true_iff in Hs as [_ Hs]. lia. }
  rewrite <- E, Nat2Z.id. symmetry. apply ascii_nat_embedding.
Qed.

(** X19.  The human player's words are read as cell names: for cells of
    the board, the name of the origin and the name of the destination give
    the move between them, with the colour of value 0 whoever is to move,
    and whatever follows the second character of a word is not looked
    at. *)
Theorem Human_getMove_reads_cell_names (r c r' c' : Z) (e e' : list ascii) :
  0 ≤ r < 8 → 0 ≤ c < 8 → 0 ≤ r' < 8 → 0 ≤ c' < 8 →
  Human_getMove charIsSigned (squareName r c ++ e) (squareName r' c' ++ e')
  = Some (mkMove r c r' c' zeroColor).
Proof.
  intros Hr Hc Hr' Hc'. unfold Human_getMove, squareName.
  cbn [app charAt1 charAt0]. cbv zeta.
  rewrite !file_letter_value, !rank_digit_value by assumption. reflexivity.
Qed.

Lemma word_of_cell (w : list ascii) (rank : ascii) (row col : Z) :
  charAt1 w = Some rank →
  8 - (charValue charIsSigned rank - charValue charIsSigned "0"%char) = row →
  charValue charIsSigned (charAt0 w) - charValue charIsSigned "a"%char = col →
  0 ≤ row < 8 → 0 ≤ col < 8 →
  ∃ e, w = squareName row col ++ e.
Proof.
  intros H1 Hrow Hcol Hr Hc.
  assert (Ha : charValue charIsSigned "a"%char = 97)
    by (destruct charIsSigned; reflexivity).
  assert (H0 : charValue charIsSigned "0"%char = 48)
    by (destruct charIsSigned; reflexivity).
  rewrite H0 in Hrow. rewrite Ha in Hcol.
  destruct w as [|file rest]; [discriminate|].
  cbn [charAt1 charAt0] in H1, Hcol. inversion H1 as [Hrank]. clear H1.
  destruct rest as [|rk e].
  { cbn in Hrank. subst rank.
    assert (charValue charIsSigned zero = 0) by (destruct charIsSigned; reflexivity).
    lia. }
  cbn in Hrank. subst rk. exists e. unfold squareName. cbn [app].
  rewrite (charValue_inv file (97 + col)) by lia.
  rewrite (charValue_inv rank (56 - row)) by lia. reflexivity.
Qed.

(** X20.  Only cell names give a move on the board: when the move read
    from two words has both cells on the board, each word begins with the
    name of its cell.  Any other pair of words gives a move that [move]
    rejects, leaving the game as it is. *)
Theorem Human_getMove_on_board_only_from_cell_names `{BoardOps}
    (old next : list ascii) (m : Move) :
  Human_getMove charIsSigned old next = Some m →
  (inBoard m →
   ∃ e e', old = squareName (oldRow m) (oldCol m) ++ e
           ∧ next = squareName (newRow m) (newCol m) ++ e')
  ∧ ((¬ ∃ r c r' c' e e',
          (0 ≤ r < 8 ∧ 0 ≤ c < 8 ∧ 0 ≤ r' < 8 ∧ 0 ≤ c' < 8)
          ∧ old = squareName r c ++ e ∧ next = squareName r' c' ++ e') →
     ∀ g, move m g = Some (false, g)).
Proof.
  intros Hm. unfold Human_getMove in Hm.
  destruct (charAt1 old) as [oldRank|] eqn:Ho; [|discriminate].
  destruct (charAt1 next) as [newRank|] eqn:Hn; [|discriminate].
  cbv zeta in Hm. injection Hm as Em.
  assert (Hnames : inBoard m →
            ∃ e e', old = squareName (oldRow m) (oldCol m) ++ e
                    ∧ next = squareName (newRow m) (newCol m) ++ e').
  { intros [Hob Hnb]. apply withinBoard_spec in Hob, Hnb.
    destruct (word_of_cell old oldRank (oldRow m) (oldCol m) Ho) as [e He];
      [rewrite <- Em; reflexivity | rewrite <- Em; reflexivity | lia | lia |].
    destruct (word_of_cell next newRank (newRow m) (newCol m) Hn) as [e' He'];
      [rewrite <- Em; reflexivity | rewrite <- Em; reflexivity | lia | lia |].
    exists e, e'. auto. }
  split; [exact Hnames|].
  intros Hno g. apply move_rejects_outside_board. intros Hb.
  destruct (Hnames Hb) as (e & e' & He & He'). apply Hno.
  destruct Hb as [Hob Hnb]. apply withinBoard_spec in Hob, Hnb.
  exists (oldRow m), (oldCol m), (newRow m), (newCol m), e, e'.
  split; [lia|]. auto.
Qed.

End HumanWords.

(** ** The king that [findKing] finds *)

Lemma cellLt_trans (a b c : Z * Z) : cellLt a b → cellLt b c → cellLt a c.
Proof. unfold cellLt. lia. Qed.

Lemma cellLt_irrefl (a : Z * Z) : ¬ cellLt a a.
Proof. unfold cellLt. lia. Qed.

Lemma cells_sorted : StronglySorted cellLt cells.
Proof.
  assert (Hb : (fix asc (l : list (Z * Z)) : bool :=
                  match l with
                  | [] => true
                  | a :: rest =>
                    match rest with
                    | [] => true
                    | b :: _ =>
                      ((fst a <? fst b) || ((fst a =? fst b) && (snd a <? snd b)))
                      && asc rest
                    end
                  end) cells = true) by (vm_compute; reflexivity).
  apply Sorted_StronglySorted; [exact cellLt_trans|].
  revert Hb. generalize cells. intros l.
  induction l as [|a rest IH]; intros Hb; [constructor|].
  destruct rest as [|b rest'].
  - repeat constructor.
  - apply andb_true_iff in Hb as [Hab Hrest].
    constructor; [now apply IH|]. constructor. unfold cellLt. lia.
Qed.

Lemma find_first {A} (R : A → A → Prop) (f : A → bool) (l : list A) (x : A) :
  (∀ a, ¬ R a a) → (∀ a b c, R a b → R b c → R a c) →
  StronglySorted R l → find f l = Some x →
  ∀ y, In y l → R y x → f y = false.
Proof.
  intros Hirr Htr Hs. induction Hs as [|a l Hs IH Hall]; [discriminate|].
  cbn [find]. destruct (f a) eqn:Hfa.
  - intros [= <-] y [<- | Hy] Hyx.
    + exfalso. exact (Hirr _ Hyx).
    + exfalso. rewrite Forall_forall in Hall.
      exact (Hirr _ (Htr _ _ _ (Hall y Hy) Hyx)).
  - intros Hf y [<- | Hy] Hyx; [exact Hfa|]. now apply IH.
Qed.

Section FirstKing.
Context `{BoardOps} `{PieceOps}.

Lemma findKing_first_aux (c : PieceColor) (b : Board) :
  (∀ cell, withinBoard (fst cell) (snd cell) = true →
           cellLt cell (findKing c b) → ¬ kingAt c b cell)
  ∨ findKing c b = (-1, -1).
Proof.
  unfold findKing.
  destruct (find _ cells) as [k|] eqn:Hf; [left | right; reflexivity].
  intros cell Hw Hlt (p & Hp & Ht & Hc).
  pose proof (find_first cellLt _ cells k cellLt_irrefl cellLt_trans
                cells_sorted Hf cell) as Hfalse.
  cbn beta in Hfalse. rewrite Hp in Hfalse. unfold isType in Hfalse.
  rewrite bool_decide_eq_true_2 in Hfalse by exact Ht.
  rewrite (proj2 (color_eqb_eq _ _) Hc) in Hfalse.
  assert (Hin : In cell cells) by (apply list_elem_of_In, cells_spec; exact Hw).
  specialize (Hfalse Hin Hlt). discriminate.
Qed.

(** X21.  With several kings of a colour on the board, [findKing] gives
    the first one in the order of its loops: no cell of the board before
    the cell it returns, by row and then by column, holds a king of that
    colour. *)
Theorem findKing_gives_the_first_king (c : PieceColor) (b : Board)
    (cell : Z * Z) :
  withinBoard (fst cell) (snd cell) = true →
  cellLt cell (findKing c b) →
  ¬ kingAt c b cell.
Proof.
  intros Hw Hlt. destruct (findKing_first_aux c b) as [Hfirst | Hnone].
  - intros Hk. exact (Hfirst cell Hw Hlt Hk).
  - exfalso. rewrite Hnone in Hlt. apply withinBoard_spec in Hw.
    unfold cellLt in Hlt. cbn in Hlt. lia.
Qed.

End FirstKing.

(** ** The properties above on concrete positions *)

Lemma accepted_move_passes_basic_checks_witness :
  ∃ piece, passesBasicChecks White (board backRank) (mkMove 7 0 0 0 White) piece
           ∧ ¬ nullMove (mkMove 7 0 0 0 White).
Proof.
  apply (@accepted_move_passes_basic_checks board_ops piece_ops []).
  vm_compute. reflexivity.
Defined.

Lemma basic_check_failures_are_refused_witness :
  isValidMove [] White (mkMove 7 0 7 0 White) (board backRank) = Some false.
Proof.
  apply (@basic_check_failures_are_refused board_ops piece_ops).
  right. left. split; reflexivity.
Defined.

Lemma accepted_sliding_move_is_aligned_and_unobstructed_witness :
  aligned (mkMove 7 0 0 0 White)
  ∧ ∀ c, c ∈ betweenCells (mkMove 7 0 0 0 White) → emptyAt (board backRank) c.
Proof.
  apply (@accepted_sliding_move_is_aligned_and_unobstructed board_ops
           piece_ops [] White (mkMove 7 0 0 0 White) (board backRank)
           (pc White Rook)).
  - vm_compute. reflexivity.
  - vm_compute. reflexivity.
  - vm_compute. reflexivity.
Defined.

Lemma knight_and_king_moves_need_basic_checks_only_witness :
  ∃ v, isValidMove [] White (mkMove 7 6 6 6 White) (board backRank) = Some v
       ∧ (v = true ↔
          passesBasicChecks White (board backRank) (mkMove 7 6 6 6 White)
                            (pc White King)).
Proof.
  apply (@knight_and_king_moves_need_basic_checks_only board_ops piece_ops).
  - vm_compute. reflexivity.
  - right. split; [reflexivity|]. cbn. lia.
Defined.

Lemma accepted_pawn_advance_witness :
  (newCol (mkMove 6 4 4 4 White) = oldCol (mkMove 6 4 4 4 White) →
   getPieceAt (board pawnAtHome) 4 4 = None)
  ∧ (Z.abs (newRow (mkMove 6 4 4 4 White) - oldRow (mkMove 6 4 4 4 White)) > 1 →
     moveCount (pc White Pawn) = 0%nat).
Proof.
  apply (@accepted_pawn_advance board_ops piece_ops [] White
           (mkMove 6 4 4 4 White) (board pawnAtHome) (pc White Pawn)).
  - vm_compute. reflexivity.
  - reflexivity.
  - vm_compute. reflexivity.
Defined.

Lemma generated_moves_are_in_loop_order_witness :
  ∃ pl,
    generateLegalMovesInternal (moveList lastPawn) (turn lastPawn)
                               (board lastPawn) = Some pl
    ∧ StronglySorted moveLt pl
    ∧ StronglySorted moveLt [mkMove 3 7 2 7 White]
    ∧ NoDup [mkMove 3 7 2 7 White]
    ∧ [mkMove 3 7 2 7 White] ⊆ pl
    ∧ (length [mkMove 3 7 2 7 White] ≤ length pl ≤ 4096)%nat
    ∧ ∀ m, m ∈ pl → color m = turn lastPawn ∧ inBoard m.
Proof.
  apply (@generated_moves_are_in_loop_order board_ops piece_ops lastPawn).
  vm_compute. reflexivity.
Defined.

Lemma no_king_is_never_in_check_witness :
  findKing White (board kingless) = (-1, -1)
  ∧ kingIsInCheck White kingless = Some false.
Proof.
  apply (@no_king_is_never_in_check board_ops piece_ops Std_aligned).
  destruct (findKing_spec White (board kingless)) as [[Hw _] | [_ Hnone]].
  - vm_compute in Hw. discriminate.
  - exact Hnone.
Defined.

Lemma legal_moves_are_the_moves_that_move_accepts_witness :
  ∃ ms, generateLegalMoves lastPawn = Some ms
        ∧ ∀ m, m ∈ ms ↔
               color m = turn lastPawn ∧ ∃ g', move m lastPawn = Some (true, g').
Proof.
  exact (@legal_moves_are_the_moves_that_move_accepts board_ops piece_ops
           Std_aligned lastPawn).
Defined.

Lemma move_ignores_the_game_state_witness :
  ∃ g'', move (mkMove 7 0 0 0 White) (setState ResignedWhite backRank)
         = Some (true, g'')
         ∧ board g'' = board backRankMated
         ∧ moveList g'' = moveList backRankMated
         ∧ turn g'' = turn backRankMated.
Proof.
  apply (@move_ignores_the_game_state board_ops piece_ops ResignedWhite
           (mkMove 7 0 0 0 White) backRank backRankMated true).
  vm_compute. reflexivity.
Defined.

Lemma recorded_checkmate_leaves_no_legal_move_witness :
  kingIsInCheck (other (turn backRank)) backRankMated = Some true
  ∧ generateLegalMoves (changeTurn backRankMated) = Some [].
Proof.
  apply (@recorded_checkmate_leaves_no_legal_move board_ops piece_ops
           Std_aligned (mkMove 7 0 0 0 White) backRank backRankMated).
  - left. reflexivity.
  - vm_compute. reflexivity.
  - vm_compute. reflexivity.
Defined.

Lemma stalemate_after_a_move_witness :
  ∃ g2, computeStalemate (changeTurn corneringDone) = Some g2
        ∧ board g2 = board corneringDone
        ∧ moveList g2 = moveList corneringDone
        ∧ turn g2 = other (turn cornering)
        ∧ (gameState g2 = Stalemate ↔
           kingIsInCheck (other (turn cornering)) corneringDone = Some false
           ∧ generateLegalMoves (changeTurn corneringDone) = Some [])
        ∧ (gameState g2 ≠ Stalemate → gameState g2 = gameState corneringDone).
Proof.
  apply (@stalemate_after_a_move board_ops piece_ops Std_aligned
           (mkMove 2 7 2 1 Black) cornering corneringDone).
  - left. reflexivity.
  - vm_compute. reflexivity.
Defined.

Lemma isMoveSafe_iff_witness :
  ∃ r, isMoveSafe (mkMove 7 0 0 0 White) backRank = Some r
       ∧ (r = false ↔
          ∃ o, pseudoLegal (moveList backRank) (other White)
                           (Board_move (board backRank) (mkMove 7 0 0 0 White)) o
               ∧ newRow o = 0 ∧ newCol o = 0).
Proof.
  exact (@isMoveSafe_iff board_ops piece_ops Std_aligned
           (mkMove 7 0 0 0 White) backRank).
Defined.

(** Of the two legal moves one takes a pawn and the other does not:
    [Level2] returns the one that takes. *)
Lemma Level2_prefers_captures_and_checks_witness :
  let ms := [mkMove 3 7 2 6 White; mkMove 3 7 2 7 White] in
  generateLegalMoves captureOrAdvance = Some ms
  ∧ capturesOrChecks captureOrAdvance (mkMove 3 7 2 6 White)
  ∧ ¬ capturesOrChecks captureOrAdvance (mkMove 3 7 2 7 White)
  ∧ ∃ mv, Level2_getMove 1 captureOrAdvance = Some mv
          ∧ mv ∈ ms
          ∧ capturesOrChecks captureOrAdvance mv.
Proof.
  intros ms.
  assert (Hms : generateLegalMoves captureOrAdvance = Some ms)
    by (vm_compute; reflexivity).
  assert (Hcap : capturesOrChecks captureOrAdvance (mkMove 3 7 2 6 White))
    by (left; vm_compute; reflexivity).
  split; [exact Hms|]. split; [exact Hcap|]. split.
  - intros [Hc | Hc]; vm_compute in Hc; discriminate.
  - destruct (@Level2_prefers_captures_and_checks board_ops piece_ops
                Std_aligned 1%nat captureOrAdvance ms Hms)
      as (mv & Hmv & Hin & Hpref); [discriminate|].
    exists mv. split; [exact Hmv|]. split; [exact Hin|].
    apply Hpref. exists (mkMove 3 7 2 6 White). split; [|exact Hcap].
    apply (bool_decide_unpack _). vm_compute. exact I.
Defined.

(** The three tiers on three positions with two legal moves each: a move
    that takes and a move that gives check, and the check is returned; a
    move that takes and a move that does not, with no check, and the
    capture is returned; a safe move and one that is not, with no check and
    no capture, and the safe one is returned. *)
Lemma Level3_prefers_check_then_capture_then_safety_witness :
  (∃ mv, Level3_getMove 1 checkOrCapture = Some mv
         ∧ isCheck mv checkOrCapture = Some true
         ∧ isCapture (mkMove 3 7 2 6 White) checkOrCapture = true
         ∧ isCheck (mkMove 3 7 2 6 White) checkOrCapture = Some false)
  ∧ (∃ mv, Level3_getMove 1 captureOrAdvance = Some mv
           ∧ isCapture mv captureOrAdvance = true
           ∧ isCapture (mkMove 3 7 2 7 White) captureOrAdvance = false)
  ∧ (∃ mv, Level3_getMove 1 safeOrNot = Some mv
           ∧ isMoveSafe mv safeOrNot = Some true
           ∧ isMoveSafe (mkMove 4 7 2 7 White) safeOrNot = Some false).
Proof.
  split; [|split].
  - destruct (@Level3_prefers_check_then_capture_then_safety board_ops
                piece_ops Std_aligned 1%nat checkOrCapture
                [mkMove 3 7 2 6 White; mkMove 3 7 2 7 White])
      as (mv & Hmv & _ & Hcheck & _);
      [vm_compute; reflexivity | discriminate |].
    exists mv. split; [exact Hmv|]. split.
    + apply Hcheck. exists (mkMove 3 7 2 7 White).
      split; [apply (bool_decide_unpack _); vm_compute; exact I|].
      vm_compute. reflexivity.
    + split; vm_compute; reflexivity.
  - destruct (@Level3_prefers_check_then_capture_then_safety board_ops
                piece_ops Std_aligned 1%nat captureOrAdvance
                [mkMove 3 7 2 6 White; mkMove 3 7 2 7 White])
      as (mv & Hmv & _ & _ & Hrest);
      [vm_compute; reflexivity | discriminate |].
    exists mv. split; [exact Hmv|]. split; [|vm_compute; reflexivity].
    apply Hrest.
    + intros m Hm. apply list_elem_of_In in Hm.
      destruct Hm as [<- | [<- | []]]; vm_compute; reflexivity.
    + exists (mkMove 3 7 2 6 White).
      split; [apply (bool_decide_unpack _); vm_compute; exact I|].
      vm_compute. reflexivity.
  - destruct (@Level3_prefers_check_then_capture_then_safety board_ops
                piece_ops Std_aligned 1%nat safeOrNot
                [mkMove 4 7 2 7 White; mkMove 4 7 3 7 White])
      as (mv & Hmv & _ & _ & Hrest);
      [vm_compute; reflexivity | discriminate |].
    exists mv. split; [exact Hmv|]. split; [|vm_compute; reflexivity].
    apply Hrest.
    + intros m Hm. apply list_elem_of_In in Hm.
      destruct Hm as [<- | [<- | []]]; vm_compute; reflexivity.
    + intros m Hm. apply list_elem_of_In in Hm.
      destruct Hm as [<- | [<- | []]]; vm_compute; reflexivity.
    + exists (mkMove 4 7 3 7 White).
      split; [apply (bool_decide_unpack _); vm_compute; exact I|].
      vm_compute. reflexivity.
Defined.

Lemma Level4_returns_a_legal_move_or_the_zero_move_witness :
  ∃ best,
    (best = zeroMove
     ∨ (1%nat ≠ 0%nat ∧ gameState castlingReady = Ongoing
        ∧ ∃ ms, generateLegalMoves castlingReady = Some ms ∧ best ∈ ms))
    ∧ (1%nat = 0%nat ∨ gameState castlingReady ≠ Ongoing
       ∨ generateLegalMoves castlingReady = Some [] → best = zeroMove)
    ∧ move zeroMove castlingReady = Some (false, castlingReady).
Proof.
  assert (E : ∃ best s', Level4_getMove 1 White 0 liveStore = Some (best, s')).
  { vm_compute. do 2 eexists. reflexivity. }
  destruct E as (best & s' & E). exists best.
  apply (@Level4_returns_a_legal_move_or_the_zero_move board_ops piece_ops
           1%nat White 0%nat liveStore s' castlingReady best).
  - vm_compute. reflexivity.
  - exact E.
Defined.

Lemma minimax_value_is_bounded_witness :
  ∃ v st',
    minimax 1 White 1 0 (-1000000) 1000000 true (liveStore, zeroMove)
    = Some (v, st')
    ∧ -1000000 ≤ v ≤ 1000000.
Proof.
  assert (E : ∃ v st', minimax 1 White 1 0 (-1000000) 1000000 true
                               (liveStore, zeroMove) = Some (v, st')).
  { vm_compute. do 2 eexists. reflexivity. }
  destruct E as (v & st' & E). exists v, st'. split; [exact E|].
  exact (minimax_value_is_bounded 1 White 1 0 (-1000000) 1000000 true
           (liveStore, zeroMove) st' v E).
Defined.

Lemma Human_getMove_reads_cell_names_witness :
  Human_getMove false ["e"; "2"]%char ["e"; "4"; "!"]%char
  = Some (mkMove 6 4 4 4 zeroColor).
Proof.
  apply (@Human_getMove_reads_cell_names piece_ops false 6 4 4 4 []
           ["!"%char]); lia.
Defined.

Lemma Human_getMove_on_board_only_from_cell_names_witness :
  let m := mkMove 6 4 4 4 White in
  (inBoard m →
   ∃ e e', ["e"; "2"]%char = squareName (oldRow m) (oldCol m) ++ e
           ∧ ["e"; "4"]%char = squareName (newRow m) (newCol m) ++ e')
  ∧ ((¬ ∃ r c r' c' e e',
          (0 ≤ r < 8 ∧ 0 ≤ c < 8 ∧ 0 ≤ r' < 8 ∧ 0 ≤ c' < 8)
          ∧ ["e"; "2"]%char = squareName r c ++ e
          ∧ ["e"; "4"]%char = squareName r' c' ++ e') →
     ∀ g, move m g = Some (false, g)).
Proof.
  intros m.
  apply (@Human_getMove_on_board_only_from_cell_names piece_ops false
           board_ops).
  vm_compute. reflexivity.
Defined.

Lemma findKing_gives_the_first_king_witness :
  ¬ kingAt White (board backRank) (7, 0).
Proof.
  apply (findKing_gives_the_first_king White (board backRank) (7, 0)).
  - reflexivity.
  - replace (findKing White (board backRank)) with (7, 6)
      by (vm_compute; reflexivity).
    right. cbn. lia.
Defined.
